(** * Mikordle: the board evaluator, the session controller and the peer
    transport, embedded from the TypeScript sources.

    - [src/utils/types.ts]: [Letter], [WordleRow], [WordleState], [add],
      [remove], [enter];
    - [src/components/mikorle/mikordle.tsx]: [GameState], [WinState],
      [addLetter], [removeLetter], [onEnter], [Mikordle.onKey];
    - [src/utils/messenger.ts]: [WebRTCCommunicator.send] and the
      [MikordleChat] senders built on it.

    The evaluator functions of the source mutate the board they are handed
    and return nothing; here each of them is a function from the board before
    the call to the board after it, or to the exception the call raises.
    Widths, guess counts and lengths are natural numbers, key codes are
    integers, and a JavaScript string is a [string]; a letter is a string, as
    in the source. *)

From Stdlib Require Import List String Ascii Arith ZArith Bool Lia.
Import ListNotations.

(** ** Exceptions *)

(** The exceptions the modelled code can raise: the [TypeError] of a property
    read on [undefined], the two [new Error(...)] of the sources, and the
    [InvalidStateError] a browser data channel raises when it is not open. *)
Inductive JsError : Type :=
| TypeError
| CantHappen
| NotOpen
| InvalidStateError.

Inductive result (A : Type) : Type :=
| Ok (a : A)
| Throw (e : JsError).

Arguments Ok {A} a.
Arguments Throw {A} e.

Definition bind {A B : Type} (r : result A) (k : A -> result B) : result B :=
  match r with
  | Ok a => k a
  | Throw e => Throw e
  end.

Notation "x <- c ;; k" := (bind c (fun x => k))
  (at level 61, c at next level, right associativity).

(** [Array.prototype.map] with a callback that may throw: elements are
    visited from left to right and the first exception ends the call. *)
Fixpoint mapM {A B : Type} (f : A -> result B) (l : list A) : result (list B) :=
  match l with
  | [] => Ok []
  | x :: tl =>
      y <- f x ;;
      ys <- mapM f tl ;;
      Ok (y :: ys)
  end.

(** ** JavaScript strings and arrays *)

(** [s[i]], as the one-character string it is in JavaScript, [None] for
    [undefined]. *)
Definition charAt (s : string) (i : nat) : option string :=
  match String.get i s with
  | Some c => Some (String c EmptyString)
  | None => None
  end.

(** [s[i] === x]. *)
Definition charAt_eq (s : string) (i : nat) (x : string) : bool :=
  match charAt s i with
  | Some c => String.eqb c x
  | None => false
  end.

(** [`${s.substring(0, i)}_${s.substring(i + 1)}`]. *)
Definition mask (i : nat) (s : string) : string :=
  (String.substring 0 i s ++ "_"
     ++ String.substring (i + 1) (String.length s - (i + 1)) s)%string.

(** [s.split('').findIndex((e) => e === x)], [None] for [-1]. *)
Fixpoint findIndex (x : string) (s : string) : option nat :=
  match s with
  | EmptyString => None
  | String c tl =>
      if String.eqb (String c EmptyString) x then Some 0
      else match findIndex x tl with
           | Some i => Some (S i)
           | None => None
           end
  end.

(** [l[l.length - 1]] together with the elements before it; [None] when the
    array is empty and the read gives [undefined]. *)
Fixpoint splitLast {A : Type} (l : list A) : option (list A * A) :=
  match l with
  | [] => None
  | x :: tl =>
      match splitLast tl with
      | None => Some ([], x)
      | Some (front, y) => Some (x :: front, y)
      end
  end.

(** ** [src/utils/types.ts] *)

Inductive LetterState : Type := MATCH | POSITION | INVALID.

Definition LetterState_eqb (a b : LetterState) : bool :=
  match a, b with
  | MATCH, MATCH | POSITION, POSITION | INVALID, INVALID => true
  | _, _ => false
  end.

Record Letter : Type := mkLetter {
  letter : string;
  state : LetterState
}.

(** The letter list of a row is optional in the source ([letter?: Letter[]]);
    the field is called [letter] there too. *)
Record WordleRow : Type := mkRow {
  width : nat;
  row_letter : option (list Letter)
}.

(** [complete: false | 'SUCCESS' | 'FAIL']. *)
Inductive Completion : Type := Incomplete | SUCCESS | FAIL.

Definition truthy (c : Completion) : bool :=
  match c with
  | Incomplete => false
  | _ => true
  end.

(** [Omit<WordleState, 'width' | 'height'>], the type every function below
    takes. *)
Record WordleState : Type := mkState {
  rows : list WordleRow;
  complete : Completion;
  target : string
}.

Definition set_rows (instance : WordleState) (rs : list WordleRow) : WordleState :=
  mkState rs (complete instance) (target instance).

Definition set_complete (instance : WordleState) (c : Completion) : WordleState :=
  mkState (rows instance) c (target instance).

(** [if (!row.letter) row.letter = [];] *)
Definition ensure_letter (r : WordleRow) : WordleRow :=
  match row_letter r with
  | Some _ => r
  | None => mkRow (width r) (Some [])
  end.

Definition add (instance : WordleState) (w h : nat) (l : string)
  : result WordleState :=
  if truthy (complete instance) then Ok instance
  else
    let instance :=
      if List.length (rows instance) =? 0
      then set_rows instance (rows instance ++ [mkRow w (Some [])])
      else instance in
    match splitLast (rows instance) with
    | None => Throw TypeError
    | Some (front, r) =>
        let entry := ensure_letter r in
        match row_letter entry with
        | None => Throw CantHappen
        | Some ls =>
            if width entry <=? List.length ls
            then Ok (set_rows instance (front ++ [entry]))
            else Ok (set_rows instance
                       (front ++ [mkRow (width entry)
                                    (Some (ls ++ [mkLetter l INVALID]))]))
        end
    end.

Definition remove (instance : WordleState) : result WordleState :=
  if truthy (complete instance) then Ok instance
  else if List.length (rows instance) =? 0 then Ok instance
  else
    match splitLast (rows instance) with
    | None => Throw TypeError
    | Some (front, r) =>
        let entry := ensure_letter r in
        match row_letter entry with
        | None => Throw CantHappen
        | Some ls =>
            if List.length ls <=? 0
            then Ok (set_rows instance (front ++ [entry]))
            else Ok (set_rows instance
                       (front ++ [mkRow (width entry) (Some (removelast ls))]))
        end
    end.

(** First loop of [enter]: position [i] becomes [MATCH] when the scratch
    copy of the target holds the guessed letter there, and that character of
    the copy is replaced by the sentinel. *)
Fixpoint firstPass (i : nat) (ls : list Letter) (targetCopy : string)
  : list Letter * string :=
  match ls with
  | [] => ([], targetCopy)
  | e :: tl =>
      if charAt_eq targetCopy i (letter e)
      then
        let '(tl', targetCopy') := firstPass (S i) tl (mask i targetCopy) in
        (mkLetter (letter e) MATCH :: tl', targetCopy')
      else
        let '(tl', targetCopy') := firstPass (S i) tl targetCopy in
        (e :: tl', targetCopy')
  end.

(** Second loop of [enter]: a position that is not [MATCH] becomes
    [POSITION] when its letter is found in what is left of the copy (the
    leftmost occurrence is then replaced by the sentinel) and [INVALID]
    otherwise. *)
Fixpoint secondPass (ls : list Letter) (targetCopy : string)
  : list Letter * string :=
  match ls with
  | [] => ([], targetCopy)
  | e :: tl =>
      if LetterState_eqb (state e) MATCH
      then
        let '(tl', targetCopy') := secondPass tl targetCopy in
        (e :: tl', targetCopy')
      else
        match findIndex (letter e) targetCopy with
        | None =>
            let '(tl', targetCopy') := secondPass tl targetCopy in
            (mkLetter (letter e) INVALID :: tl', targetCopy')
        | Some index =>
            let '(tl', targetCopy') := secondPass tl (mask index targetCopy) in
            (mkLetter (letter e) POSITION :: tl', targetCopy')
        end
  end.

(** The two loops in sequence, from [targetCopy = instance.target + ""]. *)
Definition evaluate (tgt : string) (ls : list Letter) : list Letter :=
  let '(ls1, targetCopy) := firstPass 0 ls (tgt ++ "")%string in
  fst (secondPass ls1 targetCopy).

Definition isMATCH (e : Letter) : bool := LetterState_eqb (state e) MATCH.

Definition enter (instance : WordleState) (w h : nat) : result WordleState :=
  match splitLast (rows instance) with
  | None => Throw TypeError
  | Some (front, r) =>
      let entry := ensure_letter r in
      match row_letter entry with
      | None => Throw CantHappen
      | Some ls =>
          if negb (List.length ls =? width entry)
          then Ok (set_rows instance (front ++ [entry]))
          else
            let ls' := evaluate (target instance) ls in
            let instance :=
              set_rows instance (front ++ [mkRow (width entry) (Some ls')]) in
            if forallb isMATCH ls'
            then Ok (set_complete instance SUCCESS)
            else if h <=? List.length (rows instance)
                 then Ok (set_complete instance FAIL)
                 else Ok (set_rows instance
                            (rows instance ++ [mkRow w (Some [])]))
      end
  end.

(** ** [src/components/mikorle/mikordle.tsx]: the game state *)

Record GameState : Type := mkGame {
  letterCount : nat;
  guessesAllowed : nat;
  activeGuess : string;
  columns : nat;
  states : list WordleState
}.

(** [records] holds [false] ([None]) for a lost board and the number of
    guesses used for a won one. *)
Record WinState : Type := mkWin {
  win_letterCount : nat;
  win_guessesAllowed : nat;
  win_columns : nat;
  records : list (option nat)
}.

(** [GameState | WinState], told apart by their [type] tag. *)
Inductive State : Type :=
| Game (g : GameState)
| Win (w : WinState).

(** The three functions below hand a shallow copy [{ ...e }] of each board
    that is not complete to the evaluator.  The copy has its own [complete]
    field and shares [rows] with [e]; the state returned holds the copies, so
    what it shows is the board after the call.  The boards of the state
    passed in share the mutated [rows]; that state is not used again once the
    new one is returned, and it stays [this.state] when the function raises
    instead (see [onEnter_raised] below). *)
Definition addLetter (s : GameState) (l : string) : result GameState :=
  if letterCount s <=? String.length (activeGuess s) then Ok s
  else
    states' <- mapM (fun e =>
                       if truthy (complete e) then Ok e
                       else add e (letterCount s) (guessesAllowed s) l)
                    (states s) ;;
    Ok (mkGame (letterCount s) (guessesAllowed s)
               (activeGuess s ++ l)%string (columns s) states').

Definition removeLetter (s : GameState) : result GameState :=
  if String.length (activeGuess s) <=? 0 then Ok s
  else
    states' <- mapM (fun e =>
                       if truthy (complete e) then Ok e
                       else remove e)
                    (states s) ;;
    Ok (mkGame (letterCount s) (guessesAllowed s)
               (String.substring 0 (String.length (activeGuess s) - 1)
                                 (activeGuess s))
               (columns s) states').

(** [validWords.includes(x)]. *)
Definition includes (validWords : list string) (x : string) : bool :=
  existsb (String.eqb x) validWords.

Definition onEnter (s : GameState) (validWords : list string) : result State :=
  if negb (String.length (activeGuess s) =? letterCount s) then Ok (Game s)
  else if negb (includes validWords (activeGuess s)) then Ok (Game s)
  else
    states' <- mapM (fun e =>
                       if truthy (complete e) then Ok e
                       else enter e (letterCount s) (guessesAllowed s))
                    (states s) ;;
    if forallb (fun e => truthy (complete e)) states'
    then Ok (Win (mkWin (letterCount s) (guessesAllowed s) (columns s)
                        (map (fun e => match complete e with
                                       | SUCCESS => Some (List.length (rows e))
                                       | _ => None
                                       end) states')))
    else Ok (Game (mkGame (letterCount s) (guessesAllowed s)
                          EmptyString (columns s) states')).

(** [onEnter] when [enter] raises on a board.  The [map] stops at that
    board; the boards before it have been through [enter], each on a copy
    that shares its [rows]: in the state passed in they show the rows as
    [enter] left them (marks written, a row pushed) under the [complete] they
    had, which [enter] writes to the copy only.  [enter] raises before it
    writes anything, so the board it raises on and the ones after it are
    untouched. *)
Fixpoint entered_until_raise (w h : nat) (boards : list WordleState)
  : list WordleState :=
  match boards with
  | [] => []
  | e :: rest =>
      if truthy (complete e) then e :: entered_until_raise w h rest
      else match enter e w h with
           | Ok copy => set_rows e (rows copy) :: entered_until_raise w h rest
           | Throw _ => e :: rest
           end
  end.

(** The state [onEnter] was given, as it is when [onEnter] has raised. *)
Definition onEnter_raised (s : GameState) : GameState :=
  mkGame (letterCount s) (guessesAllowed s) (activeGuess s) (columns s)
         (entered_until_raise (letterCount s) (guessesAllowed s) (states s)).

(** The state the constructor of [Mikordle] builds when nothing was saved
    for the configuration: one board per word, without rows. *)
Definition initialState (letterCount guessesAllowed columns : nat)
  (words : list string) : GameState :=
  mkGame letterCount guessesAllowed EmptyString columns
         (map (fun tgt => mkState [] Incomplete tgt) words).

(** ** [src/utils/messenger.ts]: the peer transport *)

Module Messenger.

(** The browser's data channel, reduced to its ready state and the data
    handed to it for transmission, oldest first.  Its [send] raises an
    [InvalidStateError] when the channel is not open. *)
Inductive RTCDataChannelState : Type := connecting | open | closing | closed.

Record RTCDataChannel : Type := mkChannel {
  readyState : RTCDataChannelState;
  transmitted : list string
}.

Definition channel_send (ch : RTCDataChannel) (data : string)
  : RTCDataChannel * result unit :=
  match readyState ch with
  | open => (mkChannel open (transmitted ch ++ [data]), Ok tt)
  | _ => (ch, Throw InvalidStateError)
  end.

(** The fields of [WebRTCCommunicator] that [send] reads or writes; the
    signalling socket, the peer connection and the listener arrays are not
    touched by it. *)
Record WebRTCCommunicator : Type := mkCommunicator {
  isReady : bool;
  dataChannel : option RTCDataChannel;
  identifier : string
}.

(** A method call gives the object after the call and how the call ended.
    [if (!this.isReady || !this.dataChannel) throw new Error('not open');
     this.dataChannel.send(value);] *)
Definition send (this : WebRTCCommunicator) (value : string)
  : WebRTCCommunicator * result unit :=
  if negb (isReady this)
     || negb (match dataChannel this with Some _ => true | None => false end)
  then (this, Throw NotOpen)
  else
    match dataChannel this with
    | None => (this, Throw TypeError)
    | Some ch =>
        let '(ch', r) := channel_send ch value in
        (mkCommunicator (isReady this) (Some ch') (identifier this), r)
    end.

(** The [{event, value}] objects [MikordleChat] serialises. *)
Inductive Payload : Type :=
| key_pressed (value : string)
| key_removed
| enter_pressed
| initialise (value : GameState)
| request
| close.

Section Chat.

(** [JSON.stringify] on the payload objects. *)
Variable stringify : Payload -> string.

(** [MikordleChat], with the communicator its senders use (they do not touch
    its listener registry). *)
Record MikordleChat : Type := mkChat {
  communicator : WebRTCCommunicator
}.

Definition emit (this : MikordleChat) (p : Payload)
  : MikordleChat * result unit :=
  let '(c, r) := send (communicator this) (stringify p) in
  (mkChat c, r).

Definition keyPressed (this : MikordleChat) (key : string) :=
  emit this (key_pressed key).

Definition keyRemoved (this : MikordleChat) := emit this key_removed.

Definition enterPressed (this : MikordleChat) := emit this enter_pressed.

End Chat.

End Messenger.

(** ** [src/components/mikorle/mikordle.tsx]: the [Mikordle] component *)

Section Controller.

(** [String.prototype.toUpperCase] and [JSON.stringify]. *)
Variable toUpperCase : string -> string.
Variable stringify : Messenger.Payload -> string.

(** The argument of [onKey]: [{ keyCode: number; key: string }]. *)
Record KeyEvent : Type := mkKey {
  keyCode : Z;
  key : string
}.

(** The component: the props [onKey] reads, [this.state], and how many
    times the [onEnd] prop was called. *)
Record Mikordle : Type := mkMikordle {
  validWords : list string;
  continuing : bool;
  communicator : option Messenger.MikordleChat;
  current : State;
  ended : nat
}.

Definition set_communicator (this : Mikordle) (c : option Messenger.MikordleChat) :=
  mkMikordle (validWords this) (continuing this) c (current this) (ended this).

Definition set_current (this : Mikordle) (s : State) :=
  mkMikordle (validWords this) (continuing this) (communicator this) s (ended this).

(** A piece of [onKey] takes the component to the component after it, the
    payloads it handed to the communicator on the way, oldest first, and
    its value or the exception it raised. *)
Definition Effect (A : Type) : Type :=
  Mikordle -> Mikordle * list Messenger.Payload * result A.

Definition ret {A : Type} (a : A) : Effect A :=
  fun this => (this, [], Ok a).

Definition andThen {A B : Type} (m : Effect A) (k : A -> Effect B) : Effect B :=
  fun this =>
    let '(this1, sent1, r) := m this in
    match r with
    | Ok a =>
        let '(this2, sent2, r') := k a this1 in
        (this2, sent1 ++ sent2, r')
    | Throw e => (this1, sent1, Throw e)
    end.

Definition lift {A : Type} (r : result A) : Effect A :=
  fun this => (this, [], r).

(** [if (this.props.communicator && !synthetic) this.props.communicator.m()],
    where the method [m] serialises the payload [p] and sends it. *)
Definition replicate (synthetic : bool) (p : Messenger.Payload) : Effect unit :=
  fun this =>
    match communicator this with
    | Some chat =>
        if negb synthetic
        then
          let '(chat', r) := Messenger.emit stringify chat p in
          (set_communicator this (Some chat'), [p], r)
        else (this, [], Ok tt)
    | None => (this, [], Ok tt)
    end.

(** [this.setState(updater)]: the updater runs on the current state and the
    state is replaced by what it returns.  When the updater throws, nothing
    is replaced: [this.state] is what the updater has made of it in place by
    then. *)
Definition setState (updater : State -> Effect State) : Effect unit :=
  fun this =>
    let '(this1, sent1, r) := updater (current this) this in
    match r with
    | Ok s' => (set_current this1 s', sent1, Ok tt)
    | Throw e => (this1, sent1, Throw e)
    end.

(** [end()]: nothing unless [this.state] is a [WinState]; then the
    statistics go to the [onEnd] prop. *)
Definition end_ : Effect unit :=
  fun this =>
    match current this with
    | Win _ =>
        (mkMikordle (validWords this) (continuing this) (communicator this)
                    (current this) (S (ended this)), [], Ok tt)
    | Game _ => (this, [], Ok tt)
    end.

(** [onEnter(s, this.props.validWords)] inside the updater, [s] being the
    state of the component: when it raises, the boards of [this.state] that
    [enter] has been through keep what it wrote into their rows. *)
Definition callOnEnter (s : GameState) : Effect State :=
  fun this =>
    match onEnter s (validWords this) with
    | Ok res => (this, [], Ok res)
    | Throw err => (set_current this (Game (onEnter_raised s)), [], Throw err)
    end.

Definition isLetterCode (c : Z) : bool := ((65 <=? c) && (c <=? 90))%Z.

Definition onKey (e : option KeyEvent) (synthetic : bool) : Effect unit :=
  match e with
  | None => ret tt
  | Some e =>
      if negb (isLetterCode (keyCode e))
         && negb (keyCode e =? 8)%Z && negb (keyCode e =? 13)%Z
      then ret tt
      else
        andThen
          (if isLetterCode (keyCode e)
           then setState (fun s =>
                  match s with
                  | Win _ => ret s
                  | Game g =>
                      andThen (replicate synthetic
                                 (Messenger.key_pressed (toUpperCase (key e))))
                        (fun _ =>
                      andThen (lift (addLetter g (toUpperCase (key e))))
                        (fun g' => ret (Game g')))
                  end)
           else ret tt)
          (fun _ =>
        andThen
          (if (keyCode e =? 8)%Z
           then setState (fun s =>
                  match s with
                  | Win _ => ret s
                  | Game g =>
                      andThen (replicate synthetic Messenger.key_removed)
                        (fun _ =>
                      andThen (lift (removeLetter g))
                        (fun g' => ret (Game g')))
                  end)
           else ret tt)
          (fun _ =>
          if (keyCode e =? 13)%Z
          then setState (fun s =>
                 match s with
                 | Win _ => ret s
                 | Game g =>
                     andThen (replicate synthetic Messenger.enter_pressed)
                       (fun _ =>
                     andThen (callOnEnter g)
                       (fun res =>
                     andThen (match res with
                              | Win _ =>
                                  fun this =>
                                    if negb (continuing this) then end_ this
                                    else ret tt this
                              | Game _ => ret tt
                              end)
                       (fun _ => ret res)))
                 end)
          else ret tt))
  end.

(** What a local key hands to an attached communicator while a game is
    on. *)
Definition payload_of (e : KeyEvent) : option Messenger.Payload :=
  if isLetterCode (keyCode e)
  then Some (Messenger.key_pressed (toUpperCase (key e)))
  else if (keyCode e =? 8)%Z then Some Messenger.key_removed
  else if (keyCode e =? 13)%Z then Some Messenger.enter_pressed
  else None.

End Controller.

(** ** Vocabulary of the properties *)

(** The letters [add] leaves in the open row when the guess [G] is typed:
    each one tagged [INVALID]. *)
Definition typed (G : list string) : list Letter :=
  map (fun g => mkLetter g INVALID) G.

(** The letters of [G] added one after the other. *)
Fixpoint addAll (b : WordleState) (w h : nat) (G : list string)
  : result WordleState :=
  match G with
  | [] => Ok b
  | g :: G' => b' <- add b w h g ;; addAll b' w h G'
  end.

(** Number of positions of a row in a given state. *)
Definition count_state (st : LetterState) (ls : list Letter) : nat :=
  List.length (filter (fun e => LetterState_eqb (state e) st) ls).

(** Number of positions [i] with [G[i] = T[i]]. *)
Fixpoint agreeing (G : list string) (T : string) : nat :=
  match G, T with
  | g :: G', String c T' =>
      (if String.eqb (String c EmptyString) g then 1 else 0) + agreeing G' T'
  | _, _ => 0
  end.

(** Number of positions of a row that hold the letter [x] and are marked
    [MATCH] or [POSITION]. *)
Definition credited (x : string) (ls : list Letter) : nat :=
  List.length
    (filter (fun e => String.eqb (letter e) x
                      && (LetterState_eqb (state e) MATCH
                          || LetterState_eqb (state e) POSITION)) ls).

(** The same, [MATCH] only. *)
Definition matched (x : string) (ls : list Letter) : nat :=
  List.length
    (filter (fun e => String.eqb (letter e) x
                      && LetterState_eqb (state e) MATCH) ls).

(** Number of occurrences of the letter [x] in the word [T]. *)
Fixpoint occurrences (x : string) (T : string) : nat :=
  match T with
  | EmptyString => 0
  | String c T' =>
      (if String.eqb (String c EmptyString) x then 1 else 0) + occurrences x T'
  end.

(** The character the evaluator writes over a used target position. *)
Definition sentinel : string := "_"%string.

(** The letters the open row holds: none when the board has no row or the
    row has no letter list yet. *)
Definition letters_of (r : WordleRow) : list Letter :=
  match row_letter r with
  | Some ls => ls
  | None => []
  end.

Definition openLetters (b : WordleState) : list Letter :=
  match splitLast (rows b) with
  | Some (_, r) => letters_of r
  | None => []
  end.

(** The board [enter] leaves when the open row is full. *)
Definition committed (b : WordleState) (w h : nat)
  (front : list WordleRow) (r : WordleRow) : WordleState :=
  let ls' := evaluate (target b) (letters_of r) in
  let rs := front ++ [mkRow (width r) (Some ls')] in
  if forallb isMATCH ls' then mkState rs SUCCESS (target b)
  else if h <=? List.length rs then mkState rs FAIL (target b)
       else mkState (rs ++ [mkRow w (Some [])]) (complete b) (target b).

(** [word.split('')]: the letters of a word, one string each. *)
Fixpoint split_chars (word : string) : list string :=
  match word with
  | EmptyString => []
  | String c tl => String c EmptyString :: split_chars tl
  end.

(** A piece of [onKey] is silent when it hands nothing to the communicator
    and leaves it as it was. *)
Definition silent {A : Type} (m : Effect A) : Prop :=
  forall this,
    snd (fst (m this)) = []
    /\ communicator (fst (fst (m this))) = communicator this.

(** ** The controller as a transition system *)

(** A call of one of the three controller operations, as [onKey] makes them
    inside [setState]: a [WinState] is left alone, and when the operation
    raises the state is not replaced ([addLetter] and [removeLetter] have
    written nothing into it; [onEnter] leaves [onEnter_raised]). *)
Inductive Op : Type :=
| opAdd (l : string)
| opRemove
| opEnter (validWords : list string).

Definition step (s : State) (op : Op) : State :=
  match s with
  | Win _ => s
  | Game g =>
      match op with
      | opAdd l =>
          match addLetter g l with
          | Ok g' => Game g'
          | Throw _ => s
          end
      | opRemove =>
          match removeLetter g with
          | Ok g' => Game g'
          | Throw _ => s
          end
      | opEnter validWords =>
          match onEnter g validWords with
          | Ok s' => s'
          | Throw _ => Game (onEnter_raised g)
          end
      end
  end.

Definition run (s : State) (ops : list Op) : State := fold_left step ops s.

(** Every letter handed to [addLetter] is one character. *)
Definition single_letters (ops : list Op) : Prop :=
  Forall (fun op => match op with
                    | opAdd l => String.length l = 1
                    | _ => True
                    end) ops.

(** A board that is not complete holds [n] letters in its open row, whose
    width is [lc]; without rows, [n] is zero. *)
Definition board_inv (n lc : nat) (b : WordleState) : Prop :=
  complete b = Incomplete ->
  match splitLast (rows b) with
  | None => n = 0
  | Some (_, r) => width r = lc /\ List.length (letters_of r) = n
  end.

Definition game_inv (g : GameState) : Prop :=
  String.length (activeGuess g) <= letterCount g
  /\ Forall (board_inv (String.length (activeGuess g)) (letterCount g))
            (states g).

Definition state_inv (s : State) : Prop :=
  match s with
  | Game g => game_inv g
  | Win _ => True
  end.

(** A board that is not complete holds the active guess in its open row,
    whose width is [lc]: one letter per character, in order, each as [add]
    left it.  Without rows, the guess is empty. *)
Definition board_holds (guess : string) (lc : nat) (b : WordleState) : Prop :=
  complete b = Incomplete ->
  match splitLast (rows b) with
  | None => guess = EmptyString
  | Some (_, r) => width r = lc /\ letters_of r = typed (split_chars guess)
  end.

Definition game_holds (g : GameState) : Prop :=
  String.length (activeGuess g) <= letterCount g
  /\ Forall (board_holds (activeGuess g) (letterCount g)) (states g).

Definition state_holds (s : State) : Prop :=
  match s with
  | Game g => game_holds g
  | Win _ => True
  end.

(** ** Instances for the examples *)

(** [toUpperCase] on ASCII strings and a serialisation of the payloads, to
    run [onKey] on examples. *)
Definition upcase_ascii (c : ascii) : ascii :=
  let n := nat_of_ascii c in
  if (97 <=? n) && (n <=? 122) then ascii_of_nat (n - 32) else c.

Fixpoint upcase (s : string) : string :=
  match s with
  | EmptyString => EmptyString
  | String c tl => String (upcase_ascii c) (upcase tl)
  end.

Definition event_text (p : Messenger.Payload) : string :=
  match p with
  | Messenger.key_pressed value => ("key-pressed " ++ value)%string
  | Messenger.key_removed => "key-removed"%string
  | Messenger.enter_pressed => "enter-pressed"%string
  | Messenger.initialise _ => "initialise"%string
  | Messenger.request => "request"%string
  | Messenger.close => "close"%string
  end.

(** A game of one board, target "CRANE", and a component playing it with a
    communicator whose channel is open. *)
Definition crane_game : GameState := initialState 5 6 1 ["CRANE"%string].

Definition crane_component : Mikordle :=
  mkMikordle ["CRANE"%string; "TRACE"%string] true
    (Some (Messenger.mkChat
             (Messenger.mkCommunicator true
                (Some (Messenger.mkChannel Messenger.open [])) "AB12C")))
    (Game crane_game) 0.

(** ** Vocabulary of the further properties *)

(** Number of positions of the guess [G] that hold the letter [x]. *)
Definition holding (x : string) (G : list string) : nat :=
  List.length (filter (fun g => String.eqb g x) G).

(** Number of positions of a row that hold [x] and are not marked [MATCH]. *)
Definition unmatched (x : string) (ls : list Letter) : nat :=
  List.length
    (filter (fun e => String.eqb (letter e) x
                      && negb (LetterState_eqb (state e) MATCH)) ls).

(** Two letters with the same character that are both marked [MATCH] or
    both not. *)
Definition same_marks (e1 e2 : Letter) : Prop :=
  letter e1 = letter e2 /\ (state e1 = MATCH <-> state e2 = MATCH).

(** A board has at most as many rows as guesses are allowed (one at least,
    as the first letter typed makes a row), and a won board has a row. *)
Definition rows_bounded (ga : nat) (b : WordleState) : Prop :=
  List.length (rows b) <= Nat.max 1 ga
  /\ (complete b = SUCCESS -> 1 <= List.length (rows b)).

Definition record_bounded (ga : nat) (r : option nat) : Prop :=
  match r with
  | Some n => 1 <= n <= Nat.max 1 ga
  | None => True
  end.

Definition state_bounded (ga n : nat) (s : State) : Prop :=
  match s with
  | Game g =>
      guessesAllowed g = ga
      /\ List.length (states g) = n
      /\ Forall (rows_bounded ga) (states g)
  | Win w =>
      List.length (records w) = n /\ Forall (record_bounded ga) (records w)
  end.

(** What a board of [this.state] shows once [onEnter] has been over it: a
    complete board is skipped; on any other [enter] has run on a copy that
    shares its rows. *)
Definition entered_in_place (w h : nat) (e : WordleState) : WordleState :=
  if truthy (complete e) then e
  else match enter e w h with
       | Ok copy => set_rows e (rows copy)
       | Throw _ => e
       end.

(** A state that did not come from the controller's own operations: the
    first board holds a full guess, the second has no row yet. *)
Definition uneven_game : GameState :=
  mkGame 3 6 "ABC" 1
    [mkState [mkRow 3 (Some (typed (split_chars "ABC")))] Incomplete "BCA";
     mkState [] Incomplete "CAB"].

Definition uneven_component : Mikordle :=
  mkMikordle ["ABC"%string] true None (Game uneven_game) 0.

(** What the three updaters of [onKey] make of a [GameState], the
    communicator apart: the letter keys add the upper-cased key, backspace
    removes, enter submits, and any other key leaves the state. *)
Definition keyTransition (toUpperCase : string -> string)
  (validWords : list string) (e : KeyEvent) (g : GameState) : result State :=
  if isLetterCode (keyCode e)
  then g' <- addLetter g (toUpperCase (key e)) ;; Ok (Game g')
  else if (keyCode e =? 8)%Z
       then g' <- removeLetter g ;; Ok (Game g')
       else if (keyCode e =? 13)%Z
            then onEnter g validWords
            else Ok (Game g).

(** Keys handled one after the other, each with its own tag; an exception
    ends the handling of its key only.  The result is the component after
    the last key and everything handed to the communicator. *)
Definition pressAll (toUpperCase : string -> string)
  (stringify : Messenger.Payload -> string) (this : Mikordle)
  (keys : list (option KeyEvent * bool)) : Mikordle * list Messenger.Payload :=
  fold_left
    (fun acc k =>
       let '(this1, sent1) := acc in
       let '(this2, sent2, _) :=
         onKey toUpperCase stringify (fst k) (snd k) this1 in
       (this2, sent1 ++ sent2))
    keys (this, []).

(** ** [src/components/mikorle/mikordle.tsx]: the handlers wired to the
    communicator *)

(** [key.charCodeAt(0)]; [None] stands for the [NaN] of the empty string. *)
Definition charCodeAt0 (s : string) : option Z :=
  match s with
  | EmptyString => None
  | String c _ => Some (Z.of_nat (nat_of_ascii c))
  end.

Section Wiring.

Variable toUpperCase : string -> string.
Variable stringify : Messenger.Payload -> string.

(** What the handlers that [shouldComponentUpdate] registers do with a
    message [MikordleChat] has parsed and dispatched: the three key events
    go through [onKey] with the synthetic tag, a snapshot replaces the state,
    and a request is answered with the current [GameState].  With the [NaN]
    key code of an empty key none of the tests of [onKey] holds and nothing
    happens.  The handlers run inside the [try] of the dispatcher, which
    logs what they raise and goes on; [close] has no handler here. *)
Definition deliver (p : Messenger.Payload) : Effect unit :=
  fun this =>
    let '(this1, sent, _) :=
      match p with
      | Messenger.key_pressed key =>
          match charCodeAt0 key with
          | Some c => onKey toUpperCase stringify (Some (mkKey c key)) true this
          | None => (this, [], Ok tt)
          end
      | Messenger.key_removed =>
          onKey toUpperCase stringify (Some (mkKey 8 EmptyString)) true this
      | Messenger.enter_pressed =>
          onKey toUpperCase stringify (Some (mkKey 13 EmptyString)) true this
      | Messenger.initialise snapshot =>
          (set_current this (Game snapshot), [], Ok tt)
      | Messenger.request =>
          match current this with
          | Game g => replicate stringify false (Messenger.initialise g) this
          | Win _ => (this, [], Ok tt)
          end
      | Messenger.close => (this, [], Ok tt)
      end in
    (this1, sent, Ok tt).

(** Messages delivered in the order received. *)
Definition deliverAll (this : Mikordle) (ps : list Messenger.Payload)
  : Mikordle * list Messenger.Payload :=
  fold_left
    (fun acc p =>
       let '(this1, sent1) := acc in
       let '(this2, sent2, _) := deliver p this1 in
       (this2, sent1 ++ sent2))
    ps (this, []).

End Wiring.

(** ** [Mikordle.end]: what goes to [onEnd] *)

(** [distribution[result] = (distribution[result] ?? 0) + 1] on an object
    with numeric keys, kept as the list of its entries. *)
Fixpoint bump (n : nat) (d : list (nat * nat)) : list (nat * nat) :=
  match d with
  | [] => [(n, 1)]
  | (k, v) :: tl => if k =? n then (k, S v) :: tl else (k, v) :: bump n tl
  end.

(** [distribution[n] ?? 0]. *)
Fixpoint tally (n : nat) (d : list (nat * nat)) : nat :=
  match d with
  | [] => 0
  | (k, v) :: tl => if k =? n then v else tally n tl
  end.

(** First loop of [end]: the wins counted by number of guesses. *)
Definition end_distribution (records : list (option nat)) : list (nat * nat) :=
  fold_left (fun d result => match result with
                             | Some n => bump n d
                             | None => d
                             end) records [].

(** Second loop of [end]: the records cut into rows of [columns]; a row is
    pushed when the counter reaches [columns]. *)
Fixpoint end_rows (columns : nat) (records : list (option nat))
  (ar : list (option nat)) (c : nat) (stats : list (list (option nat)))
  : list (list (option nat)) :=
  match records with
  | [] => stats
  | e :: tl =>
      let ar := ar ++ [e] in
      let c := c + 1 in
      if columns <=? c
      then end_rows columns tl [] 0 (stats ++ [ar])
      else end_rows columns tl ar c stats
  end.

Definition end_stats (columns : nat) (records : list (option nat))
  : list (list (option nat)) :=
  end_rows columns records [] 0 [].

(** [records.filter((e) => e === false).length]. *)
Definition end_losses (records : list (option nat)) : nat :=
  List.length (filter (fun e => match e with None => true | Some _ => false end)
                      records).

(** Number of boards won in [n] guesses. *)
Definition won_in (n : nat) (records : list (option nat)) : nat :=
  List.length (filter (fun e => match e with
                                | Some k => k =? n
                                | None => false
                                end) records).

(** ** [src/utils/messenger.ts]: the signalling socket *)

Module Signalling.

(** The browser's [WebSocket], reduced to its ready state and the envelopes
    it has accepted for transmission, oldest first (the text handed to it is
    the JSON of the envelope).  Its [send] raises while the socket is
    connecting, transmits when it is open, and drops the data without a word
    once it is closing or closed. *)
Inductive SocketState : Type := CONNECTING | OPEN | CLOSING | CLOSED.

Record Envelope : Type := mkEnvelope {
  topic : string;
  message : string;
  id : nat
}.

Record WebSocket : Type := mkSocket {
  readyState : SocketState;
  wire : list Envelope
}.

Definition socket_send (s : WebSocket) (env : Envelope)
  : WebSocket * result unit :=
  match readyState s with
  | CONNECTING => (s, Throw InvalidStateError)
  | OPEN => (mkSocket OPEN (wire s ++ [env]), Ok tt)
  | _ => (s, Ok tt)
  end.

(** [WebSocketMessenger], without its two listener arrays. *)
Record WebSocketMessenger : Type := mkMessenger {
  socket : WebSocket;
  channel : string;
  nextMessageID : nat
}.

(** The constructor: a socket that is connecting and the first id. *)
Definition create (channel : string) : WebSocketMessenger :=
  mkMessenger (mkSocket CONNECTING []) channel 0.

(** [this.socket.send(JSON.stringify({topic, message, id:
    this.nextMessageID++}))]: the id is taken, and the counter moved on,
    before the socket is asked. *)
Definition post (this : WebSocketMessenger) (topic message : string)
  : WebSocketMessenger * result unit :=
  let env := mkEnvelope topic message (nextMessageID this) in
  let '(s, r) := socket_send (socket this) env in
  (mkMessenger s (channel this) (nextMessageID this + 1), r).

(** [send(data)], with [data] already serialised. *)
Definition send (this : WebSocketMessenger) (data : string)
  : WebSocketMessenger * result unit :=
  post this (channel this) data.

(** The socket opens and [onopen] subscribes to the channel. *)
Definition onopen (this : WebSocketMessenger)
  : WebSocketMessenger * result unit :=
  post (mkMessenger (mkSocket OPEN (wire (socket this)))
                    (channel this) (nextMessageID this))
       "_subscribe" (channel this).

(** [close()]. *)
Definition close (this : WebSocketMessenger) : WebSocketMessenger :=
  mkMessenger (mkSocket CLOSED (wire (socket this)))
              (channel this) (nextMessageID this).

(** What happens to a messenger, in order. *)
Inductive Event : Type :=
| opens
| sends (data : string)
| closes.

Definition after (this : WebSocketMessenger) (ev : Event) : WebSocketMessenger :=
  match ev with
  | opens => fst (onopen this)
  | sends data => fst (send this data)
  | closes => close this
  end.

Definition history (channel : string) (evs : list Event) : WebSocketMessenger :=
  fold_left after evs (create channel).

(** On envelopes taken latest first: every id is below the id of the
    envelope sent after it, and the latest is below [below]. *)
Fixpoint ids_grow (below : nat) (envs : list Envelope) : Prop :=
  match envs with
  | [] => True
  | env :: tl => id env < below /\ ids_grow (id env) tl
  end.

(** What holds of a messenger at any time. *)
Definition wire_ok (ch : string) (this : WebSocketMessenger) : Prop :=
  channel this = ch
  /\ ids_grow (nextMessageID this) (rev (wire (socket this)))
  /\ (readyState (socket this) = OPEN -> wire (socket this) <> [])
  /\ (forall env tl, wire (socket this) = env :: tl ->
                     topic env = "_subscribe"%string /\ message env = ch).

End Signalling.

(** ** [src/utils/messenger.ts]: [generateID] *)

Section Random.

(** [Math.floor(Math.random() * n)] at the [i]-th turn of the loop. *)
Variable pick : nat -> nat -> nat.

Definition chars (upper lower number : bool) : string :=
  ((if lower then "abcdefghijklmnopqrstuvwxyz" else "")
   ++ (if upper then "ABCDEFGHIJKLMNOPQRSTUVWXYZ" else "")
   ++ (if number then "0123456789" else ""))%string.

(** The loop [output += chars[...]], from turn [i] with [n] turns to go;
    an index outside the array would append the text of [undefined]. *)
Fixpoint generate (alphabet : string) (i n : nat) (output : string) : string :=
  match n with
  | 0 => output
  | S n' =>
      generate alphabet (S i) n'
        (output ++ match String.get (pick i (String.length alphabet)) alphabet with
                   | Some c => String c EmptyString
                   | None => "undefined"
                   end)%string
  end.

(** [None] stands for the [Error('must have some characters')]. *)
Definition generateID (length : nat) (upper lower number : bool)
  : option string :=
  if negb upper && negb lower && negb number then None
  else Some (generate (chars upper lower number) 0 length EmptyString).

End Random.

(** Every character of [s] is one of [alphabet]. *)
Fixpoint drawn_from (alphabet : string) (s : string) : Prop :=
  match s with
  | EmptyString => True
  | String c tl =>
      In c (list_ascii_of_string alphabet) /\ drawn_from alphabet tl
  end.

(** ** [src/utils/messenger.ts]: the listeners of [MikordleChat] *)

Section Registry.

(** The handlers are opaque. *)
Variable Handler : Type.

(** [Record<string, [string, Function][]>]: per key, the handlers with
    the ids they were registered under, or nothing. *)
Definition Listeners : Type := string -> option (list (string * Handler)).

Definition noListeners : Listeners := fun _ => None.

(** [on(key, handler)], with the id [generateID(20)] gave. *)
Definition register (ls : Listeners) (id key : string) (handler : Handler)
  : Listeners :=
  fun k =>
    if String.eqb k key
    then match ls key with
         | Some l => Some (l ++ [(id, handler)])
         | None => Some [(id, handler)]
         end
    else ls k.

(** The function [on] returns:
    [this.listeners[key] = this.listeners[key].filter((e) => e[0] !== id)]
    (the key is there, as [on] has put it and nothing takes keys away). *)
Definition unregister (ls : Listeners) (id key : string) : Listeners :=
  fun k =>
    if String.eqb k key
    then match ls key with
         | Some l => Some (filter (fun e => negb (String.eqb (fst e) id)) l)
         | None => None
         end
    else ls k.

Definition known_event (event : string) : bool :=
  existsb (String.eqb event)
    ["key-pressed"%string; "key-removed"%string; "enter-pressed"%string;
     "initialise"%string; "request"%string; "close"%string].

(** The handlers the dispatcher calls, in order, for a parsed message with
    the given [event]. *)
Definition dispatch (ls : Listeners) (event : string) : list Handler :=
  if known_event event
  then match ls event with
       | Some l => map snd l
       | None => []
       end
  else [].

End Registry.

(** ** The keyboard: how [deriveKeyState] colours one key for one board *)

Module Keyboard.

Inductive KeyState : Type := keyPOSITION | keyMATCH | keyBLANK | keyINVALID.

(** [e.letter && e.letter.some((f) => f.letter === key && f.state === st)]. *)
Definition marks (st : LetterState) (key : string) (e : WordleRow) : bool :=
  match row_letter e with
  | Some ls =>
      existsb (fun f => String.eqb (letter f) key
                        && LetterState_eqb (state f) st) ls
  | None => false
  end.

(** [array.some((e, i) => ...)], from index [i] on. *)
Fixpoint some_from {A : Type} (f : A -> nat -> bool) (l : list A) (i : nat)
  : bool :=
  match l with
  | [] => false
  | x :: tl => f x i || some_from f tl (S i)
  end.

(** The third test: a row counts when its letters are as many as the
    target's and, on a board that is not complete, it is not the last
    row. *)
Definition ruled_out (key : string) (active : WordleState)
  (e : WordleRow) (i : nat) : bool :=
  match row_letter e with
  | None => false
  | Some ls =>
      if negb (List.length ls =? String.length (target active)) then false
      else if negb (truthy (complete active))
              && match nth_error (rows active) (i + 1) with
                 | None => true
                 | Some _ => false
                 end
           then false
           else existsb (fun f => String.eqb (letter f) key
                                  && LetterState_eqb (state f) INVALID) ls
  end.

(** The chain of tests in the loop over the boards, from the initial
    ['BLANK']. *)
Definition keyStateOf (key : string) (active : WordleState) : KeyState :=
  if existsb (marks MATCH key) (rows active) then keyMATCH
  else if existsb (marks POSITION key) (rows active) then keyPOSITION
  else if some_from (ruled_out key active) (rows active) 0 then keyINVALID
  else keyBLANK.

End Keyboard.

(** ** Arrays and strings *)

#[local] Arguments String.eqb : simpl never.

Lemma splitLast_app (A : Type) (front : list A) (x : A) :
  splitLast (front ++ [x]) = Some (front, x).
Proof.
  induction front as [|y front IH]; simpl.
  - reflexivity.
  - rewrite IH. reflexivity.
Qed.

Lemma splitLast_Some (A : Type) (l front : list A) (x : A) :
  splitLast l = Some (front, x) -> l = front ++ [x].
Proof.
  revert front x.
  induction l as [|y l IH]; simpl; intros front x H.
  - discriminate.
  - destruct (splitLast l) as [[f z]|] eqn:E.
    + inversion H; subst. simpl. f_equal. apply IH. reflexivity.
    + inversion H; subst. destruct l as [|u l]; [reflexivity|].
      simpl in E. destruct (splitLast l) as [[? ?]|]; discriminate.
Qed.

Lemma splitLast_None (A : Type) (l : list A) :
  splitLast l = None -> l = [].
Proof.
  destruct l as [|y l]; simpl; [reflexivity|].
  destruct (splitLast l) as [[? ?]|]; discriminate.
Qed.

Lemma append_empty_r (s : string) : (s ++ "")%string = s.
Proof.
  induction s as [|c s IH]; simpl; [reflexivity | now rewrite IH].
Qed.

Lemma append_assoc (a b c : string) :
  ((a ++ b) ++ c)%string = (a ++ (b ++ c))%string.
Proof.
  induction a as [|x a IH]; simpl; [reflexivity | now rewrite IH].
Qed.

Lemma length_append (a b : string) :
  String.length (a ++ b) = String.length a + String.length b.
Proof.
  induction a as [|x a IH]; simpl; [reflexivity | now rewrite IH].
Qed.

Lemma substring_whole (s : string) :
  String.substring 0 (String.length s) s = s.
Proof.
  induction s as [|c s IH]; simpl; [reflexivity | now rewrite IH].
Qed.

Lemma mask_here (c : ascii) (s : string) :
  mask 0 (String c s) = String "_"%char s.
Proof.
  unfold mask. simpl. rewrite Nat.sub_0_r, substring_whole. reflexivity.
Qed.

Lemma mask_later (i : nat) (c : ascii) (s : string) :
  mask (S i) (String c s) = String c (mask i s).
Proof.
  unfold mask. simpl. reflexivity.
Qed.

Lemma mask_after (pre : string) (c : ascii) (s : string) :
  mask (String.length pre) (pre ++ String c s)
  = (pre ++ String "_"%char s)%string.
Proof.
  induction pre as [|x pre IH]; simpl.
  - apply mask_here.
  - rewrite mask_later, IH. reflexivity.
Qed.

Lemma charAt_after (pre : string) (c : ascii) (s : string) :
  charAt (pre ++ String c s) (String.length pre) = Some (String c EmptyString).
Proof.
  unfold charAt.
  induction pre as [|x pre IH]; simpl; [reflexivity | exact IH].
Qed.

Lemma charAt_beyond (s : string) (i : nat) :
  String.length s <= i -> charAt s i = None.
Proof.
  unfold charAt. revert i.
  induction s as [|c s IH]; simpl; intros i H.
  - reflexivity.
  - destruct i as [|i]; [lia|]. apply IH. lia.
Qed.

Lemma findIndex_charAt (x s : string) (i : nat) :
  findIndex x s = Some i -> charAt s i = Some x.
Proof.
  unfold charAt. revert i.
  induction s as [|c s IH]; simpl; intros i H.
  - discriminate.
  - destruct (String.eqb (String c EmptyString) x) eqn:E.
    + inversion H; subst. apply String.eqb_eq in E. simpl. now rewrite E.
    + destruct (findIndex x s) as [j|]; [|discriminate].
      inversion H; subst. apply IH. reflexivity.
Qed.

(** Masking a position takes one occurrence away from the letter that stood
    there, and from no other letter than the sentinel. *)
Lemma occurrences_mask (x s c : string) (i : nat) :
  x <> sentinel ->
  charAt s i = Some c ->
  occurrences x (mask i s) + (if String.eqb c x then 1 else 0)
  = occurrences x s.
Proof.
  intros Hx. unfold charAt. revert i.
  induction s as [|a s IH]; simpl; intros i H.
  - discriminate.
  - destruct i as [|i].
    + inversion H; subst. rewrite mask_here. simpl.
      replace (String.eqb (String "_"%char EmptyString) x) with false.
      * lia.
      * symmetry. apply String.eqb_neq. intro E. apply Hx. now rewrite <- E.
    + rewrite mask_later. simpl. specialize (IH i H). lia.
Qed.

(** ** The two passes of [enter] *)

Lemma count_state_cons (st : LetterState) (e : Letter) (ls : list Letter) :
  count_state st (e :: ls)
  = (if LetterState_eqb (state e) st then 1 else 0) + count_state st ls.
Proof.
  unfold count_state. simpl.
  destruct (LetterState_eqb (state e) st); reflexivity.
Qed.

Lemma credited_cons (x : string) (e : Letter) (ls : list Letter) :
  credited x (e :: ls)
  = (if String.eqb (letter e) x
        && (LetterState_eqb (state e) MATCH || LetterState_eqb (state e) POSITION)
     then 1 else 0) + credited x ls.
Proof.
  unfold credited. simpl.
  destruct (String.eqb (letter e) x
            && (LetterState_eqb (state e) MATCH
                || LetterState_eqb (state e) POSITION)); reflexivity.
Qed.

Lemma matched_cons (x : string) (e : Letter) (ls : list Letter) :
  matched x (e :: ls)
  = (if String.eqb (letter e) x && LetterState_eqb (state e) MATCH
     then 1 else 0) + matched x ls.
Proof.
  unfold matched. simpl.
  destruct (String.eqb (letter e) x && LetterState_eqb (state e) MATCH);
    reflexivity.
Qed.

Lemma firstPass_beyond (ls : list Letter) (i : nat) (tc : string) :
  String.length tc <= i -> firstPass i ls tc = (ls, tc).
Proof.
  revert i.
  induction ls as [|e ls IH]; simpl; intros i H.
  - reflexivity.
  - unfold charAt_eq. rewrite (charAt_beyond _ _ H).
    rewrite IH by lia. reflexivity.
Qed.

Lemma typed_no_credit (x : string) (G : list string) :
  matched x (typed G) = 0
  /\ credited x (typed G) = 0
  /\ count_state MATCH (typed G) = 0.
Proof.
  induction G as [|g G (IH1 & IH2 & IH3)]; simpl.
  - repeat split; reflexivity.
  - rewrite matched_cons, credited_cons, count_state_cons. simpl.
    rewrite !andb_false_r. repeat split; assumption.
Qed.

(** The first pass on a freshly typed row, started anywhere in the target:
    the positions that agree with the target become [MATCH], and each of them
    uses up one occurrence of its letter in the scratch copy. *)
Lemma firstPass_typed (G : list string) :
  forall (pre T : string),
  exists (out : list Letter) (T' : string),
    firstPass (String.length pre) (typed G) (pre ++ T) = (out, (pre ++ T')%string)
    /\ map letter out = G
    /\ count_state MATCH out = agreeing G T
    /\ (forall x, x <> sentinel ->
                  matched x out + occurrences x T' = occurrences x T)
    /\ (forall x, credited x out = matched x out).
Proof.
  induction G as [|g G IH]; intros pre T.
  - exists [], T. simpl. repeat split; reflexivity.
  - destruct T as [|c T].
    + exists (typed (g :: G)), EmptyString.
      rewrite firstPass_beyond
        by (rewrite length_append; simpl; lia).
      split; [reflexivity|].
      split; [unfold typed; rewrite map_map; simpl; now rewrite map_id|].
      destruct (typed_no_credit g (g :: G)) as (_ & _ & Hc).
      split; [rewrite Hc; reflexivity|].
      split.
      * intros x _. destruct (typed_no_credit x (g :: G)) as (Hm & _ & _).
        rewrite Hm. reflexivity.
      * intros x. destruct (typed_no_credit x (g :: G)) as (Hm & Hk & _).
        now rewrite Hm, Hk.
    + simpl firstPass. unfold charAt_eq. rewrite charAt_after.
      destruct (String.eqb (String c EmptyString) g) eqn:E.
      * rewrite mask_after.
        destruct (IH (pre ++ String "_"%char EmptyString)%string T)
          as (out & T' & Hf & Hl & Hc & Ho & Hm).
        rewrite length_append in Hf. simpl in Hf.
        rewrite Nat.add_1_r in Hf.
        rewrite !append_assoc in Hf. simpl in Hf. rewrite Hf.
        exists (mkLetter g MATCH :: out), (String "_"%char T').
        split; [reflexivity|].
        split; [simpl; now rewrite Hl|].
        split; [rewrite count_state_cons; simpl; now rewrite E, Hc|].
        split.
        -- intros x Hx. rewrite matched_cons. simpl.
           rewrite andb_true_r.
           replace (String.eqb (String "_"%char EmptyString) x) with false
             by (symmetry; apply String.eqb_neq; intro K; apply Hx;
                 now rewrite <- K).
           apply String.eqb_eq in E. subst g.
           specialize (Ho x Hx).
           destruct (String.eqb (String c EmptyString) x); lia.
        -- intros x. rewrite credited_cons, matched_cons. simpl.
           rewrite andb_true_r. now rewrite Hm.
      * destruct (IH (pre ++ String c EmptyString)%string T)
          as (out & T' & Hf & Hl & Hc & Ho & Hm).
        rewrite length_append in Hf. simpl in Hf.
        rewrite Nat.add_1_r in Hf.
        rewrite !append_assoc in Hf. simpl in Hf. rewrite Hf.
        exists (mkLetter g INVALID :: out), (String c T').
        split; [reflexivity|].
        split; [simpl; now rewrite Hl|].
        split; [rewrite count_state_cons; simpl; now rewrite E, Hc|].
        split.
        -- intros x Hx. rewrite matched_cons. simpl.
           rewrite andb_false_r. specialize (Ho x Hx). simpl. lia.
        -- intros x. rewrite credited_cons, matched_cons. simpl.
           rewrite andb_false_r. now rewrite Hm.
Qed.

(** The second pass: no [MATCH] is added or lost, and each [POSITION] uses
    up one occurrence of its letter in what the first pass left. *)
Lemma secondPass_spec (ls : list Letter) :
  forall (tc : string),
  exists (out : list Letter) (tc' : string),
    secondPass ls tc = (out, tc')
    /\ map letter out = map letter ls
    /\ count_state MATCH out = count_state MATCH ls
    /\ (forall x, x <> sentinel ->
                  credited x out + occurrences x tc'
                  = matched x ls + occurrences x tc).
Proof.
  induction ls as [|e ls IH]; intros tc.
  - exists [], tc. simpl. repeat split; reflexivity.
  - simpl secondPass.
    destruct (LetterState_eqb (state e) MATCH) eqn:Em.
    + destruct (IH tc) as (out & tc' & Hf & Hl & Hc & Ho).
      rewrite Hf. exists (e :: out), tc'.
      split; [reflexivity|].
      split; [simpl; now rewrite Hl|].
      split; [rewrite !count_state_cons; now rewrite Hc|].
      intros x Hx. rewrite credited_cons, matched_cons, Em. simpl.
      specialize (Ho x Hx). lia.
    + destruct (findIndex (letter e) tc) as [index|] eqn:Ef.
      * destruct (IH (mask index tc)) as (out & tc' & Hf & Hl & Hc & Ho).
        rewrite Hf. exists (mkLetter (letter e) POSITION :: out), tc'.
        split; [reflexivity|].
        split; [simpl; now rewrite Hl|].
        split; [rewrite !count_state_cons, Em; simpl; now rewrite Hc|].
        intros x Hx. rewrite credited_cons, matched_cons, Em. simpl.
        rewrite andb_true_r, andb_false_r.
        specialize (Ho x Hx).
        pose proof (@occurrences_mask x tc (letter e) index Hx
                      (@findIndex_charAt (letter e) tc index Ef)) as Hk.
        destruct (String.eqb (letter e) x); lia.
      * destruct (IH tc) as (out & tc' & Hf & Hl & Hc & Ho).
        rewrite Hf. exists (mkLetter (letter e) INVALID :: out), tc'.
        split; [reflexivity|].
        split; [simpl; now rewrite Hl|].
        split; [rewrite !count_state_cons, Em; simpl; now rewrite Hc|].
        intros x Hx. rewrite credited_cons, matched_cons, Em. simpl.
        rewrite !andb_false_r. specialize (Ho x Hx). simpl. lia.
Qed.

Lemma credited_absent (x : string) (ls : list Letter) :
  ~ In x (map letter ls) -> credited x ls = 0.
Proof.
  induction ls as [|e ls IH]; simpl; intros H.
  - reflexivity.
  - rewrite credited_cons.
    destruct (String.eqb (letter e) x) eqn:E.
    + apply String.eqb_eq in E. exfalso. apply H. now left.
    + simpl. apply IH. intro K. apply H. now right.
Qed.

(** What the evaluation makes of a freshly typed guess. *)
Lemma evaluate_typed (T : string) (G : list string) :
  map letter (evaluate T (typed G)) = G
  /\ count_state MATCH (evaluate T (typed G)) = agreeing G T
  /\ (forall x, x <> sentinel ->
                credited x (evaluate T (typed G)) <= occurrences x T).
Proof.
  unfold evaluate. rewrite append_empty_r.
  destruct (firstPass_typed G EmptyString T)
    as (out1 & T1 & Hf & Hl1 & Hc1 & Ho1 & _).
  simpl in Hf. rewrite Hf.
  destruct (secondPass_spec out1 T1) as (out2 & T2 & Hs & Hl2 & Hc2 & Ho2).
  rewrite Hs. simpl.
  split; [congruence|].
  split; [congruence|].
  intros x Hx. specialize (Ho1 x Hx). specialize (Ho2 x Hx). lia.
Qed.

(** ** [enter], case by case *)

Lemma ensure_letter_letters (r : WordleRow) :
  ensure_letter r = mkRow (width r) (Some (letters_of r)).
Proof.
  unfold ensure_letter, letters_of.
  destruct r as [n [ls|]]; reflexivity.
Qed.

Lemma ensure_letter_present (r : WordleRow) :
  row_letter r <> None -> ensure_letter r = r.
Proof.
  unfold ensure_letter. destruct r as [n [ls|]]; simpl; congruence.
Qed.

Lemma nth_error_middle (A : Type) (front : list A) (x : A) (back : list A) :
  nth_error (front ++ x :: back) (List.length front) = Some x.
Proof.
  induction front as [|y front IH]; simpl; [reflexivity | exact IH].
Qed.

Lemma length_snoc (A : Type) (front : list A) (x : A) :
  List.length (front ++ [x]) = S (List.length front).
Proof.
  rewrite length_app. simpl. lia.
Qed.

Lemma enter_full (b : WordleState) (w h : nat)
  (front : list WordleRow) (r : WordleRow) :
  rows b = front ++ [r] ->
  List.length (letters_of r) = width r ->
  enter b w h = Ok (committed b w h front r).
Proof.
  intros Hr Hl. unfold enter, committed.
  rewrite Hr, splitLast_app, ensure_letter_letters. simpl.
  rewrite Hl, Nat.eqb_refl. simpl.
  destruct (forallb isMATCH (evaluate (target b) (letters_of r)));
    [reflexivity|].
  destruct (h <=? List.length (front ++ [mkRow (width r) _])); reflexivity.
Qed.

Lemma committed_row (b : WordleState) (w h : nat)
  (front : list WordleRow) (r : WordleRow) :
  nth_error (rows (committed b w h front r)) (List.length front)
  = Some (mkRow (width r) (Some (evaluate (target b) (letters_of r)))).
Proof.
  unfold committed.
  destruct (forallb isMATCH (evaluate (target b) (letters_of r))); simpl;
    [apply nth_error_middle|].
  destruct (h <=? _); simpl; [apply nth_error_middle|].
  rewrite <- app_assoc. simpl. apply nth_error_middle.
Qed.

Lemma enter_short (b : WordleState) (w h : nat)
  (front : list WordleRow) (r : WordleRow) :
  rows b = front ++ [r] ->
  List.length (letters_of r) <> width r ->
  enter b w h = Ok (set_rows b (front ++ [ensure_letter r])).
Proof.
  intros Hr Hl. unfold enter.
  rewrite Hr, splitLast_app, ensure_letter_letters. simpl.
  apply Nat.eqb_neq in Hl. rewrite Hl. reflexivity.
Qed.

(** On a board with rows whose open row is not full, [enter] returns and
    changes nothing (a missing letter list apart, which it makes empty). *)
Lemma enter_short_unchanged (b : WordleState) (w h : nat)
  (front : list WordleRow) (r : WordleRow) :
  rows b = front ++ [r] ->
  row_letter r <> None ->
  List.length (letters_of r) < width r ->
  enter b w h = Ok b.
Proof.
  intros Hr Hp Hl.
  rewrite (@enter_short b w h front r Hr) by lia.
  rewrite (ensure_letter_present r Hp), <- Hr.
  destruct b; reflexivity.
Qed.

Lemma add_complete (b : WordleState) (w h : nat) (l : string) :
  complete b <> Incomplete -> add b w h l = Ok b.
Proof.
  unfold add. destruct (complete b); simpl; congruence.
Qed.

Lemma remove_complete (b : WordleState) :
  complete b <> Incomplete -> remove b = Ok b.
Proof.
  unfold remove. destruct (complete b); simpl; congruence.
Qed.

Lemma add_never_throws (b : WordleState) (w h : nat) (l : string) :
  exists b', add b w h l = Ok b'.
Proof.
  destruct b as [rs c t]. unfold add. simpl.
  destruct (truthy c); [eauto|].
  destruct rs as [|r0 rs]; simpl.
  - destruct (w <=? 0); eauto.
  - destruct (splitLast rs) as [[front r]|]; simpl;
      rewrite ensure_letter_letters; simpl;
      match goal with |- context [if ?c then _ else _] => destruct c end;
      eauto.
Qed.

Lemma remove_never_throws (b : WordleState) :
  exists b', remove b = Ok b'.
Proof.
  destruct b as [rs c t]. unfold remove. simpl.
  destruct (truthy c); [eauto|].
  destruct rs as [|r0 rs]; simpl.
  - eauto.
  - destruct (splitLast rs) as [[front r]|]; simpl;
      rewrite ensure_letter_letters; simpl;
      match goal with |- context [if ?c then _ else _] => destruct c end;
      eauto.
Qed.

(** Typing a guess into an open row with room for it leaves the letters of
    [typed]. *)
Lemma addAll_open_row (G : list string) :
  forall (front : list WordleRow) (n : nat) (ls : list Letter)
         (T : string) (w h : nat),
    List.length ls + List.length G <= n ->
    addAll (mkState (front ++ [mkRow n (Some ls)]) Incomplete T) w h G
    = Ok (mkState (front ++ [mkRow n (Some (ls ++ typed G))]) Incomplete T).
Proof.
  induction G as [|g G IH]; intros front n ls T w h Hn; simpl.
  - rewrite app_nil_r. reflexivity.
  - simpl in Hn. unfold add. simpl.
    replace (List.length (front ++ [mkRow n (Some ls)]) =? 0) with false
      by (symmetry; apply Nat.eqb_neq; rewrite length_snoc; lia).
    simpl. rewrite splitLast_app. simpl.
    replace (n <=? List.length ls) with false
      by (symmetry; apply Nat.leb_gt; lia).
    simpl. unfold set_rows. simpl.
    rewrite IH by (rewrite length_app; simpl; lia).
    rewrite <- app_assoc. reflexivity.
Qed.

Lemma addAll_first_row (G : list string) (T : string) (w h : nat) :
  G <> [] ->
  List.length G <= w ->
  addAll (mkState [] Incomplete T) w h G
  = Ok (mkState [mkRow w (Some (typed G))] Incomplete T).
Proof.
  intros Hne Hw. destruct G as [|g G]; [congruence|].
  simpl in *. unfold add. simpl.
  replace (w <=? 0) with false by (symmetry; apply Nat.leb_gt; lia).
  simpl. unfold set_rows. simpl.
  apply (addAll_open_row G [] w [mkLetter g INVALID] T w h).
  simpl. lia.
Qed.

(** ** The evaluation of a committed guess *)

(** C1, as amended.  A board that is not complete, with target [T], has the
    guess [G] typed in its open row, which is full.  [enter] returns; in the
    row it committed, the number of positions marked [MATCH] is the number of
    positions where guess and target agree, and for every letter [x] other
    than the sentinel ["_"] (and for the sentinel too when no position of the
    guess holds it) the positions holding [x] that are marked [MATCH] or
    [POSITION] are at most as many as the occurrences of [x] in [T]. *)
Theorem enter_counts (T : string) (G : list string)
  (front : list WordleRow) (w h : nat) :
  exists (b' : WordleState) (ls' : list Letter),
    enter (mkState (front ++ [mkRow (List.length G) (Some (typed G))])
                   Incomplete T) w h = Ok b'
    /\ nth_error (rows b') (List.length front)
       = Some (mkRow (List.length G) (Some ls'))
    /\ map letter ls' = G
    /\ count_state MATCH ls' = agreeing G T
    /\ (forall x, x <> sentinel \/ ~ In sentinel G ->
                  credited x ls' <= occurrences x T).
Proof.
  set (r := mkRow (List.length G) (Some (typed G))).
  set (b := mkState (front ++ [r]) Incomplete T).
  assert (Hfull : List.length (letters_of r) = width r).
  { unfold r, typed. simpl. apply length_map. }
  exists (committed b w h front r), (evaluate T (typed G)).
  split; [apply enter_full; [reflexivity | exact Hfull]|].
  destruct (evaluate_typed T G) as (Hl & Hc & Ho).
  split.
  - apply (committed_row b w h front r).
  - split; [exact Hl|]. split; [exact Hc|].
    intros x [Hx|Hx].
    + apply Ho, Hx.
    + destruct (string_dec x sentinel) as [E|E]; [|apply Ho, E].
      subst x. rewrite credited_absent; [lia|]. now rewrite Hl.
Qed.

Lemma enter_counts_witness :
  exists (b' : WordleState) (ls' : list Letter),
    enter (mkState [mkRow 5 (Some (typed (split_chars "LLAMA")))]
                   Incomplete "ALLOW") 5 6 = Ok b'
    /\ nth_error (rows b') 0 = Some (mkRow 5 (Some ls'))
    /\ credited "L" ls' <= occurrences "L" "ALLOW".
Proof.
  destruct (enter_counts "ALLOW" (split_chars "LLAMA") [] 5 6)
    as (b' & ls' & He & Hn & _ & _ & Ho).
  exists b', ls'. split; [exact He|]. split; [exact Hn|].
  apply Ho. left. discriminate.
Defined.

(** C1 as stated fails when the guess holds the sentinel: with target "AB"
    and guess "A_", the first position is a [MATCH], which puts a sentinel
    in the scratch copy, and the second position finds it there and is
    marked [POSITION], although "AB" holds no "_". *)
Lemma enter_credits_sentinel :
  exists (b' : WordleState) (ls' : list Letter),
    enter (mkState [mkRow 2 (Some (typed (split_chars "A_")))] Incomplete "AB")
          2 6 = Ok b'
    /\ nth_error (rows b') 0 = Some (mkRow 2 (Some ls'))
    /\ ls' = [mkLetter "A" MATCH; mkLetter "_" POSITION]
    /\ List.length (split_chars "A_") = String.length "AB"
    /\ ~ credited "_" ls' <= occurrences "_" "AB".
Proof.
  eexists. eexists. split; [reflexivity|]. split; [reflexivity|].
  split; [reflexivity|]. split; [reflexivity|].
  vm_compute. lia.
Qed.

(** C2, as amended: with target "CRANE" and the guess "TRACE" in the open
    row of a board that is not complete, [enter] marks the five positions
    [INVALID], [MATCH], [MATCH], [POSITION], [MATCH], whatever rows came
    before and whatever the guess count. *)
Theorem enter_CRANE_TRACE (front : list WordleRow) (w h : nat) :
  exists b' : WordleState,
    enter (mkState (front ++ [mkRow 5 (Some (typed (split_chars "TRACE")))])
                   Incomplete "CRANE") w h = Ok b'
    /\ nth_error (rows b') (List.length front)
       = Some (mkRow 5 (Some [mkLetter "T" INVALID; mkLetter "R" MATCH;
                              mkLetter "A" MATCH; mkLetter "C" POSITION;
                              mkLetter "E" MATCH])).
Proof.
  set (r := mkRow 5 (Some (typed (split_chars "TRACE")))).
  exists (committed (mkState (front ++ [r]) Incomplete "CRANE") w h front r).
  split; [apply enter_full; reflexivity|].
  apply (committed_row (mkState (front ++ [r]) Incomplete "CRANE") w h front r).
Qed.

(** C2 as stated fails: the third letter of "TRACE" is the third letter of
    "CRANE", so the third position is a [MATCH], not a [POSITION]. *)
Lemma third_letter_of_TRACE_is_a_match :
  exists (b' : WordleState) (ls' : list Letter),
    enter (mkState [mkRow 5 (Some (typed (split_chars "TRACE")))]
                   Incomplete "CRANE") 5 6 = Ok b'
    /\ nth_error (rows b') 0 = Some (mkRow 5 (Some ls'))
    /\ map state ls' = [INVALID; MATCH; MATCH; POSITION; MATCH]
    /\ map state ls' <> [INVALID; MATCH; POSITION; POSITION; MATCH].
Proof.
  eexists. eexists. split; [reflexivity|]. split; [reflexivity|].
  split; [reflexivity | discriminate].
Qed.

(** ** Completed boards *)

(** C3.  [add] and [remove] return at once on a completed board; [enter] has
    no such test.  On the lost board below (one committed row) with the guess
    count 2 it evaluates the last row again, and as that row is not the
    second one it appends an open row to the finished board. *)
Theorem enter_changes_completed_board :
  let b := mkState [mkRow 2 (Some [mkLetter "C" INVALID; mkLetter "D" INVALID])]
                   FAIL "AB" in
  add b 2 2 "X" = Ok b
  /\ remove b = Ok b
  /\ enter b 2 2
     = Ok (mkState [mkRow 2 (Some [mkLetter "C" INVALID; mkLetter "D" INVALID]);
                    mkRow 2 (Some [])] FAIL "AB")
  /\ enter b 2 2 <> Ok b.
Proof.
  repeat split; try reflexivity. discriminate.
Qed.

(** The controller keeps [enter] away from completed boards: they come out
    of [onEnter] as they went in. *)
Lemma mapM_Forall2 (A B : Type) (f : A -> result B) (l : list A) (l' : list B) :
  mapM f l = Ok l' -> Forall2 (fun x y => f x = Ok y) l l'.
Proof.
  revert l'. induction l as [|x l IH]; simpl; intros l' H.
  - inversion H. constructor.
  - destruct (f x) as [y|e] eqn:Ey; simpl in H; [|discriminate].
    destruct (mapM f l) as [ys|e] eqn:Eys; simpl in H; [|discriminate].
    inversion H; subst. constructor; [exact Ey | apply IH; reflexivity].
Qed.

Lemma onEnter_skips_completed (g g' : GameState) (validWords : list string) :
  onEnter g validWords = Ok (Game g') ->
  Forall2 (fun b b' => complete b <> Incomplete -> b' = b)
          (states g) (states g').
Proof.
  unfold onEnter.
  destruct (negb (String.length (activeGuess g) =? letterCount g)).
  { intros H. inversion H; subst.
    induction (states g'); constructor; auto. }
  destruct (negb (includes validWords (activeGuess g))).
  { intros H. inversion H; subst.
    induction (states g'); constructor; auto. }
  destruct (mapM _ (states g)) as [states'|e] eqn:Em; simpl; [|discriminate].
  destruct (forallb _ states'); intros H; inversion H; subst; simpl.
  apply mapM_Forall2 in Em. clear H.
  induction Em as [|b b' bs bs' Hb _ IH]; [constructor|].
  constructor; [|exact IH].
  intros Hc. destruct (complete b); simpl in Hb; congruence.
Qed.

(** C4.  On a board that is not complete and whose open row is full, [enter]
    returns and commits the row.  If every position of the committed row is
    marked [MATCH] the board is a [SUCCESS], however many guesses remain;
    otherwise, if the rows are at least as many as the guess count, the board
    is a [FAIL]; otherwise it stays incomplete and has one more row, empty,
    of the width passed. *)
Theorem enter_outcome (b : WordleState) (w h : nat)
  (front : list WordleRow) (r : WordleRow) :
  complete b = Incomplete ->
  rows b = front ++ [r] ->
  List.length (letters_of r) = width r ->
  exists (b' : WordleState) (ls' : list Letter),
    enter b w h = Ok b'
    /\ target b' = target b
    /\ nth_error (rows b') (List.length front) = Some (mkRow (width r) (Some ls'))
    /\ map letter ls' = map letter (letters_of r)
    /\ (forallb isMATCH ls' = true ->
        complete b' = SUCCESS /\ rows b' = front ++ [mkRow (width r) (Some ls')])
    /\ (forallb isMATCH ls' = false -> h <= List.length (rows b) ->
        complete b' = FAIL /\ rows b' = front ++ [mkRow (width r) (Some ls')])
    /\ (forallb isMATCH ls' = false -> List.length (rows b) < h ->
        complete b' = Incomplete
        /\ rows b' = front ++ [mkRow (width r) (Some ls'); mkRow w (Some [])]).
Proof.
  intros Hc Hr Hl.
  exists (committed b w h front r), (evaluate (target b) (letters_of r)).
  split; [apply enter_full; assumption|].
  split; [unfold committed; repeat destruct (_ : bool); reflexivity|].
  split; [apply committed_row|].
  split.
  { unfold evaluate.
    destruct (firstPass 0 (letters_of r) (target b ++ "")) as [ls1 tc1] eqn:E1.
    destruct (secondPass_spec ls1 tc1) as (out & tc' & Hs & Hm & _).
    rewrite Hs. simpl. rewrite Hm. clear - E1.
    revert E1. generalize 0 (target b ++ "")%string. revert ls1.
    induction (letters_of r) as [|e ls IH]; simpl; intros ls1 i tc E.
    - inversion E. reflexivity.
    - destruct (charAt_eq tc i (letter e)).
      + destruct (firstPass (S i) ls (mask i tc)) as [tl' tc2] eqn:E2.
        inversion E; subst. simpl. f_equal. eapply IH, E2.
      + destruct (firstPass (S i) ls tc) as [tl' tc2] eqn:E2.
        inversion E; subst. simpl. f_equal. eapply IH, E2. }
  assert (Hlen : List.length (front ++ [mkRow (width r)
                   (Some (evaluate (target b) (letters_of r)))])
                 = List.length (rows b)).
  { rewrite Hr, !length_snoc. reflexivity. }
  unfold committed. rewrite Hlen.
  split; [intros E; rewrite E; split; reflexivity|].
  split.
  - intros E Hh. rewrite E.
    apply Nat.leb_le in Hh. rewrite Hh. split; reflexivity.
  - intros E Hh. rewrite E.
    apply Nat.leb_gt in Hh. rewrite Hh. simpl.
    rewrite <- app_assoc. split; [exact Hc | reflexivity].
Qed.

Lemma enter_outcome_witness :
  exists (b' : WordleState),
    enter (mkState [mkRow 5 (Some (typed (split_chars "CRANE")))]
                   Incomplete "CRANE") 5 6 = Ok b'
    /\ complete b' = SUCCESS.
Proof.
  destruct (enter_outcome
              (mkState [mkRow 5 (Some (typed (split_chars "CRANE")))]
                       Incomplete "CRANE") 5 6 []
              (mkRow 5 (Some (typed (split_chars "CRANE"))))
              eq_refl eq_refl eq_refl)
    as (b' & ls' & He & _ & Hn & _ & Hs & _).
  exists b'. split; [exact He|].
  apply Hs.
  vm_compute in He. inversion He; subst b'.
  simpl in Hn. inversion Hn; subst ls'. reflexivity.
Defined.

(** ** Boards without rows and rows that are not full *)

(** C5.  [enter] reads the last row before any test: on a board without rows
    there is none, and the call raises a [TypeError] instead of returning
    with the board unchanged. *)
Theorem enter_throws_without_rows (c : Completion) (T : string) (w h : nat) :
  enter (mkState [] c T) w h = Throw TypeError
  /\ (exists b', add (mkState [] Incomplete T) w h "A" = Ok b')
  /\ remove (mkState [] Incomplete T) = Ok (mkState [] Incomplete T).
Proof.
  split; [reflexivity|]. split; [apply add_never_throws | reflexivity].
Qed.

(** The controller reaches the case when a state comes from elsewhere than
    its own operations (a snapshot received with [initialise], say): a full
    active guess over a board without rows. *)
Lemma onEnter_throws_on_board_without_rows :
  onEnter (mkGame 5 6 "CRANE" 1 [mkState [] Incomplete "CRANE"])
          ["CRANE"%string]
  = Throw TypeError.
Proof.
  reflexivity.
Qed.

(** C6, as amended.  On a board that is not complete, has rows, and whose
    open row holds fewer letters than its width, [add] followed by [remove]
    restores the rows: the board is the one before, except that an open row
    without letter list comes back with the empty list. *)
Theorem add_remove_round_trip (b : WordleState) (w h : nat) (l : string)
  (front : list WordleRow) (r : WordleRow) :
  complete b = Incomplete ->
  rows b = front ++ [r] ->
  List.length (letters_of r) < width r ->
  exists b1 b2 : WordleState,
    add b w h l = Ok b1
    /\ remove b1 = Ok b2
    /\ rows b2 = front ++ [ensure_letter r]
    /\ (row_letter r <> None -> b2 = b).
Proof.
  intros Hc Hr Hl.
  destruct b as [rs c t]. simpl in *. subst rs c.
  unfold add. simpl.
  assert (Hne : (List.length (front ++ [r]) =? 0) = false).
  { apply Nat.eqb_neq. rewrite length_snoc. lia. }
  rewrite Hne. simpl. rewrite splitLast_app, ensure_letter_letters. simpl.
  replace (width r <=? List.length (letters_of r)) with false
    by (symmetry; apply Nat.leb_gt; exact Hl).
  eexists. eexists. split; [reflexivity|].
  unfold remove. simpl.
  assert (Hne' : forall x, (List.length (front ++ [x : WordleRow]) =? 0) = false).
  { intro x. apply Nat.eqb_neq. rewrite length_snoc. lia. }
  rewrite Hne'. simpl. rewrite splitLast_app. simpl.
  rewrite length_app. simpl.
  replace (List.length (letters_of r) + 1 <=? 0) with false
    by (symmetry; apply Nat.leb_gt; lia).
  rewrite removelast_last, <- ensure_letter_letters.
  split; [reflexivity|].
  split; [reflexivity|].
  intros Hp. rewrite (ensure_letter_present r Hp). reflexivity.
Qed.

Lemma add_remove_round_trip_witness :
  exists b1 b2 : WordleState,
    add (mkState [mkRow 5 (Some (typed (split_chars "CR")))] Incomplete "CRANE")
        5 6 "A" = Ok b1
    /\ remove b1 = Ok b2
    /\ b2 = mkState [mkRow 5 (Some (typed (split_chars "CR")))] Incomplete "CRANE".
Proof.
  destruct (add_remove_round_trip
              (mkState [mkRow 5 (Some (typed (split_chars "CR")))]
                       Incomplete "CRANE") 5 6 "A" []
              (mkRow 5 (Some (typed (split_chars "CR")))) eq_refl eq_refl)
    as (b1 & b2 & Ha & Hr & _ & Hb).
  - simpl. lia.
  - exists b1, b2. split; [exact Ha|]. split; [exact Hr|].
    apply Hb. discriminate.
Defined.

(** C6 as stated fails on a board without rows, where [add] makes a row that
    [remove] empties and leaves, and on a board whose open row is full, where
    [add] adds nothing and [remove] takes the last letter away. *)
Lemma add_remove_not_round_trip :
  (exists b1 b2 : WordleState,
      add (mkState [] Incomplete "CRANE") 5 6 "A" = Ok b1
      /\ remove b1 = Ok b2
      /\ rows b2 = [mkRow 5 (Some [])]
      /\ rows b2 <> rows (mkState [] Incomplete "CRANE"))
  /\ (exists b1 b2 : WordleState,
         add (mkState [mkRow 2 (Some (typed (split_chars "AB")))]
                      Incomplete "CD") 2 6 "X" = Ok b1
         /\ remove b1 = Ok b2
         /\ rows b2 = [mkRow 2 (Some (typed (split_chars "A")))]
         /\ rows b2 <> [mkRow 2 (Some (typed (split_chars "AB")))]).
Proof.
  split.
  - eexists. eexists. split; [reflexivity|]. split; [reflexivity|].
    split; [reflexivity | discriminate].
  - eexists. eexists. split; [reflexivity|]. split; [reflexivity|].
    split; [reflexivity | discriminate].
Qed.

(** ** The guard of [onEnter] *)

Lemma includes_In (validWords : list string) (x : string) :
  includes validWords x = true <-> In x validWords.
Proof.
  unfold includes. rewrite existsb_exists. split.
  - intros (y & Hy & E). apply String.eqb_eq in E. now subst.
  - intros H. exists x. split; [exact H | apply String.eqb_refl].
Qed.

(** [onEnter] returns the state it was given unless the active guess has
    [letterCount] letters and is one of the valid words; so whenever it does
    anything else (boards evaluated, guess cleared, a [WinState], an
    exception) the guess is a valid word of that length. *)
Lemma onEnter_guard (s : GameState) (validWords : list string) :
  (~ (String.length (activeGuess s) = letterCount s
      /\ In (activeGuess s) validWords) ->
   onEnter s validWords = Ok (Game s))
  /\ (onEnter s validWords <> Ok (Game s) ->
      String.length (activeGuess s) = letterCount s
      /\ In (activeGuess s) validWords).
Proof.
  assert (Hguard :
    String.length (activeGuess s) <> letterCount s
    \/ includes validWords (activeGuess s) = false ->
    onEnter s validWords = Ok (Game s)).
  { unfold onEnter. intros [H|H].
    - apply Nat.eqb_neq in H. rewrite H. reflexivity.
    - destruct (String.length (activeGuess s) =? letterCount s);
        [rewrite H|]; reflexivity. }
  split.
  - intros H. apply Hguard.
    destruct (Nat.eq_dec (String.length (activeGuess s)) (letterCount s))
      as [El|El]; [right | now left].
    destruct (includes validWords (activeGuess s)) eqn:Ei; [|reflexivity].
    exfalso. apply H. split; [exact El | now apply includes_In].
  - intros H.
    destruct (Nat.eq_dec (String.length (activeGuess s)) (letterCount s))
      as [El|El]; [|exfalso; apply H, Hguard; now left].
    destruct (includes validWords (activeGuess s)) eqn:Ei;
      [|exfalso; apply H, Hguard; now right].
    split; [exact El | now apply includes_In].
Qed.

(** ** [WebRTCCommunicator.send] *)

(** C9.  [send] raises the "not open" error exactly when the ready flag is
    unset or no data channel is there; the communicator is then as it was
    before the call, so nothing was handed to a channel, kept or retried. *)
Theorem send_not_open (this : Messenger.WebRTCCommunicator) (value : string) :
  (snd (Messenger.send this value) = Throw NotOpen
   <-> (Messenger.isReady this = false \/ Messenger.dataChannel this = None))
  /\ (snd (Messenger.send this value) = Throw NotOpen ->
      fst (Messenger.send this value) = this).
Proof.
  destruct this as [ready [ch|] id]; destruct ready; simpl.
  - unfold Messenger.channel_send.
    destruct ch as [[| | |] data]; simpl;
      (split; [split; [discriminate | intros [H|H]; discriminate]
              | discriminate]).
  - split; [split; [now left | reflexivity] | reflexivity].
  - split; [split; [now right | reflexivity] | reflexivity].
  - split; [split; [now left | reflexivity] | reflexivity].
Qed.

Lemma send_not_open_witness :
  fst (Messenger.send
         (Messenger.mkCommunicator true None "AB12C") "hello")
  = Messenger.mkCommunicator true None "AB12C".
Proof.
  apply (proj2 (send_not_open _ _)). reflexivity.
Defined.

(** When the channel is there and open, the value is handed to it. *)
Lemma send_open (ready_data : list string) (id value : string) :
  Messenger.send
    (Messenger.mkCommunicator true
       (Some (Messenger.mkChannel Messenger.open ready_data)) id) value
  = (Messenger.mkCommunicator true
       (Some (Messenger.mkChannel Messenger.open (ready_data ++ [value]))) id,
     Ok tt).
Proof.
  reflexivity.
Qed.

(** ** Replication from [onKey] *)

Section Replication.

Variable toUpperCase : string -> string.
Variable stringify : Messenger.Payload -> string.

Lemma silent_ret (A : Type) (a : A) : silent (ret a).
Proof. intros this. split; reflexivity. Qed.

Lemma silent_lift (A : Type) (r : result A) : silent (lift r).
Proof. intros this. split; reflexivity. Qed.

Lemma silent_andThen (A B : Type) (m : Effect A) (k : A -> Effect B) :
  silent m -> (forall a, silent (k a)) -> silent (andThen m k).
Proof.
  intros Hm Hk this. unfold andThen.
  destruct (Hm this) as [Hs Hc].
  destruct (m this) as [[this1 sent1] [a|e]]; simpl in *.
  - destruct (Hk a this1) as [Hs' Hc'].
    destruct (k a this1) as [[this2 sent2] r']; simpl in *.
    subst. split; [reflexivity | congruence].
  - split; assumption.
Qed.

Lemma silent_setState (updater : State -> Effect State) :
  (forall s, silent (updater s)) -> silent (setState updater).
Proof.
  intros Hu this. unfold setState.
  destruct (Hu (current this) this) as [Hs Hc].
  destruct (updater (current this) this) as [[this1 sent1] [s'|e]];
    simpl in *; split; assumption.
Qed.

Lemma silent_callOnEnter (g : GameState) : silent (callOnEnter g).
Proof.
  intros this. unfold callOnEnter.
  destruct (onEnter g (validWords this)); split; reflexivity.
Qed.

Lemma silent_end : silent end_.
Proof.
  intros this. unfold end_. destruct (current this); split; reflexivity.
Qed.

Lemma silent_replicate_synthetic (p : Messenger.Payload) :
  silent (replicate stringify true p).
Proof.
  intros this. unfold replicate.
  destruct (communicator this) eqn:E; simpl; split; congruence.
Qed.

Lemma onKey_synthetic_silent (e : option KeyEvent) :
  silent (onKey toUpperCase stringify e true).
Proof.
  unfold onKey. destruct e as [e|]; [|apply silent_ret].
  destruct (negb (isLetterCode (keyCode e)) && negb (keyCode e =? 8)%Z
            && negb (keyCode e =? 13)%Z); [apply silent_ret|].
  apply silent_andThen.
  { destruct (isLetterCode (keyCode e)); [|apply silent_ret].
    apply silent_setState. intros [g|w]; [|apply silent_ret].
    apply silent_andThen; [apply silent_replicate_synthetic|].
    intros _. apply silent_andThen; [apply silent_lift|].
    intros g'. apply silent_ret. }
  intros _. apply silent_andThen.
  { destruct (keyCode e =? 8)%Z; [|apply silent_ret].
    apply silent_setState. intros [g|w]; [|apply silent_ret].
    apply silent_andThen; [apply silent_replicate_synthetic|].
    intros _. apply silent_andThen; [apply silent_lift|].
    intros g'. apply silent_ret. }
  intros _. destruct (keyCode e =? 13)%Z; [|apply silent_ret].
  apply silent_setState. intros [g|w]; [|apply silent_ret].
  apply silent_andThen; [apply silent_replicate_synthetic|].
  intros _. apply silent_andThen; [apply silent_callOnEnter|].
  intros res. apply silent_andThen; [|intros _; apply silent_ret].
  destruct res as [g'|w']; [apply silent_ret|].
  intros this. destruct (negb (continuing this));
    [apply silent_end | apply silent_ret].
Qed.

Lemma onKey_local_sent (this : Mikordle) (e : KeyEvent)
  (chat : Messenger.MikordleChat) (g : GameState) :
  communicator this = Some chat ->
  current this = Game g ->
  snd (fst (onKey toUpperCase stringify (Some e) false this))
  = match payload_of toUpperCase e with
    | Some p => [p]
    | None => []
    end.
Proof.
  intros Hc Hg. unfold payload_of, onKey.
  destruct (isLetterCode (keyCode e)) eqn:El.
  - assert (E8 : (keyCode e =? 8)%Z = false).
    { unfold isLetterCode in El. apply andb_prop in El. destruct El as [L _].
      apply Z.leb_le in L. apply Z.eqb_neq. lia. }
    assert (E13 : (keyCode e =? 13)%Z = false).
    { unfold isLetterCode in El. apply andb_prop in El. destruct El as [L _].
      apply Z.leb_le in L. apply Z.eqb_neq. lia. }
    rewrite E8, E13. simpl.
    unfold andThen, setState, replicate, lift, ret. rewrite Hg, Hc. simpl.
    destruct (Messenger.emit stringify chat _) as [chat' [[]|err]]; simpl;
      [|reflexivity].
    destruct (addLetter g (toUpperCase (key e))); reflexivity.
  - simpl. destruct (keyCode e =? 8)%Z eqn:E8.
    + assert (E13 : (keyCode e =? 13)%Z = false).
      { apply Z.eqb_eq in E8. apply Z.eqb_neq. lia. }
      rewrite E13. simpl.
      unfold andThen, setState, replicate, lift, ret. rewrite Hg, Hc. simpl.
      destruct (Messenger.emit stringify chat _) as [chat' [[]|err]]; simpl;
        [|reflexivity].
      destruct (removeLetter g); reflexivity.
    + simpl. destruct (keyCode e =? 13)%Z eqn:E13; [|reflexivity].
      simpl.
      unfold andThen, setState, replicate, callOnEnter, lift, ret.
      rewrite Hg, Hc. simpl.
      destruct (Messenger.emit stringify chat _) as [chat' [[]|err]]; simpl;
        [|reflexivity].
      destruct (onEnter g (validWords this)) as [[g'|w']|err]; simpl;
        try reflexivity.
      destruct (negb (continuing this)); [|reflexivity].
      unfold end_. simpl. rewrite Hg. reflexivity.
Qed.

End Replication.

(** C8.  A key that [onKey] processes with the synthetic tag set hands no
    payload to the communicator and leaves it untouched.  A local key, while
    a communicator is attached and the state is a [GameState], hands it
    exactly one payload: [key-pressed] with the upper-cased key for a letter,
    [key-removed] for backspace, [enter-pressed] for enter. *)
Theorem onKey_replication (toUpperCase : string -> string)
  (stringify : Messenger.Payload -> string) (this : Mikordle) :
  (forall e : option KeyEvent,
      snd (fst (onKey toUpperCase stringify e true this)) = []
      /\ communicator (fst (fst (onKey toUpperCase stringify e true this)))
         = communicator this)
  /\ (forall (e : KeyEvent) (chat : Messenger.MikordleChat) (g : GameState),
         communicator this = Some chat ->
         current this = Game g ->
         (isLetterCode (keyCode e) = true ->
          snd (fst (onKey toUpperCase stringify (Some e) false this))
          = [Messenger.key_pressed (toUpperCase (key e))])
         /\ (keyCode e = 8%Z ->
             snd (fst (onKey toUpperCase stringify (Some e) false this))
             = [Messenger.key_removed])
         /\ (keyCode e = 13%Z ->
             snd (fst (onKey toUpperCase stringify (Some e) false this))
             = [Messenger.enter_pressed])).
Proof.
  split.
  - intros e. apply onKey_synthetic_silent.
  - intros e chat g Hc Hg.
    rewrite (onKey_local_sent toUpperCase stringify this e chat g Hc Hg).
    unfold payload_of.
    split; [intros El; rewrite El; reflexivity|].
    split; intros E; rewrite E; reflexivity.
Qed.

(** ** The controller's invariant *)

Lemma mapM_Forall (A B : Type) (f : A -> result B) (P : A -> Prop)
  (Q : B -> Prop) (l : list A) (l' : list B) :
  (forall x y, P x -> f x = Ok y -> Q y) ->
  Forall P l -> mapM f l = Ok l' -> Forall Q l'.
Proof.
  intros Hf. revert l'.
  induction l as [|x l IH]; simpl; intros l' HP H.
  - inversion H. constructor.
  - inversion HP as [|? ? Hx Hl]; subst.
    destruct (f x) as [y|e] eqn:Ey; simpl in H; [|discriminate].
    destruct (mapM f l) as [ys|e] eqn:Eys; simpl in H; [|discriminate].
    inversion H; subst. constructor.
    + eapply Hf; eassumption.
    + apply IH; [assumption | reflexivity].
Qed.

Lemma rows_cases (A : Type) (l : list A) :
  l = [] \/ exists front x, l = front ++ [x].
Proof.
  destruct (splitLast l) as [[front x]|] eqn:E.
  - right. exists front, x. now apply splitLast_Some.
  - left. now apply splitLast_None.
Qed.

Lemma length_substring_prefix (k : nat) (s : string) :
  k <= String.length s -> String.length (String.substring 0 k s) = k.
Proof.
  revert k. induction s as [|c s IH]; intros k H.
  - destruct k; simpl in *; [reflexivity | lia].
  - destruct k as [|k]; simpl in *; [reflexivity|].
    rewrite IH; [reflexivity | lia].
Qed.

Lemma add_keeps_inv (n lc h : nat) (l : string) (b b' : WordleState) :
  n < lc ->
  board_inv n lc b ->
  (if truthy (complete b) then Ok b else add b lc h l) = Ok b' ->
  board_inv (S n) lc b'.
Proof.
  intros Hn Hb H.
  destruct (complete b) eqn:Ec; simpl in H;
    try (inversion H; subst b'; intros K; congruence).
  specialize (Hb Ec).
  destruct b as [rs c t]. simpl in *. subst c.
  unfold add in H. simpl in H.
  destruct (rows_cases _ rs) as [E|(front & r & E)]; subst rs.
  - simpl in Hb. subst n. simpl in H.
    replace (lc <=? 0) with false in H by (symmetry; apply Nat.leb_gt; lia).
    inversion H; subst b'. intros _. simpl. split; reflexivity.
  - rewrite splitLast_app in Hb. destruct Hb as [Hw Hl].
    replace (List.length (front ++ [r]) =? 0) with false in H
      by (symmetry; apply Nat.eqb_neq; rewrite length_snoc; lia).
    simpl in H. rewrite splitLast_app, ensure_letter_letters in H.
    simpl in H.
    replace (width r <=? List.length (letters_of r)) with false in H
      by (symmetry; apply Nat.leb_gt; lia).
    inversion H; subst b'. intros _. simpl. rewrite splitLast_app.
    simpl. split; [exact Hw|]. unfold letters_of. simpl.
    rewrite length_app. simpl. unfold letters_of in Hl. lia.
Qed.

Lemma remove_keeps_inv (n lc : nat) (b b' : WordleState) :
  board_inv (S n) lc b ->
  (if truthy (complete b) then Ok b else remove b) = Ok b' ->
  board_inv n lc b'.
Proof.
  intros Hb H.
  destruct (complete b) eqn:Ec; simpl in H;
    try (inversion H; subst b'; intros K; congruence).
  specialize (Hb Ec).
  destruct b as [rs c t]. simpl in *. subst c.
  unfold remove in H. simpl in H.
  destruct (rows_cases _ rs) as [E|(front & r & E)]; subst rs.
  - simpl in Hb. discriminate.
  - rewrite splitLast_app in Hb. destruct Hb as [Hw Hl].
    replace (List.length (front ++ [r]) =? 0) with false in H
      by (symmetry; apply Nat.eqb_neq; rewrite length_snoc; lia).
    rewrite splitLast_app, ensure_letter_letters in H. simpl in H.
    replace (List.length (letters_of r) <=? 0) with false in H
      by (symmetry; apply Nat.leb_gt; lia).
    inversion H; subst b'. intros _. simpl. rewrite splitLast_app.
    simpl. split; [exact Hw|]. unfold letters_of at 1. simpl.
    destruct (letters_of r) as [|e ls] eqn:El using rev_ind;
      [simpl in Hl; discriminate|].
    rewrite removelast_last. rewrite length_app in Hl. simpl in Hl. lia.
Qed.

Lemma enter_keeps_inv (lc h : nat) (b b' : WordleState) :
  board_inv lc lc b ->
  (if truthy (complete b) then Ok b else enter b lc h) = Ok b' ->
  board_inv 0 lc b'.
Proof.
  intros Hb H.
  destruct (complete b) eqn:Ec; simpl in H;
    try (inversion H; subst b'; intros K; congruence).
  specialize (Hb Ec).
  destruct (rows_cases _ (rows b)) as [E|(front & r & E)].
  - unfold enter in H. rewrite E in H. simpl in H. discriminate.
  - rewrite E, splitLast_app in Hb. destruct Hb as [Hw Hl].
    rewrite (enter_full b lc h front r E) in H by congruence.
    inversion H; subst b'. unfold committed.
    destruct (forallb isMATCH _); [intros K; discriminate|].
    destruct (h <=? _); [intros K; discriminate|].
    intros _. simpl. rewrite splitLast_app. split; reflexivity.
Qed.

Lemma mapM_Throw (A B : Type) (f : A -> result B) (l : list A) (e : JsError) :
  mapM f l = Throw e -> exists x, In x l /\ f x = Throw e.
Proof.
  induction l as [|x l IH]; simpl; intros H.
  - discriminate.
  - destruct (f x) as [y|e'] eqn:Ey; simpl in H.
    + destruct (mapM f l) as [ys|e''] eqn:Eys; simpl in H; [discriminate|].
      destruct (IH H) as (z & Hz & Hf). exists z. split; [now right | exact Hf].
    + inversion H; subst. exists x. split; [now left | exact Ey].
Qed.

(** Under the invariant [onEnter] raises only in a game of zero letters, on
    a board without rows; the boards [enter] has been through by then had an
    open row of no letters and width zero, and still have. *)
Lemma onEnter_throws_only_without_letters (g : GameState)
  (validWords : list string) (e : JsError) :
  game_inv g ->
  onEnter g validWords = Throw e ->
  letterCount g = 0
  /\ exists b, In b (states g) /\ complete b = Incomplete /\ rows b = [].
Proof.
  intros [Hlen Hbs] H. unfold onEnter in H.
  destruct (String.length (activeGuess g) =? letterCount g) eqn:Efull;
    simpl in H; [|discriminate].
  apply Nat.eqb_eq in Efull.
  destruct (includes validWords (activeGuess g)); simpl in H; [|discriminate].
  destruct (mapM _ (states g)) as [states'|e'] eqn:Em; simpl in H.
  - destruct (forallb _ states'); discriminate.
  - apply mapM_Throw in Em. destruct Em as (b & Hin & Hb).
    destruct (complete b) eqn:Ec; simpl in Hb; try discriminate.
    rewrite Forall_forall in Hbs. specialize (Hbs b Hin Ec).
    destruct (rows_cases _ (rows b)) as [E|(front & r & E)].
    + rewrite E in Hbs. simpl in Hbs.
      split; [lia|]. exists b. repeat split; assumption.
    + rewrite E, splitLast_app in Hbs. destruct Hbs as [Hw Hl].
      rewrite (enter_full b _ _ front r E) in Hb by congruence.
      discriminate.
Qed.

Lemma evaluate_nil (tgt : string) : evaluate tgt [] = [].
Proof.
  reflexivity.
Qed.

Lemma entered_until_raise_keeps_inv (h : nat) (bs : list WordleState) :
  Forall (board_inv 0 0) bs ->
  Forall (board_inv 0 0) (entered_until_raise 0 h bs).
Proof.
  induction 1 as [|e rest He Hrest IH]; cbn [entered_until_raise];
    [constructor|].
  destruct (complete e) eqn:Ec; cbn [truthy];
    try (constructor; [exact He | exact IH]).
  specialize (He Ec).
  destruct (rows_cases _ (rows e)) as [E|(front & r & E)].
  - unfold enter. rewrite E. cbn [splitLast].
    constructor; [|exact Hrest].
    intros _. rewrite E. reflexivity.
  - rewrite E, splitLast_app in He. destruct He as [Hw Hl].
    rewrite (enter_full e 0 h front r E) by congruence.
    constructor; [|exact IH].
    intros _. unfold committed.
    destruct (letters_of r) as [|x ls]; [|discriminate].
    rewrite evaluate_nil. cbn [forallb rows set_rows].
    rewrite splitLast_app. split; [exact Hw | reflexivity].
Qed.

Lemma onEnter_raised_keeps_inv (g : GameState) (validWords : list string)
  (e : JsError) :
  game_inv g -> onEnter g validWords = Throw e -> game_inv (onEnter_raised g).
Proof.
  intros Hg H.
  destruct (onEnter_throws_only_without_letters g validWords e Hg H)
    as [Hlc _].
  destruct Hg as [Hlen Hbs]. split; cbn [onEnter_raised activeGuess letterCount
                                          states]; [exact Hlen|].
  assert (Hn : String.length (activeGuess g) = 0) by lia.
  rewrite Hn, Hlc in *. apply entered_until_raise_keeps_inv, Hbs.
Qed.

Lemma step_keeps_inv (s : State) (op : Op) :
  match op with opAdd l => String.length l = 1 | _ => True end ->
  state_inv s -> state_inv (step s op).
Proof.
  intros Hop Hs. destruct s as [g|w]; [|exact I].
  destruct Hs as [Hlen Hbs].
  destruct op as [l| |validWords]; simpl.
  - unfold addLetter.
    destruct (letterCount g <=? String.length (activeGuess g)) eqn:Efull.
    + split; assumption.
    + apply Nat.leb_gt in Efull.
      destruct (mapM _ (states g)) as [states'|e] eqn:Em; simpl;
        [|split; assumption].
      split; simpl.
      * rewrite length_append. lia.
      * rewrite length_append, Hop, Nat.add_1_r.
        eapply mapM_Forall; [|exact Hbs|exact Em].
        intros b b' Hb Hadd. cbv beta in Hadd.
        exact (add_keeps_inv _ _ _ _ _ _ Efull Hb Hadd).
  - unfold removeLetter.
    destruct (String.length (activeGuess g) <=? 0) eqn:Eempty.
    + split; assumption.
    + apply Nat.leb_gt in Eempty.
      destruct (mapM _ (states g)) as [states'|e] eqn:Em; simpl;
        [|split; assumption].
      split; simpl.
      * rewrite length_substring_prefix; lia.
      * rewrite length_substring_prefix by lia.
        eapply mapM_Forall; [|exact Hbs|exact Em].
        intros b b' Hb Hrem. cbv beta in Hrem.
        eapply remove_keeps_inv; [|exact Hrem].
        replace (S (String.length (activeGuess g) - 1))
          with (String.length (activeGuess g)) by lia.
        exact Hb.
  - destruct (onEnter g validWords) as [s'|err] eqn:E;
      [|exact (onEnter_raised_keeps_inv g validWords err (conj Hlen Hbs) E)].
    revert E. unfold onEnter.
    destruct (String.length (activeGuess g) =? letterCount g) eqn:Efull;
      simpl; [|intros E; inversion E; subst s'; split; assumption].
    apply Nat.eqb_eq in Efull.
    destruct (includes validWords (activeGuess g)); simpl;
      [|intros E; inversion E; subst s'; split; assumption].
    destruct (mapM _ (states g)) as [states'|e] eqn:Em; simpl;
      [|discriminate].
    destruct (forallb _ states'); intros E; inversion E; subst s';
      [exact I|].
    split; simpl; [lia|].
    eapply mapM_Forall; [|exact Hbs|exact Em].
    intros b b' Hb Hent. cbv beta in Hent.
    eapply enter_keeps_inv; [|exact Hent].
    rewrite Efull in Hb. exact Hb.
Qed.

Lemma run_keeps_inv (ops : list Op) :
  forall s, single_letters ops -> state_inv s -> state_inv (run s ops).
Proof.
  induction ops as [|op ops IH]; intros s Hops Hs; simpl.
  - exact Hs.
  - inversion Hops; subst. apply IH; [assumption|].
    apply step_keeps_inv; assumption.
Qed.

Lemma initial_inv (lc ga cols : nat) (words : list string) :
  game_inv (initialState lc ga cols words).
Proof.
  split; simpl; [lia|].
  induction words as [|tgt words IH]; simpl; constructor.
  - intros _. reflexivity.
  - exact IH.
Qed.

Lemma board_inv_open (n lc : nat) (b : WordleState) :
  board_inv n lc b -> complete b = Incomplete ->
  List.length (openLetters b) = n.
Proof.
  intros Hb Hc. specialize (Hb Hc). unfold openLetters.
  destruct (splitLast (rows b)) as [[front r]|].
  - apply Hb.
  - simpl. now subst.
Qed.

(** [addLetter] and [removeLetter] never raise. *)
Lemma addLetter_never_throws (g : GameState) (l : string) :
  exists g', addLetter g l = Ok g'.
Proof.
  unfold addLetter.
  destruct (letterCount g <=? String.length (activeGuess g)); [eauto|].
  destruct (mapM _ (states g)) as [states'|e] eqn:Em; simpl; [eauto|].
  apply mapM_Throw in Em. destruct Em as (b & _ & Hb).
  destruct (truthy (complete b)); [discriminate|].
  destruct (add_never_throws b (letterCount g) (guessesAllowed g) l) as [b' E].
  congruence.
Qed.

Lemma removeLetter_never_throws (g : GameState) :
  exists g', removeLetter g = Ok g'.
Proof.
  unfold removeLetter.
  destruct (String.length (activeGuess g) <=? 0); [eauto|].
  destruct (mapM _ (states g)) as [states'|e] eqn:Em; simpl; [eauto|].
  apply mapM_Throw in Em. destruct Em as (b & _ & Hb).
  destruct (truthy (complete b)); [discriminate|].
  destruct (remove_never_throws b) as [b' E]. congruence.
Qed.

(** C7, as amended.  From the initial state, after any sequence of
    [addLetter], [removeLetter] and [onEnter] calls in which every letter
    added is a single character, the active guess has at most [letterCount]
    letters and every board that is not complete holds as many letters in
    its open row as the active guess has (none when it has no row). *)
Theorem controller_invariant (lc ga cols : nat) (words : list string)
  (ops : list Op) (g : GameState) :
  single_letters ops ->
  run (Game (initialState lc ga cols words)) ops = Game g ->
  String.length (activeGuess g) <= letterCount g
  /\ forall b, In b (states g) -> complete b = Incomplete ->
               List.length (openLetters b) = String.length (activeGuess g).
Proof.
  intros Hops Hrun.
  pose proof (run_keeps_inv ops (Game (initialState lc ga cols words)) Hops
                (initial_inv lc ga cols words)) as H.
  rewrite Hrun in H. destruct H as [Hlen Hbs].
  split; [exact Hlen|].
  intros b Hin Hc. rewrite Forall_forall in Hbs.
  eapply board_inv_open; [apply Hbs, Hin | exact Hc].
Qed.

Lemma controller_invariant_witness :
  String.length "C" <= 5
  /\ forall b,
      In b [mkState [mkRow 5 (Some (typed (split_chars "C")))] Incomplete "CRANE"] ->
      complete b = Incomplete ->
      List.length (openLetters b) = String.length "C".
Proof.
  apply (controller_invariant 5 6 1 ["CRANE"%string]
           [opAdd "C"; opAdd "R"; opRemove]
           (mkGame 5 6 "C" 1
              [mkState [mkRow 5 (Some (typed (split_chars "C")))]
                       Incomplete "CRANE"])).
  - repeat constructor.
  - reflexivity.
Defined.

(** C7 as stated fails when a letter handed to [addLetter] is not one
    character: the guess grows by the length of the string and the open row
    by one letter, and the guess can outgrow [letterCount]. *)
Lemma long_letter_breaks_invariant :
  run (Game crane_game) [opAdd "AB"]
  = Game (mkGame 5 6 "AB" 1
            [mkState [mkRow 5 (Some [mkLetter "AB" INVALID])] Incomplete "CRANE"])
  /\ List.length
       (openLetters
          (mkState [mkRow 5 (Some [mkLetter "AB" INVALID])] Incomplete "CRANE"))
     <> String.length "AB"
  /\ run (Game crane_game) [opAdd "ABCDEF"]
     = Game (mkGame 5 6 "ABCDEF" 1
               [mkState [mkRow 5 (Some [mkLetter "ABCDEF" INVALID])]
                        Incomplete "CRANE"])
  /\ ~ String.length "ABCDEF" <= 5.
Proof.
  split; [reflexivity|]. split; [simpl; discriminate|].
  split; [reflexivity|]. simpl. lia.
Qed.

(** Such a letter comes in through [onKey]: a replicated [key-pressed] event
    is checked on the code of its first character only. *)
Lemma onKey_accepts_long_key :
  current (fst (fst (onKey upcase event_text (Some (mkKey 65 "AB")) true
                           crane_component)))
  = Game (mkGame 5 6 "AB" 1
            [mkState [mkRow 5 (Some [mkLetter "AB" INVALID])] Incomplete "CRANE"]).
Proof.
  reflexivity.
Qed.

(** ** What [onEnter] commits *)

Lemma split_chars_app (a b : string) :
  split_chars (a ++ b)%string = split_chars a ++ split_chars b.
Proof.
  induction a as [|c a IH]; simpl; [reflexivity | now rewrite IH].
Qed.

Lemma split_chars_single (l : string) :
  String.length l = 1 -> split_chars l = [l].
Proof.
  destruct l as [|c [|c' l]]; simpl; intros H; try discriminate; reflexivity.
Qed.

Lemma length_split_chars (a : string) :
  List.length (split_chars a) = String.length a.
Proof.
  induction a as [|c a IH]; simpl; [reflexivity | now rewrite IH].
Qed.

Lemma length_typed (G : list string) : List.length (typed G) = List.length G.
Proof.
  unfold typed. apply length_map.
Qed.

Lemma split_chars_prefix (a : string) :
  split_chars (String.substring 0 (String.length a - 1) a)
  = removelast (split_chars a).
Proof.
  induction a as [|c a IH]; [reflexivity|].
  replace (String.length (String c a) - 1) with (String.length a)
    by (cbn [String.length]; lia).
  destruct a as [|c' a]; [reflexivity|].
  replace (String.length (String c' a) - 1) with (String.length a) in IH
    by (cbn [String.length]; lia).
  cbn [String.length String.substring split_chars] in *.
  rewrite IH. reflexivity.
Qed.

Lemma typed_removelast (G : list string) :
  removelast (typed G) = typed (removelast G).
Proof.
  induction G as [|g G IH]; [reflexivity|].
  destruct G as [|g' G]; [reflexivity|].
  cbn [typed map removelast] in *. now rewrite IH.
Qed.

Lemma board_holds_inv (guess : string) (lc : nat) (b : WordleState) :
  board_holds guess lc b -> board_inv (String.length guess) lc b.
Proof.
  intros Hb Hc. specialize (Hb Hc).
  destruct (splitLast (rows b)) as [[front r]|].
  - destruct Hb as [Hw Hl]. split; [exact Hw|].
    now rewrite Hl, length_typed, length_split_chars.
  - now subst guess.
Qed.

Lemma board_inv_holds (b : WordleState) :
  board_inv 0 0 b -> board_holds EmptyString 0 b.
Proof.
  intros Hb Hc. specialize (Hb Hc).
  destruct (splitLast (rows b)) as [[front r]|]; [|reflexivity].
  destruct Hb as [Hw Hl]. split; [exact Hw|].
  destruct (letters_of r); [reflexivity | discriminate].
Qed.

Lemma game_holds_inv (g : GameState) : game_holds g -> game_inv g.
Proof.
  intros [Hlen Hbs]. split; [exact Hlen|].
  eapply Forall_impl; [|exact Hbs]. intros b. apply board_holds_inv.
Qed.

Lemma add_keeps_holding (guess l : string) (lc h : nat) (b b' : WordleState) :
  String.length guess < lc ->
  String.length l = 1 ->
  board_holds guess lc b ->
  (if truthy (complete b) then Ok b else add b lc h l) = Ok b' ->
  board_holds (guess ++ l)%string lc b'.
Proof.
  intros Hn Hl Hb H.
  destruct (complete b) eqn:Ec; cbn [truthy] in H;
    try (inversion H; subst b'; intros K; congruence).
  specialize (Hb Ec).
  destruct b as [rs c t]. cbn [rows complete target] in *. subst c.
  unfold add in H. cbn [truthy complete rows] in H.
  destruct (rows_cases _ rs) as [E|(front & r & E)]; subst rs.
  - cbn [splitLast] in Hb. subst guess. simpl in H.
    replace (lc <=? 0) with false in H
      by (symmetry; apply Nat.leb_gt; simpl in Hn; lia).
    inversion H; subst b'. intros _. simpl. split; [reflexivity|].
    unfold letters_of. simpl. now rewrite (split_chars_single l Hl).
  - rewrite splitLast_app in Hb. destruct Hb as [Hw Hls].
    replace (List.length (front ++ [r]) =? 0) with false in H
      by (symmetry; apply Nat.eqb_neq; rewrite length_snoc; lia).
    cbn [set_rows rows] in H.
    rewrite splitLast_app, ensure_letter_letters in H.
    cbn [row_letter width] in H.
    replace (width r <=? List.length (letters_of r)) with false in H
      by (symmetry; apply Nat.leb_gt;
          rewrite Hls, length_typed, length_split_chars; lia).
    inversion H; subst b'. intros _. cbn [rows set_rows].
    rewrite splitLast_app. split; [exact Hw|].
    unfold letters_of at 1. cbn [row_letter].
    rewrite Hls, split_chars_app, (split_chars_single l Hl).
    unfold typed. rewrite map_app. reflexivity.
Qed.

Lemma remove_keeps_holding (guess : string) (lc : nat) (b b' : WordleState) :
  0 < String.length guess ->
  board_holds guess lc b ->
  (if truthy (complete b) then Ok b else remove b) = Ok b' ->
  board_holds (String.substring 0 (String.length guess - 1) guess) lc b'.
Proof.
  intros Hn Hb H.
  destruct (complete b) eqn:Ec; cbn [truthy] in H;
    try (inversion H; subst b'; intros K; congruence).
  specialize (Hb Ec).
  destruct b as [rs c t]. cbn [rows complete target] in *. subst c.
  unfold remove in H. cbn [truthy complete rows] in H.
  destruct (rows_cases _ rs) as [E|(front & r & E)]; subst rs.
  - cbn [splitLast] in Hb. subst guess. simpl in Hn. lia.
  - rewrite splitLast_app in Hb. destruct Hb as [Hw Hls].
    replace (List.length (front ++ [r]) =? 0) with false in H
      by (symmetry; apply Nat.eqb_neq; rewrite length_snoc; lia).
    rewrite splitLast_app, ensure_letter_letters in H.
    cbn [row_letter width] in H.
    replace (List.length (letters_of r) <=? 0) with false in H
      by (symmetry; apply Nat.leb_gt;
          rewrite Hls, length_typed, length_split_chars; lia).
    inversion H; subst b'. intros _. cbn [rows set_rows].
    rewrite splitLast_app. split; [exact Hw|].
    unfold letters_of at 1. cbn [row_letter].
    now rewrite Hls, typed_removelast, split_chars_prefix.
Qed.

Lemma enter_keeps_holding (guess : string) (lc h : nat) (b b' : WordleState) :
  String.length guess = lc ->
  board_holds guess lc b ->
  (if truthy (complete b) then Ok b else enter b lc h) = Ok b' ->
  board_holds EmptyString lc b'.
Proof.
  intros Hn Hb H.
  destruct (complete b) eqn:Ec; cbn [truthy] in H;
    try (inversion H; subst b'; intros K; congruence).
  specialize (Hb Ec).
  destruct (rows_cases _ (rows b)) as [E|(front & r & E)].
  - unfold enter in H. rewrite E in H. discriminate.
  - rewrite E, splitLast_app in Hb. destruct Hb as [Hw Hls].
    rewrite (enter_full b lc h front r E) in H
      by (rewrite Hls, length_typed, length_split_chars; congruence).
    inversion H; subst b'. unfold committed.
    destruct (forallb isMATCH _); [intros K; discriminate|].
    destruct (h <=? _); [intros K; discriminate|].
    intros _. cbn [rows]. rewrite splitLast_app. split; reflexivity.
Qed.

Lemma onEnter_raised_keeps_holding (g : GameState) (validWords : list string)
  (e : JsError) :
  game_holds g -> onEnter g validWords = Throw e ->
  game_holds (onEnter_raised g).
Proof.
  intros Hg H. pose proof (game_holds_inv g Hg) as Hi.
  destruct (onEnter_throws_only_without_letters g validWords e Hi H)
    as [Hlc _].
  destruct (onEnter_raised_keeps_inv g validWords e Hi H) as [Hlen Hbs].
  unfold game_holds.
  cbn [onEnter_raised activeGuess letterCount states] in *.
  split; [exact Hlen|].
  assert (Hguess : activeGuess g = EmptyString).
  { destruct (activeGuess g); [reflexivity | simpl in Hlen; lia]. }
  rewrite Hguess, Hlc in *. cbn [String.length] in Hbs.
  eapply Forall_impl; [|exact Hbs]. intros b. apply board_inv_holds.
Qed.

Lemma step_keeps_holding (s : State) (op : Op) :
  match op with opAdd l => String.length l = 1 | _ => True end ->
  state_holds s -> state_holds (step s op).
Proof.
  intros Hop Hs. destruct s as [g|w]; [|exact I].
  pose proof Hs as [Hlen Hbs].
  destruct op as [l| |validWords]; cbn [step].
  - destruct (addLetter g l) as [g'|err] eqn:E; [|exact Hs].
    revert E. unfold addLetter.
    destruct (letterCount g <=? String.length (activeGuess g)) eqn:Efull;
      [intros E; inversion E; subst g'; exact Hs|].
    apply Nat.leb_gt in Efull.
    destruct (mapM _ (states g)) as [states'|e] eqn:Em; cbn [bind];
      [|discriminate].
    intros E. inversion E; subst g'. split; cbn [activeGuess letterCount states].
    + rewrite length_append. lia.
    + eapply mapM_Forall; [|exact Hbs|exact Em].
      intros b b' Hb Hadd. cbv beta in Hadd.
      exact (add_keeps_holding _ _ _ _ _ _ Efull Hop Hb Hadd).
  - destruct (removeLetter g) as [g'|err] eqn:E; [|exact Hs].
    revert E. unfold removeLetter.
    destruct (String.length (activeGuess g) <=? 0) eqn:Eempty;
      [intros E; inversion E; subst g'; exact Hs|].
    apply Nat.leb_gt in Eempty.
    destruct (mapM _ (states g)) as [states'|e] eqn:Em; cbn [bind];
      [|discriminate].
    intros E. inversion E; subst g'. split; cbn [activeGuess letterCount states].
    + rewrite length_substring_prefix; lia.
    + eapply mapM_Forall; [|exact Hbs|exact Em].
      intros b b' Hb Hrem. cbv beta in Hrem.
      exact (remove_keeps_holding _ _ _ _ Eempty Hb Hrem).
  - destruct (onEnter g validWords) as [s'|err] eqn:E;
      [|exact (onEnter_raised_keeps_holding g validWords err Hs E)].
    revert E. unfold onEnter.
    destruct (String.length (activeGuess g) =? letterCount g) eqn:Efull;
      cbn [negb]; [|intros E; inversion E; subst s'; exact Hs].
    apply Nat.eqb_eq in Efull.
    destruct (includes validWords (activeGuess g)); cbn [negb];
      [|intros E; inversion E; subst s'; exact Hs].
    destruct (mapM _ (states g)) as [states'|e] eqn:Em; cbn [bind];
      [|discriminate].
    destruct (forallb _ states'); intros E; inversion E; subst s';
      [exact I|].
    split; cbn [activeGuess letterCount states String.length]; [lia|].
    eapply mapM_Forall; [|exact Hbs|exact Em].
    intros b b' Hb Hent. cbv beta in Hent.
    exact (enter_keeps_holding _ _ _ _ _ Efull Hb Hent).
Qed.

Lemma run_keeps_holding (ops : list Op) :
  forall s, single_letters ops -> state_holds s -> state_holds (run s ops).
Proof.
  induction ops as [|op ops IH]; intros s Hops Hs; simpl.
  - exact Hs.
  - inversion Hops; subst. apply IH; [assumption|].
    apply step_keeps_holding; assumption.
Qed.

Lemma initial_holds (lc ga cols : nat) (words : list string) :
  game_holds (initialState lc ga cols words).
Proof.
  split; simpl; [lia|].
  induction words as [|tgt words IH]; simpl; constructor.
  - intros _. reflexivity.
  - exact IH.
Qed.

(** On a board that holds a full guess in its open row, [enter] commits the
    evaluation of the letters of that guess. *)
Lemma enter_commits_guess (guess : string) (lc h : nat) (b b' : WordleState) :
  String.length guess = lc ->
  board_holds guess lc b ->
  complete b = Incomplete ->
  enter b lc h = Ok b' ->
  exists (front : list WordleRow) (r : WordleRow),
    rows b = front ++ [r]
    /\ letters_of r = typed (split_chars guess)
    /\ nth_error (rows b') (List.length front)
       = Some (mkRow lc (Some (evaluate (target b)
                                 (typed (split_chars guess))))).
Proof.
  intros Hlen Hb Hc He. specialize (Hb Hc).
  destruct (rows_cases _ (rows b)) as [E|(front & r & E)].
  - unfold enter in He. rewrite E in He. discriminate.
  - rewrite E, splitLast_app in Hb. destruct Hb as [Hw Hls].
    rewrite (enter_full b _ _ front r E) in He
      by (rewrite Hls, length_typed, length_split_chars; congruence).
    inversion He; subst b'. exists front, r.
    split; [exact E|]. split; [exact Hls|].
    rewrite committed_row, Hw, Hls. reflexivity.
Qed.

(** C10, as amended.  [onEnter] returns the state it was given unless the
    active guess has [letterCount] letters and is one of the valid words.
    In a state that the controller operations lead to from the initial
    state, every letter added being a single character, whenever [onEnter]
    does anything else the active guess is a valid word, and on each board
    it hands to [enter] the open row holds that word letter by letter: the
    row [enter] commits is the evaluation of the letters of a valid word,
    and that is the row the boards of the state returned show in its
    place. *)
Theorem onEnter_commits_valid_words (s : GameState)
  (validWords : list string) :
  (~ (String.length (activeGuess s) = letterCount s
      /\ In (activeGuess s) validWords) ->
   onEnter s validWords = Ok (Game s))
  /\ (onEnter s validWords <> Ok (Game s) ->
      String.length (activeGuess s) = letterCount s
      /\ In (activeGuess s) validWords)
  /\ (forall (lc ga cols : nat) (words : list string) (ops : list Op),
        single_letters ops ->
        run (Game (initialState lc ga cols words)) ops = Game s ->
        onEnter s validWords <> Ok (Game s) ->
        In (activeGuess s) validWords
        /\ (forall b b' : WordleState,
              In b (states s) -> complete b = Incomplete ->
              enter b (letterCount s) (guessesAllowed s) = Ok b' ->
              exists (front : list WordleRow) (r : WordleRow),
                rows b = front ++ [r]
                /\ letters_of r = typed (split_chars (activeGuess s))
                /\ nth_error (rows b') (List.length front)
                   = Some (mkRow (letterCount s)
                             (Some (evaluate (target b)
                                      (typed (split_chars (activeGuess s)))))))
        /\ (forall g' : GameState,
              onEnter s validWords = Ok (Game g') ->
              Forall2
                (fun b b' =>
                   complete b = Incomplete ->
                   exists (front : list WordleRow) (r : WordleRow),
                     rows b = front ++ [r]
                     /\ letters_of r = typed (split_chars (activeGuess s))
                     /\ nth_error (rows b') (List.length front)
                        = Some (mkRow (letterCount s)
                                  (Some (evaluate (target b)
                                           (typed (split_chars
                                                     (activeGuess s)))))))
                (states s) (states g'))).
Proof.
  destruct (onEnter_guard s validWords) as [Hguard Hacts].
  split; [exact Hguard|]. split; [exact Hacts|].
  intros lc ga cols words ops Hops Hrun Hne.
  destruct (Hacts Hne) as [Hlen Hin]. split; [exact Hin|].
  pose proof (run_keeps_holding ops (Game (initialState lc ga cols words)) Hops
                (initial_holds lc ga cols words)) as H.
  rewrite Hrun in H. destruct H as [_ Hbs].
  split.
  - intros b b' Hb Hc He. rewrite Forall_forall in Hbs.
    exact (enter_commits_guess _ _ _ b b' Hlen (Hbs b Hb) Hc He).
  - intros g'. unfold onEnter.
    rewrite Hlen, Nat.eqb_refl. cbn [negb].
    apply includes_In in Hin. rewrite Hin. cbn [negb].
    destruct (mapM _ (states s)) as [states'|e] eqn:Em; cbn [bind];
      [|discriminate].
    destruct (forallb _ states'); intros E; inversion E; subst g'.
    cbn [states]. apply mapM_Forall2 in Em. clear E Hne Hrun.
    induction Em as [|b b' bs bs' Hb _ IH]; [constructor|].
    inversion Hbs as [|? ? Hhold Hrest]; subst.
    constructor; [|exact (IH Hrest)].
    intros Hc. rewrite Hc in Hb. cbn [truthy] in Hb.
    exact (enter_commits_guess _ _ _ b b' Hlen Hhold Hc Hb).
Qed.

Lemma onEnter_commits_valid_words_witness :
  exists (front : list WordleRow) (r : WordleRow),
    [mkRow 5 (Some (typed (split_chars "TRACE")))] = front ++ [r]
    /\ letters_of r = typed (split_chars "TRACE")
    /\ nth_error
         [mkRow 5 (Some (evaluate "CRANE" (typed (split_chars "TRACE"))));
          mkRow 5 (Some [])]
         (List.length front)
       = Some (mkRow 5 (Some (evaluate "CRANE" (typed (split_chars "TRACE"))))).
Proof.
  refine (proj1 (proj2 (proj2 (proj2 (onEnter_commits_valid_words
                                 (mkGame 5 6 "TRACE" 1
                                    [mkState
                                       [mkRow 5 (Some (typed (split_chars "TRACE")))]
                                       Incomplete "CRANE"])
                                 ["CRANE"%string; "TRACE"%string]))
                   5 6 1 ["CRANE"%string]
                   [opAdd "T"; opAdd "R"; opAdd "A"; opAdd "C"; opAdd "E"]
                   _ _ _))
            (mkState [mkRow 5 (Some (typed (split_chars "TRACE")))]
                     Incomplete "CRANE")
            (mkState [mkRow 5 (Some (evaluate "CRANE"
                                       (typed (split_chars "TRACE"))));
                      mkRow 5 (Some [])]
                     Incomplete "CRANE")
            _ _ _).
  - repeat constructor.
  - reflexivity.
  - intros H. vm_compute in H. discriminate H.
  - left. reflexivity.
  - reflexivity.
  - reflexivity.
Defined.

(** C10 as stated fails when a letter handed to [addLetter] is not one
    character.  With the valid words "DEADS" and "CRANE": the letters "DEAD"
    and "S" make the active guess "DEADS" over an open row of two letters;
    [onEnter] accepts the guess, [enter] finds the row short, and the guess is
    cleared.  The letters of "CRANE" then fill the guess, and the row only up
    to its width; [onEnter] accepts "CRANE" and [enter] commits the row
    "DEAD", "S", "C", "R", "A", which is no valid word. *)
Lemma onEnter_commits_other_letters :
  run (Game crane_game)
      [opAdd "DEAD"; opAdd "S"; opEnter ["DEADS"%string; "CRANE"%string];
       opAdd "C"; opAdd "R"; opAdd "A"; opAdd "N"; opAdd "E"]
  = Game (mkGame 5 6 "CRANE" 1
            [mkState [mkRow 5 (Some (typed ["DEAD"; "S"; "C"; "R"; "A"]%string))]
                     Incomplete "CRANE"])
  /\ onEnter (mkGame 5 6 "CRANE" 1
                [mkState
                   [mkRow 5 (Some (typed ["DEAD"; "S"; "C"; "R"; "A"]%string))]
                   Incomplete "CRANE"])
             ["DEADS"%string; "CRANE"%string]
     = Ok (Game (mkGame 5 6 "" 1
                   [mkState [mkRow 5 (Some [mkLetter "DEAD" INVALID;
                                            mkLetter "S" INVALID;
                                            mkLetter "C" POSITION;
                                            mkLetter "R" POSITION;
                                            mkLetter "A" POSITION]);
                             mkRow 5 (Some [])]
                            Incomplete "CRANE"]))
  /\ typed ["DEAD"; "S"; "C"; "R"; "A"]%string
     <> typed (split_chars "CRANE")
  /\ ~ In (String.concat "" ["DEAD"; "S"; "C"; "R"; "A"])%string
          ["DEADS"%string; "CRANE"%string].
Proof.
  split; [reflexivity|]. split; [reflexivity|].
  split; [discriminate|].
  simpl. intros [H|[H|[]]]; discriminate H.
Qed.

(** The same through the handlers of replicated events: a [key-pressed]
    message is checked on the code of its first character only. *)
Lemma replicated_keys_commit_other_letters :
  current
    (fst (deliverAll upcase event_text
            (mkMikordle ["DEADS"%string; "CRANE"%string] true None
                        (Game crane_game) 0)
            [Messenger.key_pressed "DEAD"; Messenger.key_pressed "S";
             Messenger.enter_pressed;
             Messenger.key_pressed "C"; Messenger.key_pressed "R";
             Messenger.key_pressed "A"; Messenger.key_pressed "N";
             Messenger.key_pressed "E"; Messenger.enter_pressed]))
  = Game (mkGame 5 6 "" 1
            [mkState [mkRow 5 (Some [mkLetter "DEAD" INVALID;
                                     mkLetter "S" INVALID;
                                     mkLetter "C" POSITION;
                                     mkLetter "R" POSITION;
                                     mkLetter "A" POSITION]);
                      mkRow 5 (Some [])]
                     Incomplete "CRANE"]).
Proof.
  reflexivity.
Qed.

Lemma onKey_replication_witness :
  snd (fst (onKey upcase event_text (Some (mkKey 65 "a")) false crane_component))
  = [Messenger.key_pressed "A"].
Proof.
  apply (proj1 (proj2 (onKey_replication upcase event_text crane_component)
                  (mkKey 65 "a") _ crane_game eq_refl eq_refl)).
  reflexivity.
Defined.

(** With an open channel the payload of a local key is transmitted, once. *)
Lemma onKey_local_transmits :
  communicator (fst (fst (onKey upcase event_text (Some (mkKey 65 "a")) false
                                crane_component)))
  = Some (Messenger.mkChat
            (Messenger.mkCommunicator true
               (Some (Messenger.mkChannel Messenger.open ["key-pressed A"%string]))
               "AB12C")).
Proof.
  reflexivity.
Qed.

(** With a communicator attached whose channel is not there yet, a local key
    is handed to the communicator once, [send] raises, and the state is not
    updated. *)
Lemma onKey_local_not_open :
  let this := mkMikordle [] true
                (Some (Messenger.mkChat (Messenger.mkCommunicator false None "AB12C")))
                (Game crane_game) 0 in
  onKey upcase event_text (Some (mkKey 65 "a")) false this
  = (this, [Messenger.key_pressed "A"], Throw NotOpen).
Proof.
  reflexivity.
Qed.

(** ** Further properties of the evaluation *)

Lemma holding_cons (x g : string) (G : list string) :
  holding x (g :: G) = (if String.eqb g x then 1 else 0) + holding x G.
Proof.
  unfold holding. simpl. destruct (String.eqb g x); reflexivity.
Qed.

Lemma unmatched_cons (x : string) (e : Letter) (ls : list Letter) :
  unmatched x (e :: ls)
  = (if String.eqb (letter e) x && negb (LetterState_eqb (state e) MATCH)
     then 1 else 0) + unmatched x ls.
Proof.
  unfold unmatched. simpl.
  destruct (String.eqb (letter e) x && negb (LetterState_eqb (state e) MATCH));
    reflexivity.
Qed.

Lemma holding_split (x : string) (ls : list Letter) :
  holding x (map letter ls) = matched x ls + unmatched x ls.
Proof.
  induction ls as [|e ls IH]; simpl; [reflexivity|].
  rewrite holding_cons, matched_cons, unmatched_cons, IH.
  destruct (String.eqb (letter e) x), (LetterState_eqb (state e) MATCH);
    simpl; lia.
Qed.

Lemma findIndex_None_occurrences (x s : string) :
  findIndex x s = None -> occurrences x s = 0.
Proof.
  induction s as [|c s IH]; simpl; intros H; [reflexivity|].
  destruct (String.eqb (String c EmptyString) x); [discriminate|].
  destruct (findIndex x s); [discriminate|]. simpl. apply IH. reflexivity.
Qed.

(** The second pass credits a letter as often as it is still to be found:
    the [MATCH] positions, plus the other positions holding it, up to the
    occurrences left in the scratch copy. *)
Lemma secondPass_credit (x : string) (ls : list Letter) :
  x <> sentinel ->
  forall tc : string,
    credited x (fst (secondPass ls tc))
    = matched x ls + Nat.min (unmatched x ls) (occurrences x tc).
Proof.
  intros Hx. induction ls as [|e ls IH]; intros tc.
  - reflexivity.
  - simpl secondPass. rewrite matched_cons, unmatched_cons.
    destruct (LetterState_eqb (state e) MATCH) eqn:Em.
    + specialize (IH tc). destruct (secondPass ls tc) as [out tc'].
      simpl in *. rewrite credited_cons, Em. simpl.
      rewrite andb_true_r, andb_false_r. simpl. lia.
    + rewrite andb_false_r, andb_true_r.
      destruct (findIndex (letter e) tc) as [index|] eqn:Ef.
      * specialize (IH (mask index tc)).
        destruct (secondPass ls (mask index tc)) as [out tc'].
        simpl in *. rewrite credited_cons. simpl. rewrite andb_true_r.
        pose proof (occurrences_mask x tc (letter e) index Hx
                      (findIndex_charAt (letter e) tc index Ef)) as Hk.
        destruct (String.eqb (letter e) x); lia.
      * specialize (IH tc). destruct (secondPass ls tc) as [out tc'].
        simpl in *. rewrite credited_cons. simpl. rewrite andb_false_r.
        destruct (String.eqb (letter e) x) eqn:E; [|simpl; lia].
        apply String.eqb_eq in E. rewrite E in Ef.
        rewrite (findIndex_None_occurrences x tc Ef) in *. lia.
Qed.

(** X1.  In the row [enter] commits for a freshly typed guess, a letter
    other than the sentinel is marked [MATCH] or [POSITION] at exactly as
    many positions as the smaller of its number of occurrences in the guess
    and in the target. *)
Theorem evaluate_credits_exactly (T : string) (G : list string) (x : string) :
  x <> sentinel ->
  credited x (evaluate T (typed G))
  = Nat.min (holding x G) (occurrences x T).
Proof.
  intros Hx. unfold evaluate. rewrite append_empty_r.
  destruct (firstPass_typed G EmptyString T)
    as (out1 & T1 & Hf & Hl1 & _ & Ho1 & _).
  simpl in Hf. rewrite Hf.
  rewrite (secondPass_credit x out1 Hx T1).
  specialize (Ho1 x Hx).
  rewrite <- Hl1, holding_split. lia.
Qed.

Lemma evaluate_credits_exactly_witness :
  credited "L" (evaluate "ALLOW" (typed (split_chars "LLAMA"))) = 2
  /\ credited "A" (evaluate "ALLOW" (typed (split_chars "LLAMA"))) = 1.
Proof.
  split.
  - rewrite (evaluate_credits_exactly "ALLOW" (split_chars "LLAMA") "L");
      [reflexivity | discriminate].
  - rewrite (evaluate_credits_exactly "ALLOW" (split_chars "LLAMA") "A");
      [reflexivity | discriminate].
Defined.

Lemma count_state_le (st : LetterState) (ls : list Letter) :
  count_state st ls <= List.length ls.
Proof.
  induction ls as [|e ls IH]; [unfold count_state; simpl; lia|].
  rewrite count_state_cons. cbn [List.length].
  destruct (LetterState_eqb (state e) st); lia.
Qed.

Lemma all_MATCH_count (ls : list Letter) :
  forallb isMATCH ls = true <-> count_state MATCH ls = List.length ls.
Proof.
  induction ls as [|e ls IH].
  - split; reflexivity.
  - rewrite count_state_cons. cbn [forallb List.length]. unfold isMATCH at 1.
    pose proof (count_state_le MATCH ls) as Hle.
    destruct (LetterState_eqb (state e) MATCH); simpl.
    + rewrite IH. split; lia.
    + split; [discriminate | lia].
Qed.

Lemma agreeing_le (G : list string) :
  forall T : string, agreeing G T <= List.length G.
Proof.
  induction G as [|g G IH]; intros T; simpl; [lia|].
  destruct T as [|c T]; [lia|].
  specialize (IH T). destruct (String.eqb (String c EmptyString) g); lia.
Qed.

Lemma agreeing_everywhere (G : list string) :
  forall T : string,
    List.length G = String.length T ->
    (agreeing G T = List.length G <-> G = split_chars T).
Proof.
  induction G as [|g G IH]; intros T Hlen.
  - destruct T; simpl in *; [split; reflexivity | discriminate].
  - destruct T as [|c T]; simpl in *; [discriminate|].
    injection Hlen as Hlen. specialize (IH T Hlen).
    pose proof (agreeing_le G T) as Hle.
    destruct (String.eqb (String c EmptyString) g) eqn:E.
    + apply String.eqb_eq in E. subst g. split.
      * intros H. f_equal. apply IH. lia.
      * intros H. injection H as H. apply IH in H. lia.
    + apply String.eqb_neq in E. split; [lia|].
      intros H. injection H as H _. congruence.
Qed.

(** X2.  A board whose target has as many letters as the row is wide is won
    by [enter] exactly when the guess typed in the open row is the target;
    any other full guess leaves it lost or open. *)
Theorem enter_wins_iff_guess_is_target (T : string) (G : list string)
  (front : list WordleRow) (w h : nat) :
  List.length G = String.length T ->
  exists b' : WordleState,
    enter (mkState (front ++ [mkRow (List.length G) (Some (typed G))])
                   Incomplete T) w h = Ok b'
    /\ (complete b' = SUCCESS <-> G = split_chars T).
Proof.
  intros Hlen.
  set (r := mkRow (List.length G) (Some (typed G))).
  set (b := mkState (front ++ [r]) Incomplete T).
  exists (committed b w h front r).
  split.
  { apply enter_full; [reflexivity|]. unfold r, typed. simpl. apply length_map. }
  destruct (evaluate_typed T G) as (Hl & Hc & _).
  assert (Hn : List.length (evaluate T (typed G)) = List.length G).
  { rewrite <- Hl at 2. now rewrite length_map. }
  rewrite <- (agreeing_everywhere G T Hlen), <- Hc, <- Hn, <- all_MATCH_count.
  unfold committed. change (letters_of r) with (typed G). simpl.
  destruct (forallb isMATCH (evaluate T (typed G))); simpl.
  - split; reflexivity.
  - destruct (h <=? _); simpl; split; discriminate.
Qed.

Lemma enter_wins_iff_guess_is_target_witness :
  exists b' : WordleState,
    enter (mkState [mkRow 5 (Some (typed (split_chars "TRACE")))]
                   Incomplete "CRANE") 5 6 = Ok b'
    /\ complete b' <> SUCCESS.
Proof.
  destruct (enter_wins_iff_guess_is_target "CRANE" (split_chars "TRACE")
              [] 5 6 eq_refl) as (b' & He & Hw).
  exists b'. split; [exact He|].
  intros Hs. apply Hw in Hs. discriminate Hs.
Defined.

Lemma LetterState_eqb_eq (a b : LetterState) :
  LetterState_eqb a b = true <-> a = b.
Proof.
  destruct a, b; simpl; split; congruence.
Qed.

Lemma same_marks_eqb (e1 e2 : Letter) :
  same_marks e1 e2 ->
  LetterState_eqb (state e1) MATCH = LetterState_eqb (state e2) MATCH.
Proof.
  intros [_ H].
  destruct (LetterState_eqb (state e1) MATCH) eqn:E1,
           (LetterState_eqb (state e2) MATCH) eqn:E2; try reflexivity.
  - apply LetterState_eqb_eq in E1. apply H in E1.
    apply LetterState_eqb_eq in E1. congruence.
  - apply LetterState_eqb_eq in E2. apply H in E2.
    apply LetterState_eqb_eq in E2. congruence.
Qed.

(** The second pass looks at the letters and at which of them are [MATCH],
    and at nothing else. *)
Lemma secondPass_same_marks (l1 l2 : list Letter) :
  Forall2 same_marks l1 l2 ->
  forall tc : string, secondPass l1 tc = secondPass l2 tc.
Proof.
  induction 1 as [|e1 e2 l1 l2 He _ IH]; intros tc; [reflexivity|].
  simpl. rewrite <- (same_marks_eqb e1 e2 He).
  destruct He as [Hl Hs]. rewrite <- Hl.
  destruct (LetterState_eqb (state e1) MATCH) eqn:E.
  - rewrite IH. apply LetterState_eqb_eq in E.
    assert (e1 = e2) as ->.
    { destruct e1 as [c1 s1], e2 as [c2 s2]. simpl in *. subst.
      f_equal. symmetry. apply Hs. reflexivity. }
    reflexivity.
  - destruct (findIndex (letter e1) tc); rewrite IH; reflexivity.
Qed.

Lemma secondPass_marks (ls : list Letter) :
  forall tc : string, Forall2 same_marks ls (fst (secondPass ls tc)).
Proof.
  induction ls as [|e ls IH]; intros tc; simpl; [constructor|].
  destruct (LetterState_eqb (state e) MATCH) eqn:E.
  - specialize (IH tc). destruct (secondPass ls tc) as [out tc']. simpl in *.
    constructor; [split; [reflexivity | tauto] | exact IH].
  - assert (Hn : state e <> MATCH).
    { intro K. apply LetterState_eqb_eq in K. congruence. }
    destruct (findIndex (letter e) tc) as [index|].
    + specialize (IH (mask index tc)).
      destruct (secondPass ls (mask index tc)) as [out tc']. simpl in *.
      constructor; [|exact IH]. split; [reflexivity|].
      simpl. split; [tauto | discriminate].
    + specialize (IH tc). destruct (secondPass ls tc) as [out tc']. simpl in *.
      constructor; [|exact IH]. split; [reflexivity|].
      simpl. split; [tauto | discriminate].
Qed.

(** The first pass gives the same marks and the same scratch copy on a row
    that was evaluated before as on the row freshly typed. *)
Lemma firstPass_replay (G : list string) :
  forall (i : nat) (tc tc1 : string) (ls1 l : list Letter),
    firstPass i (typed G) tc = (ls1, tc1) ->
    Forall2 same_marks ls1 l ->
    exists l1, firstPass i l tc = (l1, tc1) /\ Forall2 same_marks ls1 l1.
Proof.
  induction G as [|g G IH]; intros i tc tc1 ls1 l Hf Hs; simpl in Hf.
  - inversion Hf; subst. inversion Hs; subst.
    exists []. split; [reflexivity | constructor].
  - destruct (charAt_eq tc i g) eqn:Ec.
    + destruct (firstPass (S i) (typed G) (mask i tc)) as [tl' tc'] eqn:Et.
      inversion Hf; subst. inversion Hs as [|e1 e l1' l' He Hs']; subst.
      destruct (IH _ _ _ _ _ Et Hs') as (l1 & Hl1 & Hm).
      destruct He as [Hl Hst]. simpl in Hl, Hst.
      simpl. rewrite <- Hl, Ec, Hl1.
      exists (mkLetter g MATCH :: l1). split; [reflexivity|].
      constructor; [split; [reflexivity | tauto] | exact Hm].
    + destruct (firstPass (S i) (typed G) tc) as [tl' tc'] eqn:Et.
      inversion Hf; subst. inversion Hs as [|e1 e l1' l' He Hs']; subst.
      destruct (IH _ _ _ _ _ Et Hs') as (l1 & Hl1 & Hm).
      simpl. destruct He as [Hl Hst]. simpl in Hl, Hst.
      rewrite <- Hl, Ec, Hl1.
      exists (e :: l1). split; [reflexivity|].
      constructor; [split; [exact Hl | exact Hst] | exact Hm].
Qed.

Lemma evaluate_again (T : string) (G : list string) :
  evaluate T (evaluate T (typed G)) = evaluate T (typed G).
Proof.
  unfold evaluate.
  destruct (firstPass 0 (typed G) (T ++ "")) as [ls1 tc1] eqn:E1.
  destruct (firstPass_replay G 0 (T ++ "") tc1 ls1
              (fst (secondPass ls1 tc1)) E1 (secondPass_marks ls1 tc1))
    as (l1 & Hl1 & Hm).
  rewrite Hl1.
  rewrite <- (secondPass_same_marks ls1 l1 Hm tc1). reflexivity.
Qed.

(** X3.  When [enter] has completed a board (won or lost) from a freshly
    typed guess, calling [enter] on that board again with the same
    arguments changes nothing: the last row is evaluated to the same marks
    and the same completion is set. *)
Theorem enter_again_on_completed_board (T : string) (G : list string)
  (front : list WordleRow) (w h : nat) (b1 : WordleState) :
  enter (mkState (front ++ [mkRow (List.length G) (Some (typed G))])
                 Incomplete T) w h = Ok b1 ->
  complete b1 <> Incomplete ->
  enter b1 w h = Ok b1.
Proof.
  set (r := mkRow (List.length G) (Some (typed G))).
  intros He Hc.
  assert (Hfull : List.length (letters_of r) = width r).
  { unfold r, typed. simpl. apply length_map. }
  rewrite (enter_full (mkState (front ++ [r]) Incomplete T) w h front r
             eq_refl Hfull) in He.
  inversion He as [Hb]. clear He.
  unfold committed in *. change (letters_of r) with (typed G) in *.
  simpl in *.
  set (ls' := evaluate T (typed G)) in *.
  assert (Hn : List.length ls' = List.length G).
  { destruct (evaluate_typed T G) as (Hl & _).
    unfold ls'. rewrite <- Hl at 2. now rewrite length_map. }
  set (r' := mkRow (List.length G) (Some ls')) in *.
  assert (Hagain : forall c,
    enter (mkState (front ++ [r']) c T) w h
    = Ok (committed (mkState (front ++ [r']) c T) w h front r')).
  { intros c. apply enter_full; [reflexivity | exact Hn]. }
  unfold committed in Hagain. simpl in Hagain.
  change (letters_of r') with ls' in Hagain.
  assert (Heq : evaluate T ls' = ls') by apply evaluate_again.
  rewrite Heq in Hagain. fold r' in Hagain.
  destruct (forallb isMATCH ls') eqn:Ea.
  - subst b1. apply Hagain.
  - destruct (h <=? List.length (front ++ [r'])) eqn:Eh.
    + subst b1. apply Hagain.
    + subst b1. simpl in Hc. congruence.
Qed.

Lemma enter_again_on_completed_board_witness :
  enter (mkState [mkRow 5 (Some [mkLetter "C" MATCH; mkLetter "R" MATCH;
                                 mkLetter "A" MATCH; mkLetter "N" MATCH;
                                 mkLetter "E" MATCH])] SUCCESS "CRANE") 5 6
  = Ok (mkState [mkRow 5 (Some [mkLetter "C" MATCH; mkLetter "R" MATCH;
                                mkLetter "A" MATCH; mkLetter "N" MATCH;
                                mkLetter "E" MATCH])] SUCCESS "CRANE").
Proof.
  apply (enter_again_on_completed_board "CRANE" (split_chars "CRANE") [] 5 6).
  - reflexivity.
  - discriminate.
Defined.

(** ** Typing into a board *)

Lemma addAll_row (G : list string) :
  forall (front : list WordleRow) (n : nat) (ls : list Letter)
         (T : string) (w h : nat),
    List.length ls <= n ->
    addAll (mkState (front ++ [mkRow n (Some ls)]) Incomplete T) w h G
    = Ok (mkState (front ++ [mkRow n (Some (ls ++ typed (firstn (n - List.length ls) G)))])
                  Incomplete T).
Proof.
  induction G as [|g G IH]; intros front n ls T w h Hn.
  - simpl. rewrite firstn_nil. simpl. rewrite app_nil_r. reflexivity.
  - cbn [addAll]. unfold add. simpl.
    replace (List.length (front ++ [mkRow n (Some ls)]) =? 0) with false
      by (symmetry; apply Nat.eqb_neq; rewrite length_snoc; lia).
    simpl. rewrite splitLast_app. simpl.
    destruct (n <=? List.length ls) eqn:E.
    + apply Nat.leb_le in E. simpl. unfold set_rows, ensure_letter. simpl.
      rewrite IH by exact Hn.
      replace (n - List.length ls) with 0 by lia. reflexivity.
    + apply Nat.leb_gt in E. simpl. unfold set_rows. simpl.
      rewrite IH by (rewrite length_app; simpl; lia).
      rewrite length_app. simpl.
      replace (n - List.length ls) with (S (n - (List.length ls + 1))) by lia.
      simpl. rewrite <- app_assoc. reflexivity.
Qed.

(** X4.  Letters added one after the other to a board without rows end up
    in one row of the width passed, each marked [INVALID], in the order
    typed; the letters that do not fit are dropped. *)
Theorem addAll_keeps_first_width_letters (G : list string) (T : string)
  (w h : nat) :
  G <> [] ->
  addAll (mkState [] Incomplete T) w h G
  = Ok (mkState [mkRow w (Some (typed (firstn w G)))] Incomplete T).
Proof.
  intros Hne. destruct G as [|g G]; [congruence|].
  cbn [addAll]. unfold add. simpl.
  destruct (w <=? 0) eqn:E.
  - apply Nat.leb_le in E. assert (w = 0) by lia. subst w.
    simpl. unfold set_rows, ensure_letter. simpl.
    exact (addAll_row G [] 0 [] T 0 h (Nat.le_refl 0)).
  - apply Nat.leb_gt in E. simpl. unfold set_rows. simpl.
    destruct w as [|w]; [lia|].
    pose proof (addAll_row G [] (S w) [mkLetter g INVALID] T (S w) h) as H.
    simpl in H. rewrite Nat.sub_0_r in H. apply H. lia.
Qed.

Lemma addAll_keeps_first_width_letters_witness :
  addAll (mkState [] Incomplete "CRANE") 5 6 (split_chars "TRACES")
  = Ok (mkState [mkRow 5 (Some (typed (split_chars "TRACE")))]
                Incomplete "CRANE").
Proof.
  apply (addAll_keeps_first_width_letters (split_chars "TRACES") "CRANE" 5 6).
  discriminate.
Defined.

(** X5.  None of [add], [remove] and [enter] touches a row before the last
    one or the target: the rows before the open row come out as they went
    in, whatever the arguments. *)
Theorem earlier_rows_are_kept (b b' : WordleState) (w h : nat) (l : string)
  (front : list WordleRow) (r : WordleRow) :
  rows b = front ++ [r] ->
  add b w h l = Ok b' \/ remove b = Ok b' \/ enter b w h = Ok b' ->
  firstn (List.length front) (rows b') = front
  /\ List.length front < List.length (rows b')
  /\ target b' = target b.
Proof.
  intros Hr H.
  assert (Hne : (List.length (rows b) =? 0) = false).
  { apply Nat.eqb_neq. rewrite Hr, length_snoc. lia. }
  assert (Hfront : forall tail : list WordleRow,
             firstn (List.length front) (front ++ tail) = front).
  { intros tail. rewrite firstn_app, Nat.sub_diag, firstn_all. simpl.
    apply app_nil_r. }
  destruct H as [H|[H|H]].
  - unfold add in H. destruct (truthy (complete b)).
    + inversion H; subst b'. rewrite Hr, length_snoc.
      repeat split; [apply Hfront | lia].
    + rewrite Hne in H. rewrite Hr, splitLast_app, ensure_letter_letters in H.
      simpl in H.
      destruct (width r <=? List.length (letters_of r));
        inversion H; subst b'; simpl; rewrite length_snoc;
        (repeat split; [apply Hfront | lia]).
  - unfold remove in H. destruct (truthy (complete b)).
    + inversion H; subst b'. rewrite Hr, length_snoc.
      repeat split; [apply Hfront | lia].
    + rewrite Hne in H. rewrite Hr, splitLast_app, ensure_letter_letters in H.
      simpl in H.
      destruct (List.length (letters_of r) <=? 0);
        inversion H; subst b'; simpl; rewrite length_snoc;
        (repeat split; [apply Hfront | lia]).
  - destruct (Nat.eq_dec (List.length (letters_of r)) (width r)) as [E|E].
    + rewrite (enter_full b w h front r Hr E) in H. inversion H; subst b'.
      unfold committed.
      destruct (forallb isMATCH _); simpl;
        [rewrite length_snoc; repeat split; [apply Hfront | lia]|].
      destruct (h <=? _); simpl;
        [rewrite length_snoc; repeat split; [apply Hfront | lia]|].
      rewrite <- app_assoc, length_app. simpl.
      repeat split; [apply Hfront | lia].
    + rewrite (enter_short b w h front r Hr E) in H. inversion H; subst b'.
      simpl. rewrite length_snoc. repeat split; [apply Hfront | lia].
Qed.

Lemma earlier_rows_are_kept_witness :
  firstn 1 (rows (mkState [mkRow 2 (Some (typed (split_chars "CD")));
                           mkRow 2 (Some (typed (split_chars "A")))]
                          Incomplete "AB"))
  = [mkRow 2 (Some (typed (split_chars "CD")))].
Proof.
  apply (earlier_rows_are_kept
           (mkState [mkRow 2 (Some (typed (split_chars "CD")));
                     mkRow 2 (Some (typed (split_chars "AB")))]
                    Incomplete "AB")
           (mkState [mkRow 2 (Some (typed (split_chars "CD")));
                     mkRow 2 (Some (typed (split_chars "A")))]
                    Incomplete "AB")
           2 6 "X" [mkRow 2 (Some (typed (split_chars "CD")))]
           (mkRow 2 (Some (typed (split_chars "AB")))) eq_refl).
  right. left. reflexivity.
Defined.

(** ** Rows and records stay within the guesses allowed *)

Lemma mapM_length (A B : Type) (f : A -> result B) (l : list A) (l' : list B) :
  mapM f l = Ok l' -> List.length l' = List.length l.
Proof.
  revert l'. induction l as [|x l IH]; simpl; intros l' H.
  - inversion H. reflexivity.
  - destruct (f x) as [y|e]; simpl in H; [|discriminate].
    destruct (mapM f l) as [ys|e]; simpl in H; [|discriminate].
    inversion H; subst. simpl. f_equal. apply IH. reflexivity.
Qed.

Lemma max_one_positive (ga : nat) : 1 <= Nat.max 1 ga.
Proof. lia. Qed.

Lemma add_bounded (ga lc : nat) (l : string) (b b' : WordleState) :
  rows_bounded ga b ->
  (if truthy (complete b) then Ok b else add b lc ga l) = Ok b' ->
  rows_bounded ga b'.
Proof.
  unfold rows_bounded. generalize (max_one_positive ga).
  generalize (Nat.max 1 ga). intros m Hm [Hb Hs] H.
  destruct (truthy (complete b)) eqn:Ec;
    [inversion H; subst; split; assumption|].
  assert (Hc : complete b = Incomplete)
    by (destruct (complete b); simpl in Ec; congruence).
  destruct b as [rs c t]. simpl in *. subst c. unfold add in H. simpl in H.
  destruct (rows_cases _ rs) as [E|(front & r & E)]; subst rs.
  - simpl in H. destruct (lc <=? 0); inversion H; subst b'; simpl;
      (split; [lia | discriminate]).
  - replace (List.length (front ++ [r]) =? 0) with false in H
      by (symmetry; apply Nat.eqb_neq; rewrite length_snoc; lia).
    simpl in H. rewrite splitLast_app, ensure_letter_letters in H.
    simpl in H. rewrite length_snoc in Hb.
    destruct (width r <=? List.length (letters_of r));
      inversion H; subst b'; simpl; rewrite length_snoc;
      (split; [lia | discriminate]).
Qed.

Lemma remove_bounded (ga : nat) (b b' : WordleState) :
  rows_bounded ga b ->
  (if truthy (complete b) then Ok b else remove b) = Ok b' ->
  rows_bounded ga b'.
Proof.
  unfold rows_bounded. generalize (max_one_positive ga).
  generalize (Nat.max 1 ga). intros m Hm [Hb Hs] H.
  destruct (truthy (complete b)) eqn:Ec;
    [inversion H; subst; split; assumption|].
  assert (Hc : complete b = Incomplete)
    by (destruct (complete b); simpl in Ec; congruence).
  destruct b as [rs c t]. simpl in *. subst c. unfold remove in H. simpl in H.
  destruct (rows_cases _ rs) as [E|(front & r & E)]; subst rs.
  - simpl in H. inversion H; subst b'. split; assumption.
  - replace (List.length (front ++ [r]) =? 0) with false in H
      by (symmetry; apply Nat.eqb_neq; rewrite length_snoc; lia).
    rewrite splitLast_app, ensure_letter_letters in H.
    simpl in H. rewrite length_snoc in Hb.
    destruct (List.length (letters_of r) <=? 0);
      inversion H; subst b'; simpl; rewrite length_snoc;
      (split; [lia | discriminate]).
Qed.

Lemma enter_bounded (ga lc : nat) (b b' : WordleState) :
  rows_bounded ga b ->
  (if truthy (complete b) then Ok b else enter b lc ga) = Ok b' ->
  rows_bounded ga b'.
Proof.
  unfold rows_bounded. intros [Hb Hs] H.
  destruct (truthy (complete b)) eqn:Ec;
    [inversion H; subst; split; assumption|].
  assert (Hc : complete b = Incomplete)
    by (destruct (complete b); simpl in Ec; congruence).
  destruct (rows_cases _ (rows b)) as [E|(front & r & E)].
  - unfold enter in H. rewrite E in H. discriminate.
  - rewrite E, length_snoc in Hb.
    destruct (Nat.eq_dec (List.length (letters_of r)) (width r)) as [Ef|Ef].
    + rewrite (enter_full b lc ga front r E Ef) in H.
      inversion H; subst b'. unfold committed.
      destruct (forallb isMATCH _); cbn [rows complete];
        [rewrite length_snoc; split; [lia | intros _; lia]|].
      destruct (ga <=? _) eqn:Eh; cbn [rows complete];
        [rewrite length_snoc; split; [lia | discriminate]|].
      apply Nat.leb_gt in Eh. rewrite length_snoc in Eh.
      rewrite !length_snoc. split; [lia | rewrite Hc; discriminate].
    + rewrite (enter_short b lc ga front r E Ef) in H.
      inversion H; subst b'. cbn [rows complete set_rows].
      rewrite length_snoc. split; [lia | rewrite Hc; discriminate].
Qed.

Lemma entered_until_raise_length (w h : nat) (bs : list WordleState) :
  List.length (entered_until_raise w h bs) = List.length bs.
Proof.
  induction bs as [|e rest IH]; cbn [entered_until_raise]; [reflexivity|].
  destruct (truthy (complete e)); [cbn [List.length]; now rewrite IH|].
  destruct (enter e w h); cbn [List.length]; [now rewrite IH | reflexivity].
Qed.

Lemma entered_until_raise_bounded (ga lc : nat) (bs : list WordleState) :
  Forall (rows_bounded ga) bs ->
  Forall (rows_bounded ga) (entered_until_raise lc ga bs).
Proof.
  induction 1 as [|e rest He Hrest IH]; cbn [entered_until_raise];
    [constructor|].
  destruct (truthy (complete e)) eqn:Ec; [constructor; [exact He | exact IH]|].
  destruct (enter e lc ga) as [copy|err] eqn:Ee;
    [|constructor; [exact He | exact Hrest]].
  constructor; [|exact IH].
  assert (Hcopy : rows_bounded ga copy).
  { apply (enter_bounded ga lc e copy He). rewrite Ec. exact Ee. }
  destruct Hcopy as [Hlen _]. split; cbn [set_rows rows complete];
    [exact Hlen|].
  intros K. rewrite K in Ec. discriminate.
Qed.

Lemma step_bounded (ga n : nat) (s : State) (op : Op) :
  state_bounded ga n s -> state_bounded ga n (step s op).
Proof.
  intros Hs. destruct s as [g|w]; [|exact Hs].
  destruct Hs as (Hga & Hn & Hbs).
  destruct op as [l| |validWords]; simpl.
  - unfold addLetter.
    destruct (letterCount g <=? String.length (activeGuess g));
      [repeat split; assumption|].
    destruct (mapM _ (states g)) as [states'|e] eqn:Em; simpl;
      [|repeat split; assumption].
    split; [exact Hga|]. split; [rewrite (mapM_length _ _ _ _ _ Em); exact Hn|].
    eapply mapM_Forall; [|exact Hbs|exact Em].
    intros b b' Hb Hadd. cbv beta in Hadd. rewrite Hga in Hadd.
    exact (add_bounded ga _ _ b b' Hb Hadd).
  - unfold removeLetter.
    destruct (String.length (activeGuess g) <=? 0);
      [repeat split; assumption|].
    destruct (mapM _ (states g)) as [states'|e] eqn:Em; simpl;
      [|repeat split; assumption].
    split; [exact Hga|]. split; [rewrite (mapM_length _ _ _ _ _ Em); exact Hn|].
    eapply mapM_Forall; [|exact Hbs|exact Em].
    intros b b' Hb Hrem. cbv beta in Hrem.
    exact (remove_bounded ga b b' Hb Hrem).
  - unfold onEnter.
    destruct (negb (String.length (activeGuess g) =? letterCount g));
      [repeat split; assumption|].
    destruct (negb (includes validWords (activeGuess g)));
      [repeat split; assumption|].
    destruct (mapM _ (states g)) as [states'|e] eqn:Em; simpl.
    2:{ split; [exact Hga|].
        split; [rewrite entered_until_raise_length; exact Hn|].
        rewrite Hga. apply entered_until_raise_bounded, Hbs. }
    assert (Hbs' : Forall (rows_bounded ga) states').
    { eapply mapM_Forall; [|exact Hbs|exact Em].
      intros b b' Hb Hent. cbv beta in Hent. rewrite Hga in Hent.
      exact (enter_bounded ga _ b b' Hb Hent). }
    pose proof (mapM_length _ _ _ _ _ Em) as Hlen.
    destruct (forallb _ states'); simpl.
    + split; [rewrite length_map; lia|].
      clear - Hbs'. induction Hbs' as [|b bs [Hb Hs] _ IH]; cbn [map];
        constructor; [|exact IH].
      unfold record_bounded. destruct (complete b); try exact I.
      split; [apply Hs; reflexivity | exact Hb].
    + repeat split; [exact Hga | lia | exact Hbs'].
Qed.

Lemma run_bounded (ga n : nat) (ops : list Op) :
  forall s, state_bounded ga n s -> state_bounded ga n (run s ops).
Proof.
  induction ops as [|op ops IH]; intros s Hs; simpl; [exact Hs|].
  apply IH, step_bounded, Hs.
Qed.

Lemma initial_bounded (lc ga cols : nat) (words : list string) :
  state_bounded ga (List.length words) (Game (initialState lc ga cols words)).
Proof.
  split; [reflexivity|]. split; [simpl; apply length_map|].
  simpl. induction words as [|t ws IH]; simpl; constructor.
  - split; cbn [rows complete List.length]; [lia | discriminate].
  - exact IH.
Qed.

(** X6.  Whatever sequence of [addLetter], [removeLetter] and [onEnter]
    calls follows the initial state: while the game is on there is one board
    per word and no board has more rows than guesses are allowed (or than
    one, when none is allowed); and when it has turned into a [WinState]
    there is one record per word, and the number recorded for a won board
    lies between 1 and that bound. *)
Theorem rows_and_records_within_guesses (lc ga cols : nat)
  (words : list string) (ops : list Op) :
  match run (Game (initialState lc ga cols words)) ops with
  | Game g =>
      List.length (states g) = List.length words
      /\ Forall (fun b => List.length (rows b) <= Nat.max 1 ga) (states g)
  | Win w =>
      List.length (records w) = List.length words
      /\ Forall (fun r => match r with
                          | Some n => 1 <= n <= Nat.max 1 ga
                          | None => True
                          end) (records w)
  end.
Proof.
  pose proof (run_bounded ga (List.length words) ops
                (Game (initialState lc ga cols words))
                (initial_bounded lc ga cols words)) as H.
  destruct (run (Game (initialState lc ga cols words)) ops) as [g|w].
  - destruct H as (_ & Hn & Hbs). split; [exact Hn|].
    eapply Forall_impl; [|exact Hbs]. intros b [Hb _]. exact Hb.
  - exact H.
Qed.

(** ** [onKey], one key at a time *)

Section OneKey.

Variable toUpperCase : string -> string.
Variable stringify : Messenger.Payload -> string.

(** Replicating touches the communicator and nothing else. *)
Lemma replicate_frame (synthetic : bool) (p : Messenger.Payload)
  (this : Mikordle) :
  current (fst (fst (replicate stringify synthetic p this))) = current this
  /\ validWords (fst (fst (replicate stringify synthetic p this)))
     = validWords this
  /\ continuing (fst (fst (replicate stringify synthetic p this)))
     = continuing this
  /\ ended (fst (fst (replicate stringify synthetic p this))) = ended this.
Proof.
  unfold replicate. destruct (communicator this) as [chat|];
    [|repeat split].
  destruct (negb synthetic); [|repeat split].
  destruct (Messenger.emit stringify chat p) as [chat' r].
  repeat split.
Qed.

Lemma replicate_synthetic (p : Messenger.Payload) (this : Mikordle) :
  replicate stringify true p this = (this, [], Ok tt).
Proof.
  unfold replicate. destruct (communicator this); reflexivity.
Qed.

Lemma set_current_same (this : Mikordle) :
  set_current this (current this) = this.
Proof.
  destruct this; reflexivity.
Qed.

(** A key that [onKey] acts on, in a [GameState]: the payload goes to the
    communicator first; if that call raises nothing else happens, and
    otherwise the state becomes what [keyTransition] gives; when that raises
    (which only [onEnter] can) the state is the one [onEnter] has left. *)
Lemma onKey_on_game (this : Mikordle) (e : KeyEvent) (synthetic : bool)
  (g : GameState) (p : Messenger.Payload) :
  current this = Game g ->
  payload_of toUpperCase e = Some p ->
  onKey toUpperCase stringify (Some e) synthetic this
  = let '(this1, sent, r) := replicate stringify synthetic p this in
    match r with
    | Throw err => (this1, sent, Throw err)
    | Ok _ =>
        match keyTransition toUpperCase (validWords this) e g with
        | Ok s => (set_current this1 s, sent, Ok tt)
        | Throw err =>
            (set_current this1 (Game (onEnter_raised g)), sent, Throw err)
        end
    end.
Proof.
  intros Hg Hp. unfold payload_of in Hp. unfold onKey, keyTransition.
  destruct (replicate_frame synthetic p this) as (Hc & Hv & Hk & _).
  destruct (isLetterCode (keyCode e)) eqn:El.
  - assert (E8 : (keyCode e =? 8)%Z = false).
    { unfold isLetterCode in El. apply andb_prop in El. destruct El as [L _].
      apply Z.leb_le in L. apply Z.eqb_neq. lia. }
    assert (E13 : (keyCode e =? 13)%Z = false).
    { unfold isLetterCode in El. apply andb_prop in El. destruct El as [L _].
      apply Z.leb_le in L. apply Z.eqb_neq. lia. }
    rewrite E8, E13. inversion Hp; subst p. simpl.
    unfold andThen, setState, lift, ret. rewrite Hg.
    destruct (replicate stringify synthetic _ this) as [[this1 sent] [[]|err]];
      simpl in *; [|reflexivity].
    destruct (addLetter_never_throws g (toUpperCase (key e))) as [g' Eg].
    rewrite Eg. simpl. rewrite ?app_nil_r. reflexivity.
  - simpl. destruct (keyCode e =? 8)%Z eqn:E8.
    + assert (E13 : (keyCode e =? 13)%Z = false).
      { apply Z.eqb_eq in E8. apply Z.eqb_neq. lia. }
      rewrite E13. inversion Hp; subst p. simpl.
      unfold andThen, setState, lift, ret. rewrite Hg.
      destruct (replicate stringify synthetic _ this) as [[this1 sent] [[]|err]];
        simpl in *; [|reflexivity].
      destruct (removeLetter_never_throws g) as [g' Eg].
      rewrite Eg. simpl. rewrite ?app_nil_r. reflexivity.
    + simpl. destruct (keyCode e =? 13)%Z eqn:E13; [|discriminate].
      inversion Hp; subst p. simpl.
      unfold andThen, setState, callOnEnter, lift, ret. rewrite Hg.
      destruct (replicate stringify synthetic _ this) as [[this1 sent] [[]|err]];
        simpl in *; [|reflexivity].
      rewrite Hv.
      destruct (onEnter g (validWords this)) as [[g'|w']|err]; simpl;
        rewrite ?app_nil_r; try reflexivity.
      rewrite Hk. destruct (negb (continuing this)); simpl;
        rewrite ?app_nil_r; try reflexivity.
      unfold end_. rewrite Hc, Hg. simpl. rewrite ?app_nil_r. reflexivity.
Qed.

Lemma onKey_other_key (this : Mikordle) (e : KeyEvent) (synthetic : bool) :
  payload_of toUpperCase e = None ->
  onKey toUpperCase stringify (Some e) synthetic this = (this, [], Ok tt).
Proof.
  unfold payload_of, onKey. intros Hp.
  destruct (isLetterCode (keyCode e)); [discriminate|].
  destruct (keyCode e =? 8)%Z; [discriminate|].
  destruct (keyCode e =? 13)%Z; [discriminate|]. reflexivity.
Qed.

Lemma onKey_on_win (this : Mikordle) (e : option KeyEvent) (synthetic : bool)
  (w : WinState) :
  current this = Win w ->
  onKey toUpperCase stringify e synthetic this = (this, [], Ok tt).
Proof.
  intros Hw. unfold onKey. destruct e as [e|]; [|reflexivity].
  destruct (isLetterCode (keyCode e)) eqn:El; simpl.
  - assert (E8 : (keyCode e =? 8)%Z = false).
    { unfold isLetterCode in El. apply andb_prop in El. destruct El as [L _].
      apply Z.leb_le in L. apply Z.eqb_neq. lia. }
    assert (E13 : (keyCode e =? 13)%Z = false).
    { unfold isLetterCode in El. apply andb_prop in El. destruct El as [L _].
      apply Z.leb_le in L. apply Z.eqb_neq. lia. }
    rewrite E8, E13. unfold andThen, setState, ret. rewrite Hw. simpl.
    rewrite <- Hw. rewrite set_current_same. reflexivity.
  - destruct (keyCode e =? 8)%Z eqn:E8; simpl.
    + assert (E13 : (keyCode e =? 13)%Z = false).
      { apply Z.eqb_eq in E8. apply Z.eqb_neq. lia. }
      rewrite E13. unfold andThen, setState, ret. rewrite Hw. simpl.
      rewrite <- Hw. rewrite set_current_same. reflexivity.
    + destruct (keyCode e =? 13)%Z; simpl; [|reflexivity].
      unfold andThen, setState, ret. rewrite Hw. simpl.
      rewrite <- Hw. rewrite set_current_same. reflexivity.
Qed.

End OneKey.

(** X7.  Once the state is a [WinState], no sequence of keys, local or
    replicated, changes the component or hands anything to the
    communicator. *)
Theorem keys_after_the_end (toUpperCase : string -> string)
  (stringify : Messenger.Payload -> string) (this : Mikordle) (w : WinState)
  (keys : list (option KeyEvent * bool)) :
  current this = Win w ->
  pressAll toUpperCase stringify this keys = (this, []).
Proof.
  intros Hw. unfold pressAll.
  induction keys as [|k keys IH]; simpl; [reflexivity|].
  rewrite (onKey_on_win toUpperCase stringify this (fst k) (snd k) w Hw).
  simpl. exact IH.
Qed.

Lemma keys_after_the_end_witness :
  pressAll upcase event_text
    (mkMikordle [] false None (Win (mkWin 5 6 1 [Some 3])) 0)
    [(Some (mkKey 65 "a"), false); (Some (mkKey 13 ""), true); (None, false)]
  = (mkMikordle [] false None (Win (mkWin 5 6 1 [Some 3])) 0, []).
Proof.
  apply (keys_after_the_end upcase event_text
           (mkMikordle [] false None (Win (mkWin 5 6 1 [Some 3])) 0)
           (mkWin 5 6 1 [Some 3])).
  reflexivity.
Defined.

Lemma enter_raises_without_rows (b : WordleState) (w h : nat)
  (err : JsError) :
  enter b w h = Throw err -> rows b = [] /\ err = TypeError.
Proof.
  intros H. destruct (rows_cases _ (rows b)) as [E|(front & r & E)].
  - unfold enter in H. rewrite E in H. cbn [splitLast] in H.
    inversion H. split; [exact E | reflexivity].
  - destruct (Nat.eq_dec (List.length (letters_of r)) (width r)) as [Ef|Ef].
    + rewrite (enter_full b w h front r E Ef) in H. discriminate.
    + rewrite (enter_short b w h front r E Ef) in H. discriminate.
Qed.

Lemma mapM_enter_raises (w h : nat) (bs : list WordleState) (err : JsError) :
  mapM (fun e => if truthy (complete e) then Ok e else enter e w h) bs
  = Throw err ->
  err = TypeError
  /\ exists before b rest,
       bs = before ++ b :: rest
       /\ complete b = Incomplete /\ rows b = []
       /\ Forall (fun x => complete x = Incomplete -> rows x <> []) before
       /\ entered_until_raise w h bs
          = map (entered_in_place w h) before ++ b :: rest.
Proof.
  induction bs as [|e bs IH]; cbn [mapM entered_until_raise]; [discriminate|].
  destruct (truthy (complete e)) eqn:Ec.
  - cbn [bind]. destruct (mapM _ bs) as [ys|err'] eqn:Em; cbn [bind];
      [discriminate|].
    intros H. inversion H; subst err'.
    destruct (IH eq_refl) as (Herr & before & b & rest & E & Hc & Hr & Hb & Hs).
    split; [exact Herr|]. exists (e :: before), b, rest.
    split; [rewrite E; reflexivity|]. split; [exact Hc|]. split; [exact Hr|].
    split.
    + constructor; [|exact Hb]. intros K. rewrite K in Ec. discriminate.
    + rewrite Hs. cbn [map app]. unfold entered_in_place at 2.
      rewrite Ec. reflexivity.
  - destruct (enter e w h) as [copy|err'] eqn:Ee; cbn [bind].
    + destruct (mapM _ bs) as [ys|err''] eqn:Em; cbn [bind]; [discriminate|].
      intros H. inversion H; subst err''.
      destruct (IH eq_refl)
        as (Herr & before & b & rest & E & Hc & Hr & Hb & Hs).
      split; [exact Herr|]. exists (e :: before), b, rest.
      split; [rewrite E; reflexivity|]. split; [exact Hc|]. split; [exact Hr|].
      split.
      * constructor; [|exact Hb]. intros _ K.
        unfold enter in Ee. rewrite K in Ee. discriminate.
      * rewrite Hs. cbn [map app]. unfold entered_in_place at 2.
        rewrite Ec, Ee. reflexivity.
    + intros H. inversion H; subst err'.
      destruct (enter_raises_without_rows e w h err Ee) as [Hr Herr].
      split; [exact Herr|]. exists [], e, bs.
      split; [reflexivity|].
      split; [destruct (complete e); simpl in Ec; congruence|].
      split; [exact Hr|]. split; [constructor | reflexivity].
Qed.

Lemma onEnter_raises (g : GameState) (validWords : list string)
  (err : JsError) :
  onEnter g validWords = Throw err ->
  err = TypeError
  /\ exists before b rest,
       states g = before ++ b :: rest
       /\ complete b = Incomplete /\ rows b = []
       /\ Forall (fun x => complete x = Incomplete -> rows x <> []) before
       /\ onEnter_raised g
          = mkGame (letterCount g) (guessesAllowed g) (activeGuess g)
                   (columns g)
                   (map (entered_in_place (letterCount g) (guessesAllowed g))
                        before ++ b :: rest).
Proof.
  unfold onEnter, onEnter_raised.
  destruct (negb (String.length (activeGuess g) =? letterCount g));
    [discriminate|].
  destruct (negb (includes validWords (activeGuess g))); [discriminate|].
  destruct (mapM _ (states g)) as [states'|err'] eqn:Em; cbn [bind].
  - destruct (forallb _ states'); discriminate.
  - intros H. inversion H; subst err'.
    destruct (mapM_enter_raises _ _ _ _ Em)
      as (Herr & before & b & rest & E & Hc & Hr & Hb & Hs).
    split; [exact Herr|]. exists before, b, rest.
    repeat (split; [assumption|]). rewrite Hs. reflexivity.
Qed.

(** X8.  When [onKey] raises, a game is on and the key is one it acts on.
    Either the communicator raised (its channel is not open): then
    [this.state] is the state before the key, so a local key that could not
    be replicated is not applied either.  Or the key is enter and [enter]
    raised a [TypeError] on the first board that is not complete and has no
    rows: then [this.state] is not replaced, but the boards before that one
    have been through [enter] in place, and show its marks and the row it
    pushed under their old [complete]; the active guess is still there. *)
Theorem onKey_raising_state (toUpperCase : string -> string)
  (stringify : Messenger.Payload -> string) (this : Mikordle)
  (e : option KeyEvent) (synthetic : bool) (err : JsError) :
  snd (onKey toUpperCase stringify e synthetic this) = Throw err ->
  exists (e' : KeyEvent) (g : GameState) (p : Messenger.Payload),
    e = Some e' /\ current this = Game g
    /\ payload_of toUpperCase e' = Some p
    /\ ((snd (replicate stringify synthetic p this) = Throw err
         /\ current (fst (fst (onKey toUpperCase stringify e synthetic this)))
            = Game g)
        \/ (snd (replicate stringify synthetic p this) = Ok tt
            /\ keyCode e' = 13%Z /\ err = TypeError
            /\ exists before b rest,
                 states g = before ++ b :: rest
                 /\ complete b = Incomplete /\ rows b = []
                 /\ Forall (fun x => complete x = Incomplete -> rows x <> [])
                           before
                 /\ current (fst (fst (onKey toUpperCase stringify e synthetic
                                         this)))
                    = Game (mkGame (letterCount g) (guessesAllowed g)
                              (activeGuess g) (columns g)
                              (map (entered_in_place (letterCount g)
                                                     (guessesAllowed g))
                                   before ++ b :: rest)))).
Proof.
  destruct e as [e|]; [|discriminate].
  destruct (current this) as [g|w] eqn:Hs.
  2:{ rewrite (onKey_on_win toUpperCase stringify this (Some e) synthetic w Hs).
      discriminate. }
  destruct (payload_of toUpperCase e) as [p|] eqn:Hp.
  2:{ rewrite (onKey_other_key toUpperCase stringify this e synthetic Hp).
      discriminate. }
  rewrite (onKey_on_game toUpperCase stringify this e synthetic g p Hs Hp).
  destruct (replicate_frame stringify synthetic p this) as (Hc & _).
  destruct (replicate stringify synthetic p this) as [[this1 sent] [[]|e1]]
    eqn:Er; cbn [fst snd] in *.
  - destruct (keyTransition toUpperCase (validWords this) e g) as [s|e2] eqn:Ht;
      cbn [fst snd]; [discriminate|].
    intros H. inversion H; subst e2.
    exists e, g, p. split; [reflexivity|]. split; [reflexivity|].
    split; [exact Hp|]. rewrite Er. cbn [fst snd]. right.
    split; [reflexivity|].
    unfold keyTransition in Ht. unfold payload_of in Hp.
    destruct (isLetterCode (keyCode e)).
    { destruct (addLetter_never_throws g (toUpperCase (key e))) as [g' Eg].
      rewrite Eg in Ht. discriminate. }
    destruct (keyCode e =? 8)%Z.
    { destruct (removeLetter_never_throws g) as [g' Eg].
      rewrite Eg in Ht. discriminate. }
    destruct (keyCode e =? 13)%Z eqn:E13; [|discriminate].
    apply Z.eqb_eq in E13. split; [exact E13|].
    destruct (onEnter_raises g (validWords this) err Ht)
      as (Herr & before & b & rest & E & Hcb & Hr & Hb & Hraised).
    split; [exact Herr|]. exists before, b, rest.
    repeat (split; [assumption|]). rewrite <- Hraised. reflexivity.
  - intros H. inversion H; subst e1.
    exists e, g, p. split; [reflexivity|]. split; [reflexivity|].
    split; [exact Hp|]. rewrite Er. cbn [fst snd]. left.
    split; [reflexivity | congruence].
Qed.

Lemma onKey_raising_state_witness :
  exists (e' : KeyEvent) (g : GameState) (p : Messenger.Payload),
    Some (mkKey 13 "") = Some e' /\ current uneven_component = Game g
    /\ payload_of upcase e' = Some p
    /\ ((snd (replicate event_text false p uneven_component) = Throw TypeError
         /\ current (fst (fst (onKey upcase event_text (Some (mkKey 13 ""))
                                 false uneven_component)))
            = Game g)
        \/ (snd (replicate event_text false p uneven_component) = Ok tt
            /\ keyCode e' = 13%Z /\ TypeError = TypeError
            /\ exists before b rest,
                 states g = before ++ b :: rest
                 /\ complete b = Incomplete /\ rows b = []
                 /\ Forall (fun x => complete x = Incomplete -> rows x <> [])
                           before
                 /\ current (fst (fst (onKey upcase event_text
                                         (Some (mkKey 13 "")) false
                                         uneven_component)))
                    = Game (mkGame (letterCount g) (guessesAllowed g)
                              (activeGuess g) (columns g)
                              (map (entered_in_place (letterCount g)
                                                     (guessesAllowed g))
                                   before ++ b :: rest)))).
Proof.
  apply (onKey_raising_state upcase event_text uneven_component
           (Some (mkKey 13 "")) false TypeError).
  reflexivity.
Defined.

(** On [uneven_game] enter raises on the second board, and the first one is
    left with the marks of the evaluation and a new row, not complete, under
    an active guess that was not cleared. *)
Lemma onKey_enter_raising_leaves_marks :
  onKey upcase event_text (Some (mkKey 13 "")) false uneven_component
  = (mkMikordle ["ABC"%string] true None
       (Game (mkGame 3 6 "ABC" 1
                [mkState [mkRow 3 (Some [mkLetter "A" POSITION;
                                         mkLetter "B" POSITION;
                                         mkLetter "C" POSITION]);
                          mkRow 3 (Some [])]
                         Incomplete "BCA";
                 mkState [] Incomplete "CAB"]))
       0,
     [], Throw TypeError).
Proof.
  reflexivity.
Qed.

(** X9.  A local key that [onKey] handles without raising leaves the state
    that the same key leaves when it comes in replicated: the tag decides
    about the broadcast, never about the transition. *)
Theorem local_key_as_replicated (toUpperCase : string -> string)
  (stringify : Messenger.Payload -> string) (this : Mikordle)
  (e : option KeyEvent) :
  snd (onKey toUpperCase stringify e false this) = Ok tt ->
  current (fst (fst (onKey toUpperCase stringify e false this)))
  = current (fst (fst (onKey toUpperCase stringify e true this))).
Proof.
  destruct e as [e|]; [|reflexivity].
  destruct (current this) as [g|w] eqn:Hs.
  - destruct (payload_of toUpperCase e) as [p|] eqn:Hp.
    + rewrite !(onKey_on_game toUpperCase stringify this e _ g p Hs Hp).
      rewrite replicate_synthetic.
      destruct (replicate_frame stringify false p this) as (Hc & _).
      destruct (replicate stringify false p this) as [[this1 sent] [[]|e1]];
        simpl in *; [|discriminate].
      destruct (keyTransition toUpperCase (validWords this) e g) as [s|e2];
        simpl; [reflexivity | discriminate].
    + rewrite !(onKey_other_key toUpperCase stringify this e _ Hp).
      reflexivity.
  - rewrite !(onKey_on_win toUpperCase stringify this (Some e) _ w Hs).
    reflexivity.
Qed.

Lemma local_key_as_replicated_witness :
  current (fst (fst (onKey upcase event_text (Some (mkKey 65 "a")) false
                       crane_component)))
  = current (fst (fst (onKey upcase event_text (Some (mkKey 65 "a")) true
                         crane_component))).
Proof.
  apply (local_key_as_replicated upcase event_text crane_component).
  reflexivity.
Defined.

(** X10.  [onKey] never gets the statistics to the [onEnd] prop: when the
    enter updater calls [end()] the state of the component is still the
    [GameState], and [end()] returns at its first test. *)
Theorem onKey_never_reaches_onEnd (toUpperCase : string -> string)
  (stringify : Messenger.Payload -> string) (this : Mikordle)
  (e : option KeyEvent) (synthetic : bool) :
  ended (fst (fst (onKey toUpperCase stringify e synthetic this)))
  = ended this.
Proof.
  destruct e as [e|]; [|reflexivity].
  destruct (current this) as [g|w] eqn:Hs.
  - destruct (payload_of toUpperCase e) as [p|] eqn:Hp.
    + rewrite (onKey_on_game toUpperCase stringify this e synthetic g p Hs Hp).
      destruct (replicate_frame stringify synthetic p this) as (_ & _ & _ & He).
      destruct (replicate stringify synthetic p this) as [[this1 sent] [[]|e1]];
        simpl in *; [|exact He].
      destruct (keyTransition toUpperCase (validWords this) e g) as [s|e2];
        simpl; exact He.
    + rewrite (onKey_other_key toUpperCase stringify this e synthetic Hp).
      reflexivity.
  - rewrite (onKey_on_win toUpperCase stringify this (Some e) synthetic w Hs).
    reflexivity.
Qed.

(** ** Two peers *)

Lemma upcase_ascii_again (c : ascii) :
  upcase_ascii (upcase_ascii c) = upcase_ascii c.
Proof.
  destruct c as [[] [] [] [] [] [] [] []]; reflexivity.
Qed.

Lemma upcase_again (s : string) : upcase (upcase s) = upcase s.
Proof.
  induction s as [|c s IH]; simpl; [reflexivity|].
  now rewrite upcase_ascii_again, IH.
Qed.

(** X11.  Two peers in the same [GameState], with the same valid words.  A
    local key that the first one handles without raising, with its
    communicator attached, and whose upper-cased form (for a letter key)
    starts with a character of code 65..90, is replicated so that the second
    peer, delivering what the first handed to its communicator, ends in the
    state of the first.  [toUpperCase] is taken to be idempotent. *)
Theorem replicated_key_converges (toUpperCase : string -> string)
  (stringify : Messenger.Payload -> string)
  (A B : Mikordle) (e : KeyEvent) (g : GameState)
  (chat : Messenger.MikordleChat) :
  (forall k, toUpperCase (toUpperCase k) = toUpperCase k) ->
  current A = Game g ->
  current B = Game g ->
  validWords B = validWords A ->
  communicator A = Some chat ->
  (isLetterCode (keyCode e) = true ->
   exists c, charCodeAt0 (toUpperCase (key e)) = Some c
             /\ isLetterCode c = true) ->
  snd (onKey toUpperCase stringify (Some e) false A) = Ok tt ->
  current (fst (deliverAll toUpperCase stringify B
                  (snd (fst (onKey toUpperCase stringify (Some e) false A)))))
  = current (fst (fst (onKey toUpperCase stringify (Some e) false A))).
Proof.
  intros Hup HA HB Hv Hc Hkey. unfold deliverAll.
  destruct (payload_of toUpperCase e) as [p|] eqn:Hp.
  - rewrite (onKey_on_game toUpperCase stringify A e false g p HA Hp).
    assert (Hsent : snd (fst (replicate stringify false p A)) = [p]).
    { unfold replicate. rewrite Hc. simpl.
      destruct (Messenger.emit stringify chat p). reflexivity. }
    destruct (replicate stringify false p A) as [[A1 sent] [[]|e1]];
      simpl in *; [|discriminate].
    subst sent.
    destruct (keyTransition toUpperCase (validWords A) e g) as [s|e2] eqn:Ht;
      simpl; [intros _|discriminate].
    assert (Hdel : forall e', payload_of toUpperCase e' <> None ->
               keyTransition toUpperCase (validWords B) e' g = Ok s ->
               current (fst (fst (onKey toUpperCase stringify (Some e') true B)))
               = s).
    { intros e' Hp' Ht'.
      destruct (payload_of toUpperCase e') as [p'|] eqn:Ep; [|congruence].
      rewrite (onKey_on_game toUpperCase stringify B e' true g p' HB Ep).
      rewrite replicate_synthetic, Ht'. reflexivity. }
    cbn [fold_left]. unfold deliver.
    unfold payload_of in Hp. unfold keyTransition in Ht.
    destruct (isLetterCode (keyCode e)) eqn:El.
    + inversion Hp; subst p.
      destruct (Hkey eq_refl) as (c & Hcode & Hl). rewrite Hcode.
      pose proof (Hdel (mkKey c (toUpperCase (key e)))) as Hd.
      assert (P1 : payload_of toUpperCase (mkKey c (toUpperCase (key e)))
                   <> None).
      { unfold payload_of. cbn [keyCode]. rewrite Hl. discriminate. }
      assert (P2 : keyTransition toUpperCase (validWords B)
                     (mkKey c (toUpperCase (key e))) g = Ok s).
      { unfold keyTransition. cbn [keyCode key]. rewrite Hl, Hup. exact Ht. }
      specialize (Hd P1 P2).
      destruct (onKey toUpperCase stringify _ true B) as [[B1 sentB] rB].
      exact Hd.
    + destruct (keyCode e =? 8)%Z eqn:E8.
      * inversion Hp; subst p.
        pose proof (Hdel (mkKey 8 EmptyString)) as Hd.
        assert (P1 : payload_of toUpperCase (mkKey 8 EmptyString) <> None)
          by discriminate.
        specialize (Hd P1 Ht).
        destruct (onKey toUpperCase stringify _ true B) as [[B1 sentB] rB].
        exact Hd.
      * destruct (keyCode e =? 13)%Z eqn:E13; [|discriminate].
        inversion Hp; subst p.
        pose proof (Hdel (mkKey 13 EmptyString)) as Hd.
        assert (P1 : payload_of toUpperCase (mkKey 13 EmptyString) <> None)
          by discriminate.
        assert (P2 : keyTransition toUpperCase (validWords B)
                       (mkKey 13 EmptyString) g = Ok s).
        { rewrite Hv. exact Ht. }
        specialize (Hd P1 P2).
        destruct (onKey toUpperCase stringify _ true B) as [[B1 sentB] rB].
        exact Hd.
  - rewrite (onKey_other_key toUpperCase stringify A e false Hp).
    simpl. intros _. congruence.
Qed.

Lemma replicated_key_converges_witness :
  current (fst (deliverAll upcase event_text
                  (mkMikordle ["CRANE"%string; "TRACE"%string] true None
                              (Game crane_game) 0)
                  (snd (fst (onKey upcase event_text (Some (mkKey 65 "a")) false
                                   crane_component)))))
  = current (fst (fst (onKey upcase event_text (Some (mkKey 65 "a")) false
                             crane_component))).
Proof.
  apply (replicated_key_converges upcase event_text crane_component
           (mkMikordle ["CRANE"%string; "TRACE"%string] true None
                       (Game crane_game) 0)
           (mkKey 65 "a") crane_game
           (Messenger.mkChat
              (Messenger.mkCommunicator true
                 (Some (Messenger.mkChannel Messenger.open [])) "AB12C"))).
  - exact upcase_again.
  - reflexivity.
  - reflexivity.
  - reflexivity.
  - reflexivity.
  - intros _. exists 65%Z. split; reflexivity.
  - reflexivity.
Defined.

(** The same key does not converge when its upper-cased form starts
    outside A..Z: the first peer adds it, the second ignores the message. *)
Lemma replicated_key_outside_A_Z :
  current (fst (fst (onKey upcase event_text (Some (mkKey 65 "1")) false
                           crane_component)))
  = Game (mkGame 5 6 "1" 1
            [mkState [mkRow 5 (Some [mkLetter "1" INVALID])] Incomplete "CRANE"])
  /\ snd (fst (onKey upcase event_text (Some (mkKey 65 "1")) false
                     crane_component))
     = [Messenger.key_pressed "1"]
  /\ current (fst (deliverAll upcase event_text
                     (mkMikordle ["CRANE"%string] true None (Game crane_game) 0)
                     [Messenger.key_pressed "1"]))
     = Game crane_game.
Proof.
  repeat split; reflexivity.
Qed.

(** X12.  A peer in a [GameState] answers a delivered [request] by handing
    exactly one snapshot of that state to its communicator, its own state
    unchanged; a peer that delivers this snapshot is then in that very
    state, whatever state it was in.  A peer in a [WinState] answers
    nothing. *)
Theorem snapshot_handshake (toUpperCase : string -> string)
  (stringify : Messenger.Payload -> string) (L : Mikordle)
  (chat : Messenger.MikordleChat) :
  communicator L = Some chat ->
  (forall g, current L = Game g ->
     snd (deliverAll toUpperCase stringify L [Messenger.request])
     = [Messenger.initialise g]
     /\ current (fst (deliverAll toUpperCase stringify L [Messenger.request]))
        = Game g
     /\ forall J : Mikordle,
          current (fst (deliverAll toUpperCase stringify J
                          (snd (deliverAll toUpperCase stringify L
                                  [Messenger.request]))))
          = current L)
  /\ (forall w, current L = Win w ->
        deliverAll toUpperCase stringify L [Messenger.request] = (L, [])).
Proof.
  intros Hc. split.
  - intros g Hg. unfold deliverAll, deliver. simpl. rewrite Hg.
    unfold replicate. rewrite Hc. simpl.
    destruct (Messenger.emit stringify chat (Messenger.initialise g))
      as [chat' r].
    simpl. split; [reflexivity|]. split; [exact Hg|].
    intros J. simpl. reflexivity.
  - intros w Hw. unfold deliverAll, deliver. simpl. rewrite Hw. reflexivity.
Qed.

Lemma snapshot_handshake_witness :
  snd (deliverAll upcase event_text crane_component [Messenger.request])
  = [Messenger.initialise crane_game].
Proof.
  apply (proj1 (snapshot_handshake upcase event_text crane_component _ eq_refl)
           crane_game eq_refl).
Defined.

(** ** The statistics of [end] *)

Lemma tally_bump (n m : nat) (d : list (nat * nat)) :
  tally m (bump n d) = (if n =? m then 1 else 0) + tally m d.
Proof.
  induction d as [|[k v] d IH]; simpl.
  - destruct (n =? m); reflexivity.
  - destruct (k =? n) eqn:Ekn; simpl.
    + apply Nat.eqb_eq in Ekn. subst k.
      destruct (n =? m); reflexivity.
    + destruct (k =? m) eqn:Ekm; [|exact IH].
      apply Nat.eqb_eq in Ekm. subst k. rewrite Nat.eqb_sym in Ekn.
      now rewrite Ekn.
Qed.

Lemma total_bump (n : nat) (d : list (nat * nat)) :
  list_sum (map snd (bump n d)) = S (list_sum (map snd d)).
Proof.
  induction d as [|[k v] d IH]; simpl; [reflexivity|].
  destruct (k =? n); simpl; [reflexivity | rewrite IH; lia].
Qed.

Lemma end_distribution_from (records : list (option nat)) :
  forall d : list (nat * nat),
    let d' := fold_left (fun d result => match result with
                                         | Some n => bump n d
                                         | None => d
                                         end) records d in
    (forall n, tally n d' = tally n d + won_in n records)
    /\ list_sum (map snd d') + end_losses records
       = list_sum (map snd d) + List.length records.
Proof.
  unfold won_in, end_losses.
  induction records as [|[k|] records IH]; intros d; simpl.
  - split; [intros n|]; lia.
  - destruct (IH (bump k d)) as [Ht Hs]. split.
    + intros n. rewrite Ht, tally_bump.
      destruct (k =? n); simpl; lia.
    + rewrite Hs, total_bump. lia.
  - destruct (IH d) as [Ht Hs]. split.
    + intros n. rewrite Ht. reflexivity.
    + simpl. lia.
Qed.

(** X13.  The distribution [end] computes holds, for every number of
    guesses, the number of boards won in that many guesses; its counts and
    the number of losses add up to the number of boards. *)
Theorem end_distribution_counts (records : list (option nat)) :
  (forall n, tally n (end_distribution records) = won_in n records)
  /\ list_sum (map snd (end_distribution records)) + end_losses records
     = List.length records.
Proof.
  destruct (end_distribution_from records []) as [Ht Hs].
  split; [intros n; apply Ht | exact Hs].
Qed.

Lemma concat_snoc (A : Type) (ls : list (list A)) (l : list A) :
  List.concat (ls ++ [l]) = List.concat ls ++ l.
Proof.
  rewrite List.concat_app. simpl. now rewrite app_nil_r.
Qed.

Lemma end_rows_from (columns : nat) (records : list (option nat)) :
  forall (ar : list (option nat)) (stats : list (list (option nat))),
    List.length ar < Nat.max 1 columns ->
    Forall (fun row => List.length row = Nat.max 1 columns) stats ->
    exists rest,
      List.concat stats ++ ar ++ records
      = List.concat (end_rows columns records ar (List.length ar) stats) ++ rest
      /\ List.length rest < Nat.max 1 columns
      /\ Forall (fun row => List.length row = Nat.max 1 columns)
                (end_rows columns records ar (List.length ar) stats).
Proof.
  induction records as [|e records IH]; intros ar stats Har Hst.
  - exists ar. simpl. rewrite app_nil_r. repeat split; assumption.
  - cbn [end_rows].
    destruct (columns <=? List.length ar + 1) eqn:E.
    + apply Nat.leb_le in E.
      destruct (IH [] (stats ++ [ar ++ [e]])) as (rest & Hc & Hr & Hf).
      * cbn [List.length]. lia.
      * apply Forall_app. split; [exact Hst|]. constructor; [|constructor].
        rewrite length_app. cbn [List.length]. lia.
      * cbn [List.length] in Hc, Hf.
        exists rest. split; [|split; assumption].
        rewrite <- Hc, concat_snoc. simpl. rewrite <- !app_assoc. reflexivity.
    + apply Nat.leb_gt in E.
      destruct (IH (ar ++ [e]) stats) as (rest & Hc & Hr & Hf).
      * rewrite length_app. cbn [List.length]. lia.
      * exact Hst.
      * rewrite length_app in Hc, Hf. cbn [List.length] in Hc, Hf.
        exists rest. split; [|split; assumption].
        rewrite <- Hc, <- !app_assoc. reflexivity.
Qed.

Lemma length_concat_rows (A : Type) (k : nat) (ls : list (list A)) :
  Forall (fun row => List.length row = k) ls ->
  List.length (List.concat ls) = k * List.length ls.
Proof.
  induction 1 as [|l ls Hl _ IH]; simpl; [lia|].
  rewrite length_app, IH, Hl. lia.
Qed.

(** X14.  The rows of statistics [end] builds are the records in order, cut
    into rows of exactly [columns] entries (of one entry when [columns] is
    0); the records left over at the end, fewer than a row, are in no row.
    So every board is in the statistics exactly when [columns] divides the
    number of boards. *)
Theorem end_stats_rows (columns : nat) (records : list (option nat)) :
  exists rest : list (option nat),
    records = List.concat (end_stats columns records) ++ rest
    /\ List.length rest = List.length records mod Nat.max 1 columns
    /\ Forall (fun row => List.length row = Nat.max 1 columns)
              (end_stats columns records).
Proof.
  destruct (end_rows_from columns records [] []) as (rest & Hc & Hr & Hf).
  - cbn [List.length]. lia.
  - constructor.
  - cbn [List.length List.concat app] in Hc, Hf.
    change (end_rows columns records [] 0 []) with (end_stats columns records)
      in Hc, Hf.
    exists rest. split; [exact Hc|]. split; [|exact Hf].
    apply (Nat.mod_unique _ _ (List.length (end_stats columns records)));
      [exact Hr|].
    rewrite Hc at 1. rewrite length_app.
    rewrite (length_concat_rows _ _ _ Hf). reflexivity.
Qed.

Lemma bump_keys (n : nat) (d : list (nat * nat)) :
  NoDup (map fst d) ->
  NoDup (map fst (bump n d))
  /\ (forall k, In k (map fst (bump n d)) <-> k = n \/ In k (map fst d)).
Proof.
  induction d as [|[k v] d IH]; simpl; intros Hnd.
  - split; [constructor; [intros []|constructor]|].
    intros k. split; [intros [H|[]]; left; congruence | intros [H|[]]; left; congruence].
  - inversion Hnd as [|? ? Hk Hd]; subst.
    destruct (k =? n) eqn:E; simpl.
    + apply Nat.eqb_eq in E. subst k. split; [exact Hnd|].
      intros k. split; [tauto|]. intros [H|H]; [left; congruence | exact H].
    + destruct (IH Hd) as [Hnd' Hin]. split.
      * constructor; [|exact Hnd'].
        rewrite Hin. intros [H|H]; [|contradiction].
        apply Nat.eqb_neq in E. congruence.
      * intros j. rewrite Hin. tauto.
Qed.

Lemma bump_positive (n : nat) (d : list (nat * nat)) :
  Forall (fun kv => 1 <= snd kv) d -> Forall (fun kv => 1 <= snd kv) (bump n d).
Proof.
  induction d as [|[k v] d IH]; simpl; intros H.
  - constructor; [simpl; lia | constructor].
  - inversion H; subst. destruct (k =? n); constructor; simpl in *; auto; lia.
Qed.

Lemma end_distribution_keys (records : list (option nat)) :
  forall d : list (nat * nat),
    NoDup (map fst d) ->
    Forall (fun kv => 1 <= snd kv) d ->
    let d' := fold_left (fun d result => match result with
                                         | Some n => bump n d
                                         | None => d
                                         end) records d in
    NoDup (map fst d') /\ Forall (fun kv => 1 <= snd kv) d'.
Proof.
  induction records as [|[k|] records IH]; intros d Hnd Hpos; simpl.
  - split; assumption.
  - apply IH; [apply bump_keys, Hnd | apply bump_positive, Hpos].
  - apply IH; assumption.
Qed.

Lemma length_le_sum (d : list (nat * nat)) :
  Forall (fun kv => 1 <= snd kv) d ->
  List.length d <= list_sum (map snd d)
  /\ (List.length d = list_sum (map snd d) -> Forall (fun kv => snd kv = 1) d).
Proof.
  induction 1 as [|[k v] d Hv _ [IH1 IH2]]; simpl in *.
  - split; [lia | constructor].
  - split; [lia|]. intros H. constructor; [simpl; lia | apply IH2; lia].
Qed.

(** X15.  The number of keys of the distribution, which [Home] hands on as
    its second statistic, is the number of different guess counts among the
    won boards: the keys are distinct, they are at most as many as the won
    boards, and they are as many only when no two boards were won in the
    same number of guesses. *)
Theorem distribution_keys_and_wins (records : list (option nat)) :
  NoDup (map fst (end_distribution records))
  /\ List.length (end_distribution records) + end_losses records
     <= List.length records
  /\ (List.length (end_distribution records) + end_losses records
      = List.length records ->
      forall n, won_in n records <= 1).
Proof.
  destruct (end_distribution_keys records [] (NoDup_nil _) (Forall_nil _))
    as [Hnd Hpos].
  destruct (end_distribution_from records []) as [Ht Hs].
  fold (end_distribution records) in Hnd, Hpos, Ht, Hs. simpl in Ht, Hs.
  destruct (length_le_sum _ Hpos) as [Hle Heq].
  split; [exact Hnd|]. split; [lia|].
  intros H n. rewrite <- Ht.
  assert (Hone : Forall (fun kv => snd kv = 1) (end_distribution records))
    by (apply Heq; lia).
  clear - Hone. induction Hone as [|[k v] d Hv _ IH]; simpl; [lia|].
  simpl in Hv. destruct (k =? n); [lia | exact IH].
Qed.

Lemma distribution_keys_and_wins_witness :
  List.length (end_distribution [Some 3; Some 4; None])
  + end_losses [Some 3; Some 4; None] = 3
  /\ won_in 3 [Some 3; Some 4; None] <= 1.
Proof.
  split; [reflexivity|].
  apply (proj2 (proj2 (distribution_keys_and_wins [Some 3; Some 4; None]))).
  reflexivity.
Defined.

(** ** The envelopes of the signalling socket *)

Lemma ids_increase_snoc (envs : list Signalling.Envelope)
  (env : Signalling.Envelope) (next : nat) :
  Signalling.ids_grow next (rev envs) ->
  Signalling.id env = next ->
  Signalling.ids_grow (S next) (rev (envs ++ [env])).
Proof.
  intros H E. rewrite rev_app_distr. simpl. split; [lia|].
  rewrite E. exact H.
Qed.

Lemma ids_grow_weaken (envs : list Signalling.Envelope) (a b : nat) :
  a <= b -> Signalling.ids_grow a envs -> Signalling.ids_grow b envs.
Proof.
  destruct envs as [|env tl]; simpl; [trivial|].
  intros Hab [H1 H2]. split; [lia | exact H2].
Qed.

Lemma after_keeps_wire_ok (ch : string) (this : Signalling.WebSocketMessenger)
  (ev : Signalling.Event) :
  Signalling.wire_ok ch this -> Signalling.wire_ok ch (Signalling.after this ev).
Proof.
  unfold Signalling.wire_ok. intros (Hc & Hi & Ho & Hf).
  destruct this as [[st w] c n]. simpl in *. subst c.
  assert (Hsnoc : forall env,
            Signalling.id env = n ->
            Signalling.ids_grow (n + 1) (rev (w ++ [env]))).
  { intros env E. rewrite Nat.add_1_r. apply ids_increase_snoc; assumption. }
  assert (Hsame : Signalling.ids_grow (n + 1) (rev w)).
  { apply (ids_grow_weaken _ n); [lia | exact Hi]. }
  assert (Hhead : forall x env tl,
            w <> [] -> w ++ [x] = env :: tl ->
            Signalling.topic env = "_subscribe"%string
            /\ Signalling.message env = ch).
  { intros x env tl Hne E. destruct w as [|e0 w0]; [congruence|].
    simpl in E. inversion E; subst. apply (Hf env w0 eq_refl). }
  destruct ev as [|data|].
  - unfold Signalling.after, Signalling.onopen, Signalling.post,
      Signalling.socket_send. simpl.
    split; [reflexivity|]. split; [apply Hsnoc; reflexivity|].
    split; [intros _; destruct w; discriminate|].
    intros env tl E. destruct w as [|e0 w0].
    + simpl in E. inversion E; subst. simpl. split; reflexivity.
    + simpl in E. inversion E; subst. apply (Hf env w0 eq_refl).
  - unfold Signalling.after, Signalling.send, Signalling.post,
      Signalling.socket_send. simpl.
    destruct st; simpl.
    + split; [reflexivity|]. split; [exact Hsame|].
      split; [discriminate | exact Hf].
    + split; [reflexivity|]. split; [apply Hsnoc; reflexivity|].
      split; [intros _; destruct w; discriminate|].
      intros env tl E. apply (Hhead _ env tl (Ho eq_refl) E).
    + split; [reflexivity|]. split; [exact Hsame|].
      split; [discriminate | exact Hf].
    + split; [reflexivity|]. split; [exact Hsame|].
      split; [discriminate | exact Hf].
  - simpl. split; [reflexivity|]. split; [exact Hi|].
    split; [discriminate | exact Hf].
Qed.

Lemma history_keeps_wire_ok (ch : string) (evs : list Signalling.Event) :
  forall this, Signalling.wire_ok ch this ->
               Signalling.wire_ok ch (fold_left Signalling.after evs this).
Proof.
  induction evs as [|ev evs IH]; intros this H; simpl; [exact H|].
  apply IH, after_keeps_wire_ok, H.
Qed.

(** X16.  Whatever a messenger goes through after its construction
    (opening, sending, closing, in any order), the envelopes the socket has
    accepted carry strictly growing ids, all below the next id, and the
    first of them is the subscription to the messenger's channel: nothing is
    published before it. *)
Theorem envelopes_in_order (ch : string) (evs : list Signalling.Event) :
  let final := Signalling.history ch evs in
  Signalling.ids_grow (Signalling.nextMessageID final)
    (rev (Signalling.wire (Signalling.socket final)))
  /\ (forall env tl,
         Signalling.wire (Signalling.socket final) = env :: tl ->
         Signalling.topic env = "_subscribe"%string
         /\ Signalling.message env = ch).
Proof.
  assert (H0 : Signalling.wire_ok ch (Signalling.create ch)).
  { unfold Signalling.wire_ok, Signalling.create. simpl.
    repeat split; try discriminate. }
  destruct (history_keeps_wire_ok ch evs _ H0) as (_ & Hi & _ & Hf).
  split; [exact Hi | exact Hf].
Qed.

Lemma envelopes_in_order_witness :
  Signalling.topic (Signalling.mkEnvelope "_subscribe" "AB12C" 1)
  = "_subscribe"%string
  /\ Signalling.message (Signalling.mkEnvelope "_subscribe" "AB12C" 1)
     = "AB12C"%string.
Proof.
  apply (proj2 (envelopes_in_order "AB12C"
                  [Signalling.sends "early"; Signalling.opens;
                   Signalling.sends "offer"])
           (Signalling.mkEnvelope "_subscribe" "AB12C" 1)
           [Signalling.mkEnvelope "AB12C" "offer" 2]).
  reflexivity.
Defined.

(** ** Generated identifiers *)

Lemma get_in_alphabet (alphabet : string) :
  forall i, i < String.length alphabet ->
            exists c, String.get i alphabet = Some c
                      /\ In c (list_ascii_of_string alphabet).
Proof.
  induction alphabet as [|a alphabet IH]; simpl; intros i H; [lia|].
  destruct i as [|i].
  - exists a. split; [reflexivity | now left].
  - destruct (IH i) as (c & Hc & Hin); [lia|].
    exists c. split; [exact Hc | now right].
Qed.

Lemma drawn_from_append (alphabet a b : string) :
  drawn_from alphabet a -> drawn_from alphabet b ->
  drawn_from alphabet (a ++ b).
Proof.
  induction a as [|c a IH]; simpl; [trivial|].
  intros [H1 H2] Hb. split; [exact H1 | apply IH; assumption].
Qed.

Lemma generate_spec (pick : nat -> nat -> nat) (alphabet : string) :
  (forall i, pick i (String.length alphabet) < String.length alphabet) ->
  forall n i output,
    drawn_from alphabet output ->
    String.length (generate pick alphabet i n output)
    = String.length output + n
    /\ drawn_from alphabet (generate pick alphabet i n output).
Proof.
  intros Hpick. induction n as [|n IH]; intros i output Hout; simpl.
  - split; [lia | exact Hout].
  - destruct (get_in_alphabet alphabet _ (Hpick i)) as (c & Hc & Hin).
    rewrite Hc.
    destruct (IH (S i) (output ++ String c EmptyString)%string) as [Hl Hd].
    + apply drawn_from_append; [exact Hout|]. simpl. split; [exact Hin | exact I].
    + rewrite Hl, length_append. simpl. split; [lia | exact Hd].
Qed.

(** X17.  [generateID] raises exactly when no class of characters is asked
    for; otherwise, the random index being within the alphabet as
    [Math.floor(Math.random() * n)] is, it returns a string of the length
    asked for, made of characters of the classes asked for only. *)
Theorem generateID_shape (pick : nat -> nat -> nat) (length : nat)
  (upper lower number : bool) :
  (forall i n, 0 < n -> pick i n < n) ->
  (generateID pick length upper lower number = None
   <-> upper = false /\ lower = false /\ number = false)
  /\ (forall s, generateID pick length upper lower number = Some s ->
                String.length s = length
                /\ drawn_from (chars upper lower number) s).
Proof.
  intros Hpick. unfold generateID. split.
  - destruct upper, lower, number; simpl; split;
      try discriminate; try tauto; intros (H1 & H2 & H3); discriminate.
  - intros s H.
    destruct (negb upper && negb lower && negb number) eqn:E; [discriminate|].
    inversion H; subst s.
    assert (Hpos : 0 < String.length (chars upper lower number)).
    { destruct upper, lower, number; simpl in *; try discriminate; lia. }
    destruct (generate_spec pick (chars upper lower number)
                (fun i => Hpick i _ Hpos) length 0 EmptyString I) as [Hl Hd].
    split; [exact Hl | exact Hd].
Qed.

Lemma generateID_shape_witness :
  String.length "AAAAA" = 5
  /\ drawn_from (chars true false true) "AAAAA".
Proof.
  apply (proj2 (generateID_shape (fun _ _ => 0) 5 true false true
                  (fun i n H => H)) "AAAAA"%string).
  reflexivity.
Defined.

(** ** Registering and removing listeners *)

Lemma filter_fresh (Handler : Type) (id : string)
  (l : list (string * Handler)) :
  ~ In id (map fst l) ->
  filter (fun e => negb (String.eqb (fst e) id)) l = l.
Proof.
  induction l as [|[i h] l IH]; simpl; intros H; [reflexivity|].
  destruct (String.eqb i id) eqn:E.
  - apply String.eqb_eq in E. exfalso. apply H. now left.
  - simpl. f_equal. apply IH. intro K. apply H. now right.
Qed.

(** X18.  A handler registered with [on] is called after the handlers
    already registered for its event, and for no other event; and when its
    id is not the id of a handler registered before under the same key,
    the function [on] returned takes away this handler only: every event is
    dispatched as before the registration. *)
Theorem register_then_unregister (Handler : Type) (ls : Listeners Handler)
  (id key : string) (handler : Handler) :
  (forall event,
      dispatch Handler (register Handler ls id key handler) event
      = if String.eqb event key && known_event event
        then dispatch Handler ls event ++ [handler]
        else dispatch Handler ls event)
  /\ ((forall l, ls key = Some l -> ~ In id (map fst l)) ->
      forall event,
        dispatch Handler
          (unregister Handler (register Handler ls id key handler) id key)
          event
        = dispatch Handler ls event).
Proof.
  split.
  - intros event. unfold dispatch, register.
    destruct (known_event event); [|now rewrite andb_false_r].
    rewrite andb_true_r.
    destruct (String.eqb event key) eqn:E; [|reflexivity].
    apply String.eqb_eq in E. subst event.
    destruct (ls key) as [l|]; [|reflexivity].
    rewrite map_app. reflexivity.
  - intros Hfresh event. unfold dispatch, unregister, register.
    destruct (known_event event); [|reflexivity].
    destruct (String.eqb event key) eqn:E; [|reflexivity].
    apply String.eqb_eq in E. subst event.
    rewrite String.eqb_refl.
    destruct (ls key) as [l|] eqn:El.
    + rewrite filter_app. simpl. rewrite String.eqb_refl. simpl.
      rewrite app_nil_r, (filter_fresh Handler id l (Hfresh l eq_refl)).
      reflexivity.
    + simpl. rewrite String.eqb_refl. reflexivity.
Qed.

Lemma register_then_unregister_witness :
  dispatch nat
    (unregister nat
       (register nat (register nat (noListeners nat) "id1" "request" 1)
                 "id2" "request" 2)
       "id2" "request")
    "request"
  = dispatch nat (register nat (noListeners nat) "id1" "request" 1) "request".
Proof.
  apply (proj2 (register_then_unregister nat
                  (register nat (noListeners nat) "id1" "request" 1)
                  "id2" "request" 2)).
  intros l H. vm_compute in H. inversion H; subst l.
  simpl. intros [K|[]]. discriminate K.
Defined.

(** ** Keys and the letters being typed *)

Lemma some_from_app (A : Type) (f : A -> nat -> bool) (l1 l2 : list A) :
  forall i,
    Keyboard.some_from f (l1 ++ l2) i
    = Keyboard.some_from f l1 i || Keyboard.some_from f l2 (i + List.length l1).
Proof.
  induction l1 as [|x l1 IH]; intros i; simpl.
  - now rewrite Nat.add_0_r.
  - rewrite IH, orb_assoc. do 2 f_equal. lia.
Qed.

Lemma some_from_ext (A : Type) (f g : A -> nat -> bool) (l : list A) :
  forall i,
    (forall x j, i <= j < i + List.length l -> f x j = g x j) ->
    Keyboard.some_from f l i = Keyboard.some_from g l i.
Proof.
  induction l as [|x l IH]; intros i H; simpl; [reflexivity|].
  rewrite (H x i) by (simpl; lia). f_equal.
  apply IH. intros y j Hj. apply H. simpl. lia.
Qed.

Lemma marks_typed (st : LetterState) (key : string) (r : WordleRow)
  (l : string) :
  st <> INVALID ->
  Keyboard.marks st key
    (mkRow (width r) (Some (letters_of r ++ [mkLetter l INVALID])))
  = Keyboard.marks st key r
  /\ Keyboard.marks st key (ensure_letter r) = Keyboard.marks st key r.
Proof.
  intros Hst. unfold Keyboard.marks, letters_of, ensure_letter.
  destruct st; [| |congruence];
    destruct r as [n [ls|]]; simpl;
    rewrite ?existsb_app; simpl;
    rewrite ?andb_false_r, ?orb_false_r; split; reflexivity.
Qed.

(** [add] changes the last row only, and not what the keyboard reads in
    it. *)
Lemma add_keeps_key (b b' : WordleState) (w h : nat) (l key : string) :
  add b w h l = Ok b' ->
  Keyboard.keyStateOf key b' = Keyboard.keyStateOf key b.
Proof.
  intros H. unfold add in H.
  destruct (truthy (complete b)) eqn:Ec; [inversion H; reflexivity|].
  destruct b as [rs c t]. simpl in *.
  assert (Hlast : forall (front : list WordleRow) (r1 r2 : WordleRow),
    Keyboard.marks MATCH key r2 = Keyboard.marks MATCH key r1 ->
    Keyboard.marks POSITION key r2 = Keyboard.marks POSITION key r1 ->
    Keyboard.keyStateOf key (mkState (front ++ [r2]) c t)
    = Keyboard.keyStateOf key (mkState (front ++ [r1]) c t)).
  { intros front r1 r2 Hm Hp. unfold Keyboard.keyStateOf. simpl.
    rewrite !existsb_app. simpl. rewrite Hm, Hp.
    rewrite !some_from_app. simpl.
    replace (Keyboard.ruled_out key (mkState (front ++ [r2]) c t) r2
               (List.length front))
      with false.
    2:{ unfold Keyboard.ruled_out. simpl. rewrite Ec. simpl.
        replace (nth_error (front ++ [r2]) (List.length front + 1))
          with (@None WordleRow)
          by (symmetry; apply nth_error_None; rewrite length_snoc; lia).
        destruct (row_letter r2); [|reflexivity].
        destruct (negb _); reflexivity. }
    replace (Keyboard.ruled_out key (mkState (front ++ [r1]) c t) r1
               (List.length front))
      with false.
    2:{ unfold Keyboard.ruled_out. simpl. rewrite Ec. simpl.
        replace (nth_error (front ++ [r1]) (List.length front + 1))
          with (@None WordleRow)
          by (symmetry; apply nth_error_None; rewrite length_snoc; lia).
        destruct (row_letter r1); [|reflexivity].
        destruct (negb _); reflexivity. }
    rewrite (some_from_ext _
               (Keyboard.ruled_out key (mkState (front ++ [r2]) c t))
               (Keyboard.ruled_out key (mkState (front ++ [r1]) c t))
               front 0); [reflexivity|].
    intros x j Hj. unfold Keyboard.ruled_out. simpl.
    destruct (row_letter x); [|reflexivity].
    destruct (negb _); [reflexivity|].
    assert (Hn : forall r0, exists y,
               nth_error (front ++ [r0]) (j + 1) = Some y).
    { intros r0.
      destruct (nth_error (front ++ [r0]) (j + 1)) eqn:En; [eauto|].
      apply nth_error_None in En. rewrite length_snoc in En. lia. }
    destruct (Hn r1) as (y1 & ->). destruct (Hn r2) as (y2 & ->).
    reflexivity. }
  destruct (rows_cases _ rs) as [E|(front & r & E)]; subst rs.
  - simpl in H.
    assert (Hone : forall r0,
      Keyboard.marks MATCH key r0 = false ->
      Keyboard.marks POSITION key r0 = false ->
      Keyboard.keyStateOf key (mkState [r0] c t)
      = Keyboard.keyStateOf key (mkState [] c t)).
    { intros r0 Hm Hp. unfold Keyboard.keyStateOf. simpl.
      rewrite Hm, Hp. simpl.
      unfold Keyboard.ruled_out. simpl. rewrite Ec. simpl.
      destruct (row_letter r0); [|reflexivity].
      destruct (negb _); reflexivity. }
    destruct (w <=? 0); inversion H; subst b'; simpl; apply Hone;
      unfold Keyboard.marks; simpl; rewrite ?andb_false_r; reflexivity.
  - replace (List.length (front ++ [r]) =? 0) with false in H
      by (symmetry; apply Nat.eqb_neq; rewrite length_snoc; lia).
    simpl in H. rewrite splitLast_app, ensure_letter_letters in H.
    simpl in H. rewrite <- ensure_letter_letters in H.
    destruct (width r <=? List.length (letters_of r));
      inversion H; subst b'; simpl; apply Hlast;
      try apply (marks_typed MATCH key r l); try apply (marks_typed POSITION key r l);
      discriminate.
Qed.

(** X19.  Letters that are typed into a board do not change the colour
    [deriveKeyState] gives any key for that board: the letters of the open
    row are [INVALID], and the row is left out of the third test while the
    board is not complete. *)
Theorem typing_keeps_keys (G : list string) :
  forall (b b' : WordleState) (w h : nat) (key : string),
    addAll b w h G = Ok b' ->
    Keyboard.keyStateOf key b' = Keyboard.keyStateOf key b.
Proof.
  induction G as [|g G IH]; intros b b' w h key H; simpl in H.
  - inversion H. reflexivity.
  - destruct (add b w h g) as [b1|e] eqn:Ea; simpl in H; [|discriminate].
    rewrite (IH b1 b' w h key H). apply (add_keeps_key b b1 w h g key Ea).
Qed.

Lemma typing_keeps_keys_witness :
  Keyboard.keyStateOf "T"
    (mkState [mkRow 5 (Some (typed (split_chars "TRACE")))] Incomplete "CRANE")
  = Keyboard.keyBLANK.
Proof.
  rewrite (typing_keeps_keys (split_chars "TRACE")
             (mkState [] Incomplete "CRANE")
             (mkState [mkRow 5 (Some (typed (split_chars "TRACE")))]
                      Incomplete "CRANE") 5 6 "T" eq_refl).
  reflexivity.
Defined.
